(** * google-task-cli: a shallow embedding of the OAuth, Photos and Tasks glue code

    The development follows the sources as they are laid out:
    - [src/onepassword.ts]: the credential loader and the token file,
      followed by the task-list command;
    - [src/photo-view.ts]: the media viewer, the module it imports as
      [./auth.ts] ([authorize] and its one-shot redirect listener), and
      the media uploader;
    - [server.ts]: an earlier single-file version of the authorization
      flow and of the task-list command.

    Asynchronous functions are modelled by the way their promise settles
    ([Resolved], [Rejected], or still [Pending]); everything the code obtains
    from outside (child processes, the file system, the network, the Google
    SDK) is an explicit oracle or an explicit state.  Console output is left
    out, except where the logging expression itself can throw and in the
    task display, where the console is the result. *)

From Stdlib Require Import ZArith Ascii String List Bool Lia.
From stdpp Require Import base tactics option list strings pretty gmap.

Set Warnings "-register-all".
Local Open Scope string_scope.
Local Open Scope list_scope.
Local Open Scope Z_scope.

(** ** JavaScript values, as far as the sources use them *)

Module JS.

(** A value as [JSON.parse] produces it, plus [undefined], which property
    reads produce.  Numbers are the integers: fractions and exponents are
    outside this model. *)
Inductive value : Type :=
| Undefined
| Null
| Bool (b : bool)
| Num (n : Z)
| Str (s : string)
| Arr (items : list value)
| Obj (fields : list (string * value)).

(** [if (v)], [v || w], [!v]. *)
Definition truthy (v : value) : bool :=
  match v with
  | Undefined | Null => false
  | Bool b => b
  | Num n => negb (n =? 0)
  | Str s => negb (String.eqb s "")
  | Arr _ | Obj _ => true
  end.

(** [a || b] *)
Definition or_else (a b : value) : value := if truthy a then a else b.

Fixpoint assoc (key : string) (fields : list (string * value)) : value :=
  match fields with
  | [] => Undefined
  | (k, v) :: rest => if String.eqb k key then v else assoc key rest
  end.

Definition chars (s : string) : list value :=
  map (fun c => Str (String c "")) (list_ascii_of_string s).

(** [v.key] for a key that is not on any prototype, and for [length].
    Reading a property of [null] or [undefined] throws a TypeError, whose
    message is returned on the right. *)
Definition get (v : value) (key : string) : value + string :=
  match v with
  | Undefined =>
      inr ("Cannot read properties of undefined (reading '" +:+ key +:+ "')")
  | Null =>
      inr ("Cannot read properties of null (reading '" +:+ key +:+ "')")
  | Obj fields => inl (assoc key fields)
  | Arr items =>
      inl (if String.eqb key "length" then Num (Z.of_nat (length items))
           else Undefined)
  | Str s =>
      inl (if String.eqb key "length" then Num (Z.of_nat (String.length s))
           else Undefined)
  | Bool _ | Num _ => inl Undefined
  end.

(** [v?.key]: short-circuits to [undefined] on [null] and [undefined]. *)
Definition get_opt (v : value) (key : string) : value :=
  match v with
  | Undefined | Null => Undefined
  | _ => match get v key with inl r => r | inr _ => Undefined end
  end.

(** [v[0]] on a value that is not [null] or [undefined]. *)
Definition first (v : value) : value :=
  match v with
  | Arr items => hd Undefined items
  | Str s => hd Undefined (chars s)
  | Obj fields => assoc "0" fields
  | _ => Undefined
  end.

Definition join (sep : string) (parts : list string) : string :=
  match parts with
  | [] => ""
  | p :: rest => fold_left (fun acc q => acc +:+ sep +:+ q) rest p
  end.

Definition cannot_convert : string :=
  "Cannot convert object to primitive value".

(** String conversion, as a template literal performs it: the string, or
    [None] when the conversion throws a TypeError.  An object converts
    through [Object.prototype.toString] unless a property of its own
    shadows it, and a parsed object holds no function that could stand
    in. An array joins its elements, [null] and [undefined] as empty. *)
Fixpoint to_string (v : value) : option string :=
  match v with
  | Undefined => Some "undefined"
  | Null => Some "null"
  | Bool true => Some "true"
  | Bool false => Some "false"
  | Num n => Some (pretty n)
  | Str s => Some s
  | Arr items =>
      option_map (join ",")
        ((fix elems (l : list value) : option (list string) :=
            match l with
            | [] => Some []
            | x :: r =>
                match (match x with
                       | Undefined | Null => Some ""
                       | _ => to_string x
                       end), elems r with
                | Some s, Some ss => Some (s :: ss)
                | _, _ => None
                end
            end) items)
  | Obj fields =>
      if existsb (fun kv => String.eqb (fst kv) "toString") fields
      then None else Some "[object Object]"
  end.

Definition not_iterable : string :=
  "Spread syntax requires ...iterable[Symbol.iterator] to be a function".

(** The values a spread [...v] yields, or the TypeError it throws. *)
Definition spread (v : value) : list value + string :=
  match v with
  | Arr items => inl items
  | Str s => inl (chars s)
  | _ => inr not_iterable
  end.

End JS.

(** ** What the platform provides

    [JSON.parse] and [JSON.stringify] are built into the runtime, and so
    is [String.prototype.toLowerCase], which follows the case tables of
    Unicode; the token path comes from the XDG lookup and the vault and
    item names from the process environment, and the date format depends
    on the locale.  They are parameters of the development. *)

Class Platform := {
  (** [s.toLowerCase()] *)
  toLowerCase : string -> string;
  (** [JSON.parse]: the value, or the message of the SyntaxError. *)
  JSON_parse : string -> JS.value + string;
  (** [JSON.stringify], applied to objects only. *)
  JSON_stringify : JS.value -> string;
  (** [path.join(new xdg({ name: "google-tasks-cli" }).data(), "token.json")] *)
  TOKEN_PATH : string;
  (** [process.env.OP_VAULT], [process.env.OP_ITEM_NAME] *)
  env_OP_VAULT : option string;
  env_OP_ITEM_NAME : option string;
  (** [new Date(s).toLocaleDateString()] *)
  toLocaleDateString : string -> string
}.

(** ** Settled and pending promises *)

Inductive Outcome (A : Type) : Type :=
| Resolved (a : A)
| Rejected (message : string)
| Pending.
Arguments Resolved {A} a.
Arguments Rejected {A} message.
Arguments Pending {A}.

(** ** [node:path], POSIX flavour *)

Module NodePath.

Definition slash : ascii := "/"%char.
Definition dot : ascii := "."%char.

Definition slice (s : string) (from to : Z) : string :=
  if to <=? from then ""
  else String.substring (Z.to_nat from) (Z.to_nat (to - from)) s.

(** The characters of [s] with their indices, last one first: the order in
    which the library's loops visit them. *)
Definition backwards (s : string) : list (Z * ascii) :=
  rev (imap (fun i c => (Z.of_nat i, c)) (list_ascii_of_string s)).

Record ext_state := {
  startDot : Z;
  startPart : Z;
  ext_end : Z;
  ext_matchedSlash : bool;
  preDotState : Z;
  ext_break : bool
}.

Definition ext_init : ext_state :=
  {| startDot := -1; startPart := 0; ext_end := -1;
     ext_matchedSlash := true; preDotState := 0; ext_break := false |}.

(** One iteration of the loop of [extname]. *)
Definition ext_step (st : ext_state) (ic : Z * ascii) : ext_state :=
  let '(i, code) := ic in
  if ext_break st then st
  else if Ascii.eqb code slash then
    if negb (ext_matchedSlash st) then
      {| startDot := startDot st; startPart := i + 1; ext_end := ext_end st;
         ext_matchedSlash := ext_matchedSlash st;
         preDotState := preDotState st; ext_break := true |}
    else st
  else
    let st1 :=
      if ext_end st =? -1 then
        {| startDot := startDot st; startPart := startPart st;
           ext_end := i + 1; ext_matchedSlash := false;
           preDotState := preDotState st; ext_break := false |}
      else st in
    if Ascii.eqb code dot then
      if startDot st1 =? -1 then
        {| startDot := i; startPart := startPart st1; ext_end := ext_end st1;
           ext_matchedSlash := ext_matchedSlash st1;
           preDotState := preDotState st1; ext_break := false |}
      else if negb (preDotState st1 =? 1) then
        {| startDot := startDot st1; startPart := startPart st1;
           ext_end := ext_end st1;
           ext_matchedSlash := ext_matchedSlash st1;
           preDotState := 1; ext_break := false |}
      else st1
    else if negb (startDot st1 =? -1) then
      {| startDot := startDot st1; startPart := startPart st1;
         ext_end := ext_end st1; ext_matchedSlash := ext_matchedSlash st1;
         preDotState := -1; ext_break := false |}
    else st1.

(** [path.extname] *)
Definition extname (path : string) : string :=
  let st := fold_left ext_step (backwards path) ext_init in
  if (startDot st =? -1) || (ext_end st =? -1) || (preDotState st =? 0)
     || ((preDotState st =? 1) && (startDot st =? ext_end st - 1)
         && (startDot st =? startPart st + 1))
  then ""
  else slice path (startDot st) (ext_end st).

Record base_state := {
  base_start : Z;
  base_end : Z;
  base_matchedSlash : bool;
  base_break : bool
}.

Definition base_step (st : base_state) (ic : Z * ascii) : base_state :=
  let '(i, code) := ic in
  if base_break st then st
  else if Ascii.eqb code slash then
    if negb (base_matchedSlash st) then
      {| base_start := i + 1; base_end := base_end st;
         base_matchedSlash := false; base_break := true |}
    else st
  else if base_end st =? -1 then
    {| base_start := base_start st; base_end := i + 1;
       base_matchedSlash := false; base_break := false |}
  else st.

(** [path.basename], without a suffix argument *)
Definition basename (path : string) : string :=
  let st := fold_left base_step (backwards path)
              {| base_start := 0; base_end := -1;
                 base_matchedSlash := true; base_break := false |} in
  if base_end st =? -1 then "" else slice path (base_start st) (base_end st).

Record dir_state := {
  dir_end : Z;
  dir_matchedSlash : bool;
  dir_break : bool
}.

(** The loop of [dirname] stops before index 0. *)
Definition dir_step (st : dir_state) (ic : Z * ascii) : dir_state :=
  let '(i, code) := ic in
  if dir_break st || (i <? 1) then st
  else if Ascii.eqb code slash then
    if negb (dir_matchedSlash st) then
      {| dir_end := i; dir_matchedSlash := false; dir_break := true |}
    else st
  else {| dir_end := dir_end st; dir_matchedSlash := false;
          dir_break := false |}.

(** [path.dirname] *)
Definition dirname (path : string) : string :=
  match path with
  | EmptyString => "."
  | String c _ =>
      let hasRoot := Ascii.eqb c slash in
      let st := fold_left dir_step (backwards path)
                  {| dir_end := -1; dir_matchedSlash := true;
                     dir_break := false |} in
      if dir_end st =? -1 then (if hasRoot then "/" else ".")
      else if hasRoot && (dir_end st =? 1) then "//"
      else slice path 0 (dir_end st)
  end.

End NodePath.

(** ** Lower case, as far as it is known without the Unicode tables

    Strings hold the UTF-8 bytes of the text.  On text that is all ASCII
    [toLowerCase] puts the letters A to Z in lower case and leaves the
    rest; what it does to other text is the platform's to say. *)

Definition lower_ascii (c : ascii) : ascii :=
  let n := N_of_ascii c in
  if ((65 <=? n) && (n <=? 90))%N then ascii_of_N (n + 32) else c.

Fixpoint lower_ascii_text (s : string) : string :=
  match s with
  | EmptyString => EmptyString
  | String c r => String (lower_ascii c) (lower_ascii_text r)
  end.

Fixpoint ascii_only (s : string) : bool :=
  match s with
  | EmptyString => true
  | String c r => (N_of_ascii c <? 128)%N && ascii_only r
  end.

(** The platform's [toLowerCase] does to ASCII text what the language
    says it does. *)
Definition lowers_ascii `{Platform} : Prop :=
  forall s, ascii_only s = true -> toLowerCase s = lower_ascii_text s.

(** ** The token record and the OAuth client *)

(** A field declared [name?: T | null]. *)
Inductive field (A : Type) : Type :=
| Missing
| IsNull
| Has (a : A).
Arguments Missing {A}.
Arguments IsNull {A}.
Arguments Has {A} a.

Definition field_truthy {A : Type} (nonzero : A -> bool) (f : field A) : bool :=
  match f with
  | Has a => nonzero a
  | _ => false
  end.

Definition nonempty (s : string) : bool := negb (String.eqb s "").

(** [interface OAuthTokens] *)
Record OAuthTokens := {
  access_token : field string;
  refresh_token : field string;
  scope : field string;
  token_type : field string;
  expiry_date : field Z;
  id_token : field string
}.

Definition field_entry {A : Type} (inj : A -> JS.value) (key : string)
    (f : field A) : list (string * JS.value) :=
  match f with
  | Missing => []
  | IsNull => [(key, JS.Null)]
  | Has a => [(key, inj a)]
  end.

(** The object behind a token record: the properties that are present. *)
Definition tokens_value (t : OAuthTokens) : JS.value :=
  JS.Obj (field_entry JS.Str "access_token" (access_token t)
          ++ field_entry JS.Str "refresh_token" (refresh_token t)
          ++ field_entry JS.Str "scope" (scope t)
          ++ field_entry JS.Str "token_type" (token_type t)
          ++ field_entry JS.Num "expiry_date" (expiry_date t)
          ++ field_entry JS.Str "id_token" (id_token t)).

Definition no_tokens : OAuthTokens :=
  {| access_token := Missing; refresh_token := Missing; scope := Missing;
     token_type := Missing; expiry_date := Missing; id_token := Missing |}.

(** [google.auth.OAuth2], as far as the sources look into it. *)
Record OAuthClient := {
  client_id : string;
  client_secret : string;
  redirect_uri : string;
  credentials : OAuthTokens
}.

(** [new google.auth.OAuth2(id, secret, uri)] *)
Definition new_OAuth2 (id secret uri : string) : OAuthClient :=
  {| client_id := id; client_secret := secret; redirect_uri := uri;
     credentials := no_tokens |}.

(** [client.setCredentials(tokens)] *)
Definition setCredentials (c : OAuthClient) (t : OAuthTokens) : OAuthClient :=
  {| client_id := client_id c; client_secret := client_secret c;
     redirect_uri := redirect_uri c; credentials := t |}.

(** ** HTTPS requests *)

Module Https.

Record Request := {
  method : string;
  hostname : string;
  (** [url.pathname]; the query string [url.search] is kept as the list
      of parameters it was built from *)
  pathname : string;
  search : list (string * string);
  headers : list (string * string);
  (** what [req.write] sent *)
  body : option string
}.

(** What comes back: an ['error'] event on the request, or a response
    with its status code and the chunks of its body. *)
Inductive Reply :=
| Failed (message : string)
| Response (statusCode : option Z) (chunks : list string).

(** The remote side: its reply to a request, given the requests that
    preceded it. *)
Definition Network := list Request -> Request -> Reply.

(** [responseData += chunk] over all ['data'] events *)
Definition responseData (chunks : list string) : string :=
  fold_left (fun acc chunk => acc +:+ chunk) chunks "".

(** [res.statusCode && res.statusCode >= 200 && res.statusCode < 300] *)
Definition ok (statusCode : option Z) : bool :=
  match statusCode with
  | Some n => negb (n =? 0) && (200 <=? n) && (n <? 300)
  | None => false
  end.

(** [${res.statusCode}] *)
Definition status_text (statusCode : option Z) : string :=
  match statusCode with
  | Some n => pretty n
  | None => "undefined"
  end.

End Https.

(** ** Asynchronous code

    A computation takes the state of what it acts on (the log of the
    requests sent so far, or the file system) and returns how its promise
    settles together with the new state. *)

Definition Async (S A : Type) : Type := S -> Outcome A * S.

Definition ret {S A : Type} (a : A) : Async S A := fun s => (Resolved a, s).

Definition throw {S A : Type} (message : string) : Async S A :=
  fun s => (Rejected message, s).

(** A promise settling the way [o] says, without touching the state. *)
Definition settle {S A : Type} (o : Outcome A) : Async S A := fun s => (o, s).

Definition bind {S A B : Type} (m : Async S A) (k : A -> Async S B)
    : Async S B :=
  fun s =>
    match m s with
    | (Resolved a, s') => k a s'
    | (Rejected e, s') => (Rejected e, s')
    | (Pending, s') => (Pending, s')
    end.

(** [try { m } catch (error) { throw new Error(wrap(error.message)) }] *)
Definition rethrow {S A : Type} (wrap : string -> string) (m : Async S A)
    : Async S A :=
  fun s =>
    match m s with
    | (Rejected e, s') => (Rejected (wrap e), s')
    | r => r
    end.

(** [try { m } catch (err) { return fallback }] *)
Definition recover {S A : Type} (fallback : A) (m : Async S A) : Async S A :=
  fun s =>
    match m s with
    | (Rejected _, s') => (Resolved fallback, s')
    | r => r
    end.

(** A synchronous step that may throw. *)
Definition lift {S A : Type} (r : A + string) : Async S A :=
  match r with
  | inl a => ret a
  | inr e => throw e
  end.

Notation "x <- m ;; k" := (bind m (fun x => k))
  (at level 100, m at next level, right associativity).

(** Code that talks to the network: the state is the log of the requests
    sent, which is what makes "one request, never repeated" a statement
    about the code. *)
Abbreviation M := (Async (list Https.Request)).

(** [https.request(options, ...)] followed by [req.end()]: the request goes
    out once and the reply is whatever the network gives. *)
Definition send (net : Https.Network) (req : Https.Request) : M Https.Reply :=
  fun log => (Resolved (net log req), log ++ [req]).

(** A template literal or a URL parameter converting [v] to a string. *)
Definition stringify (v : JS.value) : string + string :=
  match JS.to_string v with
  | Some s => inl s
  | None => inr JS.cannot_convert
  end.

(** [`Failed to parse response: ${errorMessage}`], the message of the
    [catch] inside the ['end'] handlers. *)
Definition parse_failure (e : string) : string :=
  "Failed to parse response: " +:+ e.

(** [parsed.error?.message || responseData] inside a template literal: the
    text, or the message of the TypeError thrown on the way. *)
Definition error_detail (parsed : JS.value) (responseData : string)
    : string + string :=
  match JS.get parsed "error" with
  | inr e => inr e
  | inl error =>
      stringify (JS.or_else (JS.get_opt error "message") (JS.Str responseData))
  end.

(** [haystack.includes(needle)] *)
Fixpoint includes (needle haystack : string) : bool :=
  String.prefix needle haystack
  || match haystack with
     | String _ rest => includes needle rest
     | EmptyString => false
     end.

(** [getAccessToken], the private method both Photos classes define. *)
Definition getAccessToken (auth : option OAuthClient) : M string :=
  match auth with
  | None => throw "Not authenticated"
  | Some client =>
      match access_token (credentials client) with
      | Has token =>
          if nonempty token then ret token
          else throw "No access token available"
      | _ => throw "No access token available"
      end
  end.


(** ** [src/photo-view.ts], first part: [GooglePhotosViewer] *)

Module Viewer.

Definition host : string := "photoslibrary.googleapis.com".

(** [interface ListOptions]; the page token is whatever the previous
    response carried. *)
Record ListOptions := {
  pageSize : option Z;
  pageToken : JS.value
}.

(** [interface ListMediaItemsResponse], with the items field optional
    as [listAllMediaItems] treats it; a media item is any value. *)
Record Page := {
  mediaItems : option (list JS.value);
  nextPageToken : option string
}.

(** The object behind a page. *)
Definition page_value (p : Page) : JS.value :=
  JS.Obj (match mediaItems p with
          | Some items => [("mediaItems", JS.Arr items)]
          | None => []
          end
          ++ match nextPageToken p with
             | Some t => [("nextPageToken", JS.Str t)]
             | None => []
             end).

Section WithClient.

Context `{Platform}.
(** The network, what [new URL(s).pathname] makes of a URL, and the
    [auth] field of the viewer. *)
Context (net : Https.Network) (URL_pathname : string -> string)
        (auth : option OAuthClient).

(** The ['end'] handler of [listMediaItems].  The body is parsed before
    the status code is looked at, and everything inside the handler's
    [try] that throws is reported as a parse failure. *)
Definition list_on_end (statusCode : option Z) (responseData : string)
    : Outcome JS.value :=
  match JSON_parse responseData with
  | inr e => Rejected (parse_failure e)
  | inl parsed =>
      if Https.ok statusCode then
        match JS.get parsed "mediaItems" with
        | inr e => Rejected (parse_failure e)
        | inl mediaItems =>
            match stringify (JS.or_else (JS.get_opt mediaItems "length")
                                        (JS.Num 0)) with
            | inr e => Rejected (parse_failure e)
            | inl _ => Resolved parsed
            end
        end
      else
        match error_detail parsed responseData with
        | inr e => Rejected (parse_failure e)
        | inl detail =>
            Rejected ("List request failed: "
                      +:+ Https.status_text statusCode
                      +:+ " - " +:+ detail)
        end
  end.

(** The [requestOptions] of [listMediaItems], built inside its [try]. *)
Definition list_request (options : ListOptions) : M Https.Request :=
  rethrow (fun e => "Failed to list media items: " +:+ e)
    (accessToken <- getAccessToken auth ;;
     token <- (if JS.truthy (pageToken options)
               then t <- lift (stringify (pageToken options)) ;;
                    ret [("pageToken", t)]
               else ret []) ;;
     ret {| Https.method := "GET";
            Https.hostname := host;
            Https.pathname := "/v1/mediaItems";
            Https.search :=
              ("pageSize", pretty (default 25 (pageSize options)))
              :: token;
            Https.headers :=
              [ ("Authorization", "Bearer " +:+ accessToken);
                ("Content-Type", "application/json") ];
            Https.body := None |}).

(** How the promise of [listMediaItems] settles on a reply. *)
Definition list_settle (reply : Https.Reply) : Outcome JS.value :=
  match reply with
  | Https.Failed message => Rejected ("List request failed: " +:+ message)
  | Https.Response statusCode chunks =>
      list_on_end statusCode (Https.responseData chunks)
  end.

(** [listMediaItems] *)
Definition listMediaItems (options : ListOptions) : M JS.value :=
  match auth with
  | None => throw "Not authenticated. Call initialize() first."
  | Some _ =>
      request <- list_request options ;;
      reply <- send net request ;;
      settle (list_settle reply)
  end.

(** The body of the [do ... while] loop of [listAllMediaItems], run at
    most [fuel] times; when the fuel runs out the loop is still asking
    for pages and the promise is pending. *)
Fixpoint listAll_loop (fuel : nat) (size : Z) (allItems : list JS.value)
    (nextPageToken : JS.value) : M (list JS.value) :=
  match fuel with
  | O => settle Pending
  | S fuel' =>
      response <- listMediaItems {| pageSize := Some size;
                                    pageToken := nextPageToken |} ;;
      mediaItems <- lift (JS.get response "mediaItems") ;;
      allItems' <- (if JS.truthy mediaItems
                    then items <- lift (JS.spread mediaItems) ;;
                         ret (allItems ++ items)
                    else ret allItems) ;;
      nextPageToken' <- lift (JS.get response "nextPageToken") ;;
      if JS.truthy nextPageToken'
      then listAll_loop fuel' size allItems' nextPageToken'
      else ret allItems'
  end.

(** [listAllMediaItems(pageSize = 25)] *)
Definition listAllMediaItems (fuel : nat) (size : option Z)
    : M (list JS.value) :=
  listAll_loop fuel (default 25 size) [] JS.Undefined.

(** The ['end'] handler of [getMediaItem]. *)
Definition get_on_end (statusCode : option Z) (responseData : string)
    : Outcome JS.value :=
  match JSON_parse responseData with
  | inr e => Rejected (parse_failure e)
  | inl parsed =>
      if Https.ok statusCode then Resolved parsed
      else
        match error_detail parsed responseData with
        | inr e => Rejected (parse_failure e)
        | inl detail =>
            Rejected ("Get media item failed: "
                      +:+ Https.status_text statusCode
                      +:+ " - " +:+ detail)
        end
  end.

(** The [requestOptions] of [getMediaItem]. *)
Definition get_request (mediaItemId : string) : M Https.Request :=
  rethrow (fun e => "Failed to get media item: " +:+ e)
    (accessToken <- getAccessToken auth ;;
     ret {| Https.method := "GET";
            Https.hostname := host;
            Https.pathname :=
              URL_pathname ("https://" +:+ host +:+ "/v1/mediaItems/"
                            +:+ mediaItemId);
            Https.search := [];
            Https.headers :=
              [ ("Authorization", "Bearer " +:+ accessToken);
                ("Content-Type", "application/json") ];
            Https.body := None |}).

Definition get_settle (reply : Https.Reply) : Outcome JS.value :=
  match reply with
  | Https.Failed message =>
      Rejected ("Get media item request failed: " +:+ message)
  | Https.Response statusCode chunks =>
      get_on_end statusCode (Https.responseData chunks)
  end.

(** [getMediaItem] *)
Definition getMediaItem (mediaItemId : string) : M JS.value :=
  match auth with
  | None => throw "Not authenticated. Call initialize() first."
  | Some _ =>
      request <- get_request mediaItemId ;;
      reply <- send net request ;;
      settle (get_settle reply)
  end.

End WithClient.

End Viewer.

(** ** [src/photo-view.ts], third part: [GooglePhotosUploader] *)

Module Uploader.

(** The table inside [getMimeType].  An extension is empty or starts with
    a dot, so a lookup never reaches a property inherited from
    [Object.prototype]; the table's own keys are all there is. *)
Definition mimeTypes : gmap string string :=
  list_to_map
    [ (".jpg", "image/jpeg"); (".jpeg", "image/jpeg"); (".png", "image/png");
      (".gif", "image/gif"); (".webp", "image/webp"); (".bmp", "image/bmp");
      (".tiff", "image/tiff"); (".tif", "image/tiff");
      (".heic", "image/heic"); (".avif", "image/avif");
      (".mp4", "video/mp4"); (".mov", "video/quicktime");
      (".avi", "video/x-msvideo"); (".mkv", "video/x-matroska");
      (".webm", "video/webm") ].

(** [getMimeType] *)
Definition getMimeType `{Platform} (fileName : string) : string :=
  let ext := toLowerCase (NodePath.extname fileName) in
  match mimeTypes !! ext with
  | Some mime => if nonempty mime then mime else "application/octet-stream"
  | None => "application/octet-stream"
  end.

(** An element of the argument of [batchCreateMediaItems]. *)
Record UploadToken := {
  token : string;
  fileName : string;
  description : option string
}.

(** [item.description || ""] *)
Definition description_or_empty (d : option string) : string :=
  match d with
  | Some text => if nonempty text then text else ""
  | None => ""
  end.

(** One [NewMediaItem] of the request. *)
Definition newMediaItem (item : UploadToken) : JS.value :=
  JS.Obj [ ("description", JS.Str (description_or_empty (description item)));
           ("simpleMediaItem",
            JS.Obj [ ("fileName", JS.Str (fileName item));
                     ("uploadToken", JS.Str (token item)) ]) ].

(** The [BatchCreateRequest]. *)
Definition requestData (uploadTokens : list UploadToken) : JS.value :=
  JS.Obj [ ("newMediaItems", JS.Arr (map newMediaItem uploadTokens)) ].

Section WithClient.

Context `{Platform}.
(** The network, [fs.readFile] (the bytes of a file, or the message of
    the error) and the [auth] field of the uploader. *)
Context (net : Https.Network) (readFile : string -> string + string)
        (auth : option OAuthClient).

(** The [options] of [uploadBytes] and the buffer it writes. *)
Definition upload_request (filePath : string) : M Https.Request :=
  rethrow (fun e => "Failed to upload bytes: " +:+ e)
    (fileBuffer <- lift (readFile filePath) ;;
     let name := NodePath.basename filePath in
     let mimeType := getMimeType name in
     accessToken <- getAccessToken auth ;;
     ret {| Https.method := "POST";
            Https.hostname := Viewer.host;
            Https.pathname := "/v1/uploads";
            Https.search := [];
            Https.headers :=
              [ ("Authorization", "Bearer " +:+ accessToken);
                ("Content-Type", "application/octet-stream");
                ("X-Goog-Upload-Content-Type", mimeType);
                ("X-Goog-Upload-Protocol", "raw");
                ("Content-Length",
                 pretty (Z.of_nat (String.length fileBuffer))) ];
            Https.body := Some fileBuffer |}).

(** How the promise of [uploadBytes] settles on a reply: the body is
    the upload token, as raw text. *)
Definition upload_settle (reply : Https.Reply) : Outcome string :=
  match reply with
  | Https.Failed message => Rejected ("Upload request failed: " +:+ message)
  | Https.Response statusCode chunks =>
      let responseData := Https.responseData chunks in
      if Https.ok statusCode then Resolved responseData
      else Rejected ("Upload failed: " +:+ Https.status_text statusCode
                     +:+ " - " +:+ responseData)
  end.

(** [uploadBytes] *)
Definition uploadBytes (filePath : string) : M string :=
  match auth with
  | None => throw "Not authenticated. Call initialize() first."
  | Some _ =>
      request <- upload_request filePath ;;
      reply <- send net request ;;
      settle (upload_settle reply)
  end.

(** The ['end'] handler of [batchCreateMediaItems]. *)
Definition batch_on_end (statusCode : option Z) (responseData : string)
    : Outcome JS.value :=
  match JSON_parse responseData with
  | inr e => Rejected (parse_failure e)
  | inl parsed =>
      if Https.ok statusCode then Resolved parsed
      else
        match error_detail parsed responseData with
        | inr e => Rejected (parse_failure e)
        | inl detail =>
            Rejected ("BatchCreate failed: "
                      +:+ Https.status_text statusCode
                      +:+ " - " +:+ detail)
        end
  end.

(** The [options] of [batchCreateMediaItems] and the JSON it writes. *)
Definition create_request (uploadTokens : list UploadToken)
    : M Https.Request :=
  rethrow (fun e => "Failed to create media items: " +:+ e)
    (accessToken <- getAccessToken auth ;;
     let jsonData := JSON_stringify (requestData uploadTokens) in
     ret {| Https.method := "POST";
            Https.hostname := Viewer.host;
            Https.pathname := "/v1/mediaItems:batchCreate";
            Https.search := [];
            Https.headers :=
              [ ("Authorization", "Bearer " +:+ accessToken);
                ("Content-Type", "application/json");
                ("Content-Length",
                 pretty (Z.of_nat (String.length jsonData))) ];
            Https.body := Some jsonData |}).

Definition batch_settle (reply : Https.Reply) : Outcome JS.value :=
  match reply with
  | Https.Failed message =>
      Rejected ("BatchCreate request failed: " +:+ message)
  | Https.Response statusCode chunks =>
      batch_on_end statusCode (Https.responseData chunks)
  end.

(** [batchCreateMediaItems] *)
Definition batchCreateMediaItems (uploadTokens : list UploadToken)
    : M JS.value :=
  match auth with
  | None => throw "Not authenticated. Call initialize() first."
  | Some _ =>
      request <- create_request uploadTokens ;;
      reply <- send net request ;;
      settle (batch_settle reply)
  end.

(** What [uploadFile] does with the response of [batchCreate]. *)
Definition pick_result (response : JS.value) : M JS.value :=
  results <- lift (JS.get response "newMediaItemResults") ;;
  empty <- (if JS.truthy results
            then len <- lift (JS.get results "length") ;;
                 ret (match len with
                      | JS.Num 0 => true
                      | _ => false
                      end)
            else ret true) ;;
  if (empty : bool) then throw "No results returned from batchCreate"
  else
    let result := JS.first results in
    if negb (JS.truthy result)
    then throw "Invalid result returned from batchCreate"
    else
      mediaItem <- lift (JS.get result "mediaItem") ;;
      if JS.truthy mediaItem then
        id <- lift (JS.get mediaItem "id") ;;
        _ <- lift (stringify id) ;;
        productUrl <- lift (JS.get mediaItem "productUrl") ;;
        _ <- lift (stringify productUrl) ;;
        ret mediaItem
      else
        status <- lift (JS.get result "status") ;;
        message <- lift (JS.get status "message") ;;
        detail <- lift (stringify (JS.or_else message
                                              (JS.Str "Unknown error"))) ;;
        throw ("Failed to create media item: " +:+ detail).

(** [uploadFile] *)
Definition uploadFile (filePath : string) (descr : option string)
    : M JS.value :=
  rethrow (fun e => "Failed to upload file: " +:+ e)
    (uploadToken <- uploadBytes filePath ;;
     response <- batchCreateMediaItems
                   [ {| token := uploadToken;
                        fileName := "the cat to be uploaded";
                        description := descr |} ] ;;
     pick_result response).

End WithClient.

End Uploader.

(** ** The file system, as far as the token file needs it *)

Module Fs.

(** The directories that exist and the text of the files that exist. *)
Record FS := {
  dirs : gset string;
  files : gmap string string
}.

(** [fs.mkdir(dir, { recursive: true })]: no error when the directory is
    there already, an error when a file is in the way. *)
Definition mkdir (dir : string) : Async FS unit :=
  fun fs =>
    match files fs !! dir with
    | Some _ =>
        (Rejected ("EEXIST: file already exists, mkdir '" +:+ dir +:+ "'"),
         fs)
    | None =>
        (Resolved tt, {| dirs := {[dir]} ∪ dirs fs; files := files fs |})
    end.

(** [fs.writeFile(path, data)]: the file is created or truncated and
    [data] becomes its whole content. *)
Definition writeFile (path data : string) : Async FS unit :=
  fun fs =>
    if decide (path ∈ dirs fs) then
      (Rejected ("EISDIR: illegal operation on a directory, open '"
                 +:+ path +:+ "'"), fs)
    else if decide (NodePath.dirname path ∈ dirs fs) then
      (Resolved tt, {| dirs := dirs fs; files := <[path := data]> (files fs) |})
    else
      (Rejected ("ENOENT: no such file or directory, open '"
                 +:+ path +:+ "'"), fs).

(** [fs.readFile(path)] followed by [toString()]. *)
Definition readFile (path : string) : Async FS string :=
  fun fs =>
    match files fs !! path with
    | Some text => (Resolved text, fs)
    | None =>
        if decide (path ∈ dirs fs) then
          (Rejected "EISDIR: illegal operation on a directory, read", fs)
        else
          (Rejected ("ENOENT: no such file or directory, open '"
                     +:+ path +:+ "'"), fs)
    end.

End Fs.

(** ** [src/onepassword.ts], first part: credentials and the token file *)

Module OnePassword.

(** [execSync(command)]: the standard output of the command, or the
    message of the error thrown when it cannot be run or exits with a
    failure. *)
Definition Shell := string -> string + string.

(** [interface Credentials] *)
Record Credentials := {
  cred_client_id : string;
  cred_client_secret : string;
  redirect_uris : list string
}.

Definition is_space (c : ascii) : bool :=
  let n := N_of_ascii c in
  (((9 <=? n) && (n <=? 13)) || (n =? 32))%N.

Fixpoint trimStart (s : string) : string :=
  match s with
  | String c r => if is_space c then trimStart r else s
  | EmptyString => EmptyString
  end.

Definition reverse (s : string) : string :=
  string_of_list_ascii (rev (list_ascii_of_string s)).

(** [String.prototype.trim], on ASCII white space *)
Definition trim (s : string) : string :=
  reverse (trimStart (reverse (trimStart s))).

Section WithPlatform.

Context `{Platform}.

(** [process.env.OP_VAULT || "Private"] *)
Definition OP_VAULT : string :=
  match env_OP_VAULT with
  | Some v => if nonempty v then v else "Private"
  | None => "Private"
  end.

(** [process.env.OP_ITEM_NAME || "Google Tasks API"] *)
Definition OP_ITEM_NAME : string :=
  match env_OP_ITEM_NAME with
  | Some v => if nonempty v then v else "Google Tasks API"
  | None => "Google Tasks API"
  end.

(** The text [s] between double quotes (character 34). *)
Definition quoted (s : string) : string :=
  String (ascii_of_N 34) s +:+ String (ascii_of_N 34) "".

Definition version_command : string := "op --version".
Definition list_command : string :=
  "op item list --categories 'API Credential'".
Definition client_id_command : string :=
  "op item get " +:+ quoted OP_ITEM_NAME +:+ " --vault " +:+ quoted OP_VAULT
  +:+ " --field " +:+ quoted "client_id".
Definition client_secret_command : string :=
  "op item get " +:+ quoted OP_ITEM_NAME +:+ " --vault " +:+ quoted OP_VAULT
  +:+ " --field " +:+ quoted "client_secret" +:+ " --reveal".

Context (execSync : Shell).

(** [check1PasswordCLI] *)
Definition check1PasswordCLI : bool :=
  match execSync version_command with
  | inr _ => false
  | inl _ =>
      match execSync list_command with
      | inr _ => false
      | inl _ => true
      end
  end.

(** [getCredentialsFrom1Password]; [None] is the [null] it returns from
    its [catch]. *)
Definition getCredentialsFrom1Password (redirectUri : string)
    : option Credentials :=
  match execSync client_id_command with
  | inr _ => None
  | inl clientId =>
      match execSync client_secret_command with
      | inr _ => None
      | inl clientSecret =>
          Some {| cred_client_id := trim clientId;
                  cred_client_secret := trim clientSecret;
                  redirect_uris := [redirectUri] |}
      end
  end.

(** [ensureTokenDirectory] *)
Definition ensureTokenDirectory : Async Fs.FS unit :=
  Fs.mkdir (NodePath.dirname TOKEN_PATH).

(** [saveToken] *)
Definition saveToken (tokens : OAuthTokens) : Async Fs.FS unit :=
  Fs.writeFile TOKEN_PATH (JSON_stringify (tokens_value tokens)).

(** [loadToken]: whatever [JSON.parse] makes of the file, [null] when
    reading or parsing throws. *)
Definition loadToken : Async Fs.FS JS.value :=
  recover JS.Null
    (token <- Fs.readFile TOKEN_PATH ;;
     lift (JSON_parse token)).

End WithPlatform.

End OnePassword.

(** ** [src/photo-view.ts], second part ([./auth.ts]): the redirect
    listener and [authorize]

    [server.ts] holds an earlier copy of the same listener, which writes
    the token file with [fs.writeFile(TOKEN_PATH, JSON.stringify(tokens))]
    in place of the call to [saveToken]. *)

Module Auth.

Definition REDIRECT_PORT : Z := 3000.
Definition REDIRECT_URI : string := "http://localhost:" +:+ pretty REDIRECT_PORT.

(** A member of [req.query]: absent, a string, or an array or nested
    object, of which only the string conversion matters. *)
Inductive QueryValue :=
| QAbsent
| QString (s : string)
| QOther (rendered : string).

Definition q_truthy (q : QueryValue) : bool :=
  match q with
  | QAbsent => false
  | QString s => nonempty s
  | QOther _ => true
  end.

Definition q_text (q : QueryValue) : string :=
  match q with
  | QAbsent => "undefined"
  | QString s => s
  | QOther rendered => rendered
  end.

(** [!code || typeof code !== "string"] is false *)
Definition usable_code (code : QueryValue) : bool :=
  match code with
  | QString s => nonempty s
  | _ => false
  end.

(** What happens to the listener, one turn of the event loop at a time.
    - [Connected]: a client opens a connection, which a listening
      server accepts.
    - [Callback]: a [GET /] request arrives on a connection that is
      open, with the two query parameters the handler reads; the
      handler runs up to its [await oAuth2Client.getToken(code)].
    - [Hangup]: a connection that was open is closed, by the client or
      by the server when it is idle.
    - [Exchanged]: the provider answers one of the exchanges under way,
      with the tokens or with the message of an error, and that handler
      runs to its end.
    - [TimerFired]: a timeout set by a handler elapses.
    - [ListenError]: the server emits ['error'], as when the port is
      taken. *)
Inductive Event :=
| Connected
| Callback (code error : QueryValue)
| Hangup
| Exchanged (answer : OAuthTokens + string)
| TimerFired
| ListenError (message : string).

(** A call of one of the two functions of the promise executor. *)
Inductive Settle :=
| Resolve
| Reject (message : string).

(** The pages the handler sends. *)
Inductive Page :=
| AuthorizationError (error : string)
| MissingAuthorizationCode
| AuthorizationSuccessful
| TokenExchangeError (message : string).

Record State := {
  (** the server accepts new connections *)
  listening : bool;
  (** the connections that are open; [server.close()] leaves them
      open, and requests still arrive on them *)
  connections : nat;
  (** the calls of [resolve] and [reject] so far, in order *)
  settles : list Settle;
  (** the handlers waiting for the provider's answer *)
  exchanging : nat;
  (** the timeouts set and not yet fired *)
  timers : nat;
  (** the client object, which the handlers mutate and the promise
      resolves with *)
  client : OAuthClient;
  (** status and page of the responses sent *)
  sent : list (Z * Page);
  disk : Fs.FS
}.

(** A promise is settled by the first call and ignores the others; one
    that was resolved gives the client object as it is now. *)
Definition promise (st : State) : Outcome OAuthClient :=
  match settles st with
  | [] => Pending
  | Resolve :: _ => Resolved (client st)
  | Reject message :: _ => Rejected message
  end.

(** [server?.close()] followed by [resolve(...)] or [reject(...)] *)
Definition close_and (call : Settle) (st : State) : State :=
  {| listening := false; connections := connections st;
     settles := settles st ++ [call];
     exchanging := exchanging st; timers := timers st;
     client := client st; sent := sent st; disk := disk st |}.

(** [res.status(status).send(page)] *)
Definition respond (status : Z) (page : Page) (st : State) : State :=
  {| listening := listening st; connections := connections st;
     settles := settles st;
     exchanging := exchanging st; timers := timers st;
     client := client st; sent := sent st ++ [(status, page)];
     disk := disk st |}.

(** Between [st] and [st'] the server was closed and [reject] was
    called once, with [message], and nothing else was settled. *)
Definition rejects_and_closes (st st' : State) (message : string) : Prop :=
  settles st' = settles st ++ [Reject message]
  /\ listening st' = false
  /\ timers st' = timers st.

(** The first call that settled the promise, if any. *)
Definition settled_by (st : State) : option Settle := head (settles st).

Section WithPlatform.

Context `{Platform}.

(** The state right after [app.listen]. *)
Definition started (oAuth2Client : OAuthClient) (fs : Fs.FS) : State :=
  {| listening := true; connections := 0; settles := [];
     exchanging := 0; timers := 0;
     client := oAuth2Client; sent := []; disk := fs |}.

(** The handler of [GET /], up to its first [await]. *)
Definition handle (code error : QueryValue) (st : State) : State :=
  if q_truthy error then
    close_and (Reject ("OAuth error: " +:+ q_text error))
      (respond 400 (AuthorizationError (q_text error)) st)
  else if negb (usable_code code) then
    close_and (Reject "No authorization code received")
      (respond 400 MissingAuthorizationCode st)
  else
    {| listening := listening st; connections := connections st;
       settles := settles st;
       exchanging := S (exchanging st); timers := timers st;
       client := client st; sent := sent st; disk := disk st |}.

(** The rest of the handler, inside its [try], once the provider has
    answered: the credentials are set and the tokens are written, the
    success page is sent and the timeout is set; an error from the
    provider or from the write leads into the [catch].  The write is
    awaited as well; it is taken here as part of the same turn. *)
Definition complete (answer : OAuthTokens + string) (st : State) : State :=
  match answer with
  | inr message =>
      close_and (Reject message)
        (respond 500 (TokenExchangeError message) st)
  | inl tokens =>
      let credentialed := setCredentials (client st) tokens in
      match OnePassword.saveToken tokens (disk st) with
      | (Resolved _, fs') =>
          {| listening := listening st; connections := connections st;
             settles := settles st;
             exchanging := exchanging st; timers := S (timers st);
             client := credentialed;
             sent := sent st ++ [(200, AuthorizationSuccessful)];
             disk := fs' |}
      | (Rejected message, fs') =>
          close_and (Reject message)
            (respond 500 (TokenExchangeError message)
               {| listening := listening st; connections := connections st;
                  settles := settles st;
                  exchanging := exchanging st; timers := timers st;
                  client := credentialed; sent := sent st;
                  disk := fs' |})
      | (Pending, fs') =>
          {| listening := listening st; connections := connections st;
             settles := settles st;
             exchanging := exchanging st; timers := timers st;
             client := credentialed; sent := sent st; disk := fs' |}
      end
  end.

(** The state with [n] open connections. *)
Definition connected (n : nat) (st : State) : State :=
  {| listening := listening st; connections := n;
     settles := settles st;
     exchanging := exchanging st; timers := timers st;
     client := client st; sent := sent st; disk := disk st |}.

(** One event.  A closed server takes no new connection; a request
    needs an open connection and reaches the handler whether or not
    the server still listens, since [close] leaves the open
    connections alone; a handler that waits for the provider goes on
    when the answer comes; an answer needs a waiting handler and a
    timer firing needs a timer; a failed [listen] leaves nothing
    listening. *)
Definition step (st : State) (ev : Event) : State :=
  match ev with
  | Connected =>
      if listening st then connected (S (connections st)) st else st
  | Callback code error =>
      match connections st with
      | O => st
      | S _ => handle code error st
      end
  | Hangup => connected (Nat.pred (connections st)) st
  | Exchanged answer =>
      match exchanging st with
      | O => st
      | S n =>
          complete answer
            {| listening := listening st; connections := connections st;
               settles := settles st;
               exchanging := n; timers := timers st;
               client := client st; sent := sent st; disk := disk st |}
      end
  | TimerFired =>
      match timers st with
      | O => st
      | S n =>
          close_and Resolve
            {| listening := listening st; connections := connections st;
               settles := settles st;
               exchanging := exchanging st; timers := n;
               client := client st; sent := sent st; disk := disk st |}
      end
  | ListenError message =>
      {| listening := false; connections := connections st;
         settles := settles st ++ [Reject message];
         exchanging := exchanging st; timers := timers st;
         client := client st; sent := sent st; disk := disk st |}
  end.

Definition run (st : State) (events : list Event) : State :=
  fold_left step events st.

(** [startOAuthServer], followed by the events that reach it. *)
Definition startOAuthServer (oAuth2Client : OAuthClient)
    (events : list Event) (fs : Fs.FS) : State :=
  run (started oAuth2Client fs) events.

(** [getNewToken]: awaits the promise of the listener and rethrows its
    error. *)
Definition getNewToken (oAuth2Client : OAuthClient) (events : list Event)
    : Async Fs.FS OAuthClient :=
  fun fs =>
    let final := startOAuthServer oAuth2Client events fs in
    (promise final, disk final).

(** [authorize]; [None] is the [null] it returns. *)
Definition authorize (execSync : OnePassword.Shell) (events : list Event)
    : Async Fs.FS (option OAuthClient) :=
  _ <- OnePassword.ensureTokenDirectory ;;
  if negb (OnePassword.check1PasswordCLI execSync) then ret None
  else
    match OnePassword.getCredentialsFrom1Password execSync REDIRECT_URI with
    | None => ret None
    | Some credentials =>
        let oAuth2Client :=
          new_OAuth2 (OnePassword.cred_client_id credentials)
                     (OnePassword.cred_client_secret credentials)
                     (hd "" (OnePassword.redirect_uris credentials)) in
        granted <- getNewToken oAuth2Client events ;;
        ret (Some granted)
    end.

End WithPlatform.

End Auth.

(** ** [src/onepassword.ts], second part: the task-list command

    [server.ts] ends with the same three functions. *)

Module Tasks.

(** The members of the SDK's [Schema$TaskList] and [Schema$Task] that the
    command reads; each may be missing or [null]. *)
Record TaskList := {
  id : field string;
  title : field string
}.

Record Link := {
  link_type : field string;
  link_description : field string;
  link_link : field string
}.

Record Task := {
  task_status : field string;
  task_title : field string;
  due : field string;
  notes : field string;
  links : option (list Link)
}.

(** What a call of the SDK gives: it throws, or it returns a response
    whose [data.items] may be missing. *)
Inductive Reply (A : Type) :=
| Threw (message : string)
| Data (items : option (list A)).
Arguments Threw {A} message.
Arguments Data {A} items.

(** The calls the command makes. *)
Inductive Call :=
| ListTaskLists
| ListTasks (tasklist : field string).

(** The task service: its answer to [tasklists.list()], and its answer
    to a [tasks.list] call for a given list, after the calls made so
    far. *)
Record Service := {
  tasklists_list : Reply TaskList;
  tasks_list : list Call -> field string -> Reply Task
}.

(** What the command acts on: the calls that went out, what [console.log]
    printed, and the counter [totalTasks] that the display closures
    share. *)
Record World := {
  calls : list Call;
  stdout : list string;
  totalTasks : nat
}.

Definition console_log (line : string) : Async World unit :=
  fun w => (Resolved tt, {| calls := calls w; stdout := stdout w ++ [line];
                            totalTasks := totalTasks w |}).

Definition set_totalTasks (n : nat) : Async World unit :=
  fun w => (Resolved tt, {| calls := calls w; stdout := stdout w;
                            totalTasks := n |}).

Definition get_totalTasks : Async World nat :=
  fun w => (Resolved (totalTasks w), w).

Definition called (c : Call) (w : World) : World :=
  {| calls := calls w ++ [c]; stdout := stdout w;
     totalTasks := totalTasks w |}.

(** [res.data.items || []] inside [try], [[]] from [catch]. *)
Definition items_or_empty {A : Type} (r : Reply A) : list A :=
  match r with
  | Data (Some items) => items
  | Data None => []
  | Threw _ => []
  end.

(** [getTaskLists] *)
Definition getTaskLists (service : Service) : Async World (list TaskList) :=
  fun w => (Resolved (items_or_empty (tasklists_list service)),
            called ListTaskLists w).

(** [getTasks] *)
Definition getTasks (service : Service) (taskListId : field string)
    : Async World (list Task) :=
  fun w => (Resolved (items_or_empty (tasks_list service (calls w) taskListId)),
            called (ListTasks taskListId) w).

(** [Promise.all]: every computation is started, in order; the results
    keep the positions of the computations; one rejection rejects the
    whole. *)
Fixpoint all {W A : Type} (ms : list (Async W A)) : Async W (list A) :=
  match ms with
  | [] => ret []
  | m :: rest =>
      fun s =>
        let '(o, s') := m s in
        let '(os, s'') := all rest s' in
        (match o, os with
         | Resolved a, Resolved l => Resolved (a :: l)
         | Rejected e, _ => Rejected e
         | _, Rejected e => Rejected e
         | _, _ => Pending
         end, s'')
  end.

(** [array.forEach((x, index) => ...)], from index [i] on. *)
Fixpoint forEach {W A : Type} (f : A -> nat -> Async W unit) (i : nat)
    (l : list A) : Async W unit :=
  match l with
  | [] => ret tt
  | x :: rest => _ <- f x i ;; forEach f (S i) rest
  end.

(** [${f}] *)
Definition text (f : field string) : string :=
  match f with
  | Missing => "undefined"
  | IsNull => "null"
  | Has s => s
  end.

Definition newline : string := String (ascii_of_N 10) "".

Fixpoint repeat_string (s : string) (n : nat) : string :=
  match n with
  | O => ""
  | S n' => s +:+ repeat_string s n'
  end.

Section WithPlatform.

Context `{Platform}.

Definition link_line (link : Link) : string :=
  "   " +:+ text (link_type link) +:+ ": [" +:+ text (link_description link)
  +:+ "](" +:+ text (link_link link) +:+ ")".

(** The first line printed for a task. *)
Definition task_line (task : Task) (taskIndex : nat) : string :=
  let status :=
    match task_status task with
    | Has s => if String.eqb s "completed" then "✅" else "⭕"
    | _ => "⭕"
    end in
  let dueDate :=
    match due task with
    | Has d => if nonempty d
               then " (Due: " +:+ toLocaleDateString d +:+ ")" else ""
    | _ => ""
    end in
  let note :=
    match notes task with
    | Has n => if nonempty n then newline +:+ "   📝 " +:+ n else ""
    | _ => ""
    end in
  pretty (Z.of_nat taskIndex + 1) +:+ ". " +:+ status +:+ " "
  +:+ text (task_title task) +:+ dueDate +:+ note.

(** The callback of the inner [forEach]. *)
Definition show_task (task : Task) (taskIndex : nat) : Async World unit :=
  _ <- console_log (task_line task taskIndex) ;;
  _ <- match links task with
       | Some ls =>
           _ <- console_log " 🔗 Links:" ;;
           forEach (fun link (_ : nat) => console_log (link_line link)) O ls
       | None => ret tt
       end ;;
  n <- get_totalTasks ;;
  set_totalTasks (S n).

(** The callback of the outer [forEach]: [allTasks[index]] is read,
    an empty result prints nothing. *)
Definition show_list (allTasks : list (list Task)) (taskList : TaskList)
    (index : nat) : Async World unit :=
  match allTasks !! index with
  | None => throw "Cannot read properties of undefined (reading 'length')"
  | Some [] => ret tt
  | Some tasks =>
      _ <- console_log ("📋 " +:+ text (title taskList) +:+ " ("
                        +:+ pretty (Z.of_nat (length tasks)) +:+ " tasks)") ;;
      _ <- console_log (repeat_string "─" 40) ;;
      _ <- forEach show_task O tasks ;;
      console_log ""
  end.

(** [main], given how [authorize] settled. *)
Definition main (authorized : Outcome (option OAuthClient))
    (service : Service) : Async World unit :=
  _ <- console_log ("🔄 Fetching your Google Tasks..." +:+ newline) ;;
  auth <- settle authorized ;;
  match auth with
  | None => ret tt
  | Some _ =>
      _ <- console_log "✅ Authorization successful!" ;;
      taskLists <- getTaskLists service ;;
      match taskLists with
      | [] => console_log "No task lists found."
      | _ =>
          _ <- console_log ("📚 Found "
                            +:+ pretty (Z.of_nat (length taskLists))
                            +:+ " task list(s)") ;;
          allTasks <- all (map (fun taskList =>
                                  getTasks service (id taskList))
                               taskLists) ;;
          _ <- console_log (newline +:+ "=== YOUR CURRENT TASKS ==="
                            +:+ newline) ;;
          _ <- set_totalTasks O ;;
          _ <- forEach (show_list allTasks) O taskLists ;;
          total <- get_totalTasks ;;
          match total with
          | O => console_log
                   "🎉 No pending tasks found! You're all caught up!"
          | _ => console_log ("📊 Total pending tasks: "
                              +:+ pretty (Z.of_nat total))
          end
      end
  end.

End WithPlatform.

End Tasks.

(** ** A reference platform

    An instance of [Platform] to run the model on: a JSON codec for the
    values of [JS.value] (integers only, byte strings), a lower-casing
    that knows ASCII and the Kelvin sign, a token path under the usual
    XDG data directory, no environment overrides.  The theorems
    below hold for every platform; this one supplies concrete runs. *)

Module Reference.

Definition quote : ascii := ascii_of_N 34.
Definition backslash : ascii := ascii_of_N 92.

Definition hex_digit (n : N) : ascii :=
  if (n <? 10)%N then ascii_of_N (48 + n) else ascii_of_N (87 + n).

Definition escape_char (c : ascii) : string :=
  let n := N_of_ascii c in
  if (n =? 34)%N then String backslash (String quote "")
  else if (n =? 92)%N then String backslash (String backslash "")
  else if (n =? 8)%N then String backslash "b"
  else if (n =? 12)%N then String backslash "f"
  else if (n =? 10)%N then String backslash "n"
  else if (n =? 13)%N then String backslash "r"
  else if (n =? 9)%N then String backslash "t"
  else if (n <? 32)%N then
    String backslash
      (String "u" (String "0" (String "0"
         (String (hex_digit (n / 16)) (String (hex_digit (n mod 16)) "")))))
  else String c "".

Fixpoint escape (s : string) : string :=
  match s with
  | EmptyString => EmptyString
  | String c r => escape_char c +:+ escape r
  end.

Definition quoted (s : string) : string :=
  String quote (escape s) +:+ String quote "".

(** [JSON.stringify]: properties holding [undefined] are left out, and
    [undefined] inside an array is written [null]. *)
Fixpoint stringify (v : JS.value) : string :=
  match v with
  | JS.Undefined => "undefined"
  | JS.Null => "null"
  | JS.Bool true => "true"
  | JS.Bool false => "false"
  | JS.Num n => pretty n
  | JS.Str s => quoted s
  | JS.Arr items =>
      "[" +:+ JS.join ","
                ((fix elems (l : list JS.value) : list string :=
                    match l with
                    | [] => []
                    | JS.Undefined :: r => "null" :: elems r
                    | x :: r => stringify x :: elems r
                    end) items) +:+ "]"
  | JS.Obj fields =>
      "{" +:+ JS.join ","
                ((fix members (l : list (string * JS.value)) : list string :=
                    match l with
                    | [] => []
                    | (_, JS.Undefined) :: r => members r
                    | (k, x) :: r =>
                        (quoted k +:+ ":" +:+ stringify x) :: members r
                    end) fields) +:+ "}"
  end.

Definition is_ws (c : ascii) : bool :=
  let n := N_of_ascii c in
  ((n =? 32) || (n =? 9) || (n =? 10) || (n =? 13))%N.

Fixpoint skip_ws (l : list ascii) : list ascii :=
  match l with
  | c :: r => if is_ws c then skip_ws r else l
  | [] => []
  end.

Definition hex_value (c : ascii) : option N :=
  let n := N_of_ascii c in
  if ((48 <=? n) && (n <=? 57))%N then Some (n - 48)%N
  else if ((97 <=? n) && (n <=? 102))%N then Some (n - 87)%N
  else if ((65 <=? n) && (n <=? 70))%N then Some (n - 55)%N
  else None.

(** The rest of a string literal after its opening quote; escapes above
    [ÿ] have no byte to stand for them and are refused. *)
Fixpoint string_body (l : list ascii) (acc : list ascii)
    : option (string * list ascii) :=
  match l with
  | [] => None
  | c :: r =>
      if Ascii.eqb c quote then Some (string_of_list_ascii (rev acc), r)
      else if Ascii.eqb c backslash then
        match r with
        | e :: r' =>
            let n := N_of_ascii e in
            if (n =? 34)%N then string_body r' (quote :: acc)
            else if (n =? 92)%N then string_body r' (backslash :: acc)
            else if (n =? 47)%N then string_body r' (e :: acc)
            else if (n =? 98)%N then string_body r' (ascii_of_N 8 :: acc)
            else if (n =? 102)%N then string_body r' (ascii_of_N 12 :: acc)
            else if (n =? 110)%N then string_body r' (ascii_of_N 10 :: acc)
            else if (n =? 114)%N then string_body r' (ascii_of_N 13 :: acc)
            else if (n =? 116)%N then string_body r' (ascii_of_N 9 :: acc)
            else if (n =? 117)%N then
              match r' with
              | h1 :: h2 :: h3 :: h4 :: r'' =>
                  match hex_value h1, hex_value h2, hex_value h3,
                        hex_value h4 with
                  | Some 0%N, Some 0%N, Some a, Some b =>
                      string_body r'' (ascii_of_N (16 * a + b) :: acc)
                  | _, _, _, _ => None
                  end
              | _ => None
              end
            else None
        | [] => None
        end
      else if (N_of_ascii c <? 32)%N then None
      else string_body r (c :: acc)
  end.

Definition is_digit (c : ascii) : bool :=
  let n := N_of_ascii c in ((48 <=? n) && (n <=? 57))%N.

Fixpoint digits (l : list ascii) (acc : Z) : Z * list ascii :=
  match l with
  | c :: r =>
      if is_digit c then digits r (10 * acc + Z.of_N (N_of_ascii c - 48))
      else (acc, l)
  | [] => (acc, [])
  end.

(** An integer literal: no leading zero, no fraction, no exponent. *)
Definition natural (l : list ascii) : option (Z * list ascii) :=
  match l with
  | c :: r =>
      if Ascii.eqb c "0" then
        match r with
        | d :: _ => if is_digit d then None else Some (0, r)
        | [] => Some (0, r)
        end
      else if is_digit c then Some (digits l 0)
      else None
  | [] => None
  end.

Definition after_number (r : list ascii) : bool :=
  match r with
  | c :: _ => negb (Ascii.eqb c "." || Ascii.eqb c "e" || Ascii.eqb c "E")
  | [] => true
  end.

(** A later member with the same key replaces the earlier value. *)
Fixpoint set_field (k : string) (v : JS.value)
    (fields : list (string * JS.value)) : list (string * JS.value) :=
  match fields with
  | [] => [(k, v)]
  | (k', v') :: r =>
      if String.eqb k' k then (k', v) :: r else (k', v') :: set_field k v r
  end.

Fixpoint value (fuel : nat) (l : list ascii)
    : option (JS.value * list ascii) :=
  match fuel with
  | O => None
  | S fuel' =>
      match skip_ws l with
      | "n"%char :: "u"%char :: "l"%char :: "l"%char :: r => Some (JS.Null, r)
      | "t"%char :: "r"%char :: "u"%char :: "e"%char :: r =>
          Some (JS.Bool true, r)
      | "f"%char :: "a"%char :: "l"%char :: "s"%char :: "e"%char :: r =>
          Some (JS.Bool false, r)
      | "["%char :: r =>
          match skip_ws r with
          | "]"%char :: r' => Some (JS.Arr [], r')
          | _ => elements fuel' r []
          end
      | "{"%char :: r =>
          match skip_ws r with
          | "}"%char :: r' => Some (JS.Obj [], r')
          | _ => members fuel' r []
          end
      | "-"%char :: r =>
          match natural r with
          | Some (n, r') =>
              if after_number r' then Some (JS.Num (- n), r') else None
          | None => None
          end
      | c :: r =>
          if Ascii.eqb c quote then
            match string_body r [] with
            | Some (s, r') => Some (JS.Str s, r')
            | None => None
            end
          else
            match natural (c :: r) with
            | Some (n, r') =>
                if after_number r' then Some (JS.Num n, r') else None
            | None => None
            end
      | [] => None
      end
  end
with elements (fuel : nat) (l : list ascii) (acc : list JS.value)
    : option (JS.value * list ascii) :=
  match fuel with
  | O => None
  | S fuel' =>
      match value fuel' l with
      | Some (v, r) =>
          match skip_ws r with
          | ","%char :: r' => elements fuel' r' (acc ++ [v])
          | "]"%char :: r' => Some (JS.Arr (acc ++ [v]), r')
          | _ => None
          end
      | None => None
      end
  end
with members (fuel : nat) (l : list ascii) (acc : list (string * JS.value))
    : option (JS.value * list ascii) :=
  match fuel with
  | O => None
  | S fuel' =>
      match skip_ws l with
      | c :: r =>
          if Ascii.eqb c quote then
            match string_body r [] with
            | Some (k, r1) =>
                match skip_ws r1 with
                | ":"%char :: r2 =>
                    match value fuel' r2 with
                    | Some (v, r3) =>
                        match skip_ws r3 with
                        | ","%char :: r4 => members fuel' r4 (set_field k v acc)
                        | "}"%char :: r4 =>
                            Some (JS.Obj (set_field k v acc), r4)
                        | _ => None
                        end
                    | None => None
                    end
                | _ => None
                end
            | None => None
            end
          else None
      | [] => None
      end
  end.

Definition syntax_error : string := "Unexpected token in JSON".

(** [JSON.parse] *)
Definition parse (s : string) : JS.value + string :=
  let l := list_ascii_of_string s in
  match value (S (length l)) l with
  | Some (v, r) =>
      match skip_ws r with
      | [] => inl v
      | _ => inr syntax_error
      end
  | None => inr syntax_error
  end.

(** A lower-casing for the runs.  It puts the letters A to Z in lower
    case and turns the Kelvin sign (U+212A, the bytes 226 132 170)
    into [k]: that sign is the one character outside ASCII whose lower
    case is an ASCII letter.  Every other character outside ASCII is
    left as it is, which a comparison with ASCII text cannot tell from
    its lower case. *)
Fixpoint lower (s : string) : string :=
  match s with
  | EmptyString => EmptyString
  | String a r =>
      match r with
      | String b (String c r') =>
          if ((N_of_ascii a =? 226) && (N_of_ascii b =? 132)
              && (N_of_ascii c =? 170))%N
          then String "k" (lower r')
          else String (lower_ascii a) (lower r)
      | _ => String (lower_ascii a) (lower r)
      end
  end.

#[local] Instance platform : Platform := {|
  toLowerCase := lower;
  JSON_parse := parse;
  JSON_stringify := stringify;
  TOKEN_PATH := "/home/user/.local/share/google-tasks-cli/token.json";
  env_OP_VAULT := None;
  env_OP_ITEM_NAME := None;
  toLocaleDateString := fun s => s
|}.

End Reference.

(** ** What the specification says, in its own words *)

Module Claimed.

(** The content types the specification lists for [getMimeType]. *)
Definition content_types : list (string * string) :=
  [ (".jpg", "image/jpeg"); (".jpeg", "image/jpeg"); (".png", "image/png");
    (".gif", "image/gif"); (".webp", "image/webp"); (".bmp", "image/bmp");
    (".tiff", "image/tiff"); (".tif", "image/tiff"); (".heic", "image/heic");
    (".avif", "image/avif"); (".mp4", "video/mp4");
    (".mov", "video/quicktime"); (".avi", "video/x-msvideo");
    (".mkv", "video/x-matroska"); (".webm", "video/webm") ].

Definition default_type : string := "application/octet-stream".

(** The type the specification gives an extension: its entry in the
    list, the default for every other extension. *)
Fixpoint lookup (ext : string) (table : list (string * string)) : string :=
  match table with
  | [] => default_type
  | (e, mime) :: rest => if String.eqb e ext then mime else lookup ext rest
  end.

Definition content_type (ext : string) : string := lookup ext content_types.

End Claimed.

(** ** Vocabulary for the pagination loop *)

Module Pagination.

Import Viewer.

(** [if (nextPageToken)] on a page: the token is there and not empty. *)
Definition continues (p : Page) : bool :=
  match nextPageToken p with
  | Some t => nonempty t
  | None => false
  end.

(** The page token the next request is made with. *)
Definition token_of (p : Page) : JS.value :=
  match nextPageToken p with
  | Some t => JS.Str t
  | None => JS.Undefined
  end.

Definition items_of (p : Page) : list JS.value :=
  match mediaItems p with
  | Some items => items
  | None => []
  end.

(** The request [listMediaItems] sends for a page size and a token. *)
Definition request_for (accessToken : string) (size : Z) (token : JS.value)
    : Https.Request :=
  {| Https.method := "GET";
     Https.hostname := host;
     Https.pathname := "/v1/mediaItems";
     Https.search :=
       ("pageSize", pretty size)
       :: match token with
          | JS.Str t => if nonempty t then [("pageToken", t)] else []
          | _ => []
          end;
     Https.headers :=
       [ ("Authorization", "Bearer " +:+ accessToken);
         ("Content-Type", "application/json") ];
     Https.body := None |}.

(** The requests the loop sends while it walks through [pages]: the
    first without a token, each later one with the token of the page
    before it. *)
Fixpoint requests_from (accessToken : string) (size : Z) (token : JS.value)
    (pages : list Page) : list Https.Request :=
  match pages with
  | [] => []
  | p :: rest =>
      request_for accessToken size token
      :: requests_from accessToken size (token_of p) rest
  end.

(** The pages [pages 0 .. pages (n - 1)]. *)
Definition first_pages (pages : nat -> Page) (n : nat) : list Page :=
  map pages (seq 0 n).

(** The client holds a usable access token. *)
Definition signed_in (auth : option OAuthClient) (accessToken : string)
    : Prop :=
  exists client,
    auth = Some client
    /\ access_token (credentials client) = Has accessToken
    /\ nonempty accessToken = true.

(** The page token of the [n]-th request of a loop that starts with the
    token [start]. *)
Definition token_at (start : JS.value) (pages : nat -> Page) (n : nat)
    : JS.value :=
  match n with
  | O => start
  | S m => token_of (pages m)
  end.

(** The server answers the first [bound] requests of the loop with the
    pages [pages]: for [n < bound], after the requests for the pages
    before, the request that carries the token of page [n - 1] gets a
    2xx response whose body parses to page [n].  Nothing is asked of
    its answers to other requests. *)
Definition serves `{Platform} (net : Https.Network)
    (accessToken : string) (size : Z) (log0 : list Https.Request)
    (start : JS.value) (pages : nat -> Page) (bound : nat) : Prop :=
  forall n, (n < bound)%nat ->
  exists statusCode chunks,
    net (log0 ++ requests_from accessToken size start (first_pages pages n))
      (request_for accessToken size (token_at start pages n))
    = Https.Response statusCode chunks
    /\ Https.ok statusCode = true
    /\ JSON_parse (Https.responseData chunks) = inl (page_value (pages n)).

End Pagination.

(** ** Vocabulary for the handling of responses *)

Module Responses.

(** What one call of an operation [op] does with the network: it sends
    at most one request and never a second one; it resolves only on a
    2xx response; a body that does not parse rejects with a parse
    failure whatever the status (where [parses] says the body is
    parsed); and a status outside 2xx rejects, with a message made of
    [failure], the status code and the error detail whenever that
    detail can be had (always, where the body is not parsed). *)
Definition handles `{Platform} {A : Type} (net : Https.Network) (op : M A)
    (failure : string) (parses : bool) : Prop :=
  forall log,
    let outcome := fst (op log) in
    let log' := snd (op log) in
    (log' = log \/ exists request, log' = log ++ [request])
    /\ (forall a, outcome = Resolved a ->
          exists request statusCode chunks,
            log' = log ++ [request]
            /\ net log request = Https.Response statusCode chunks
            /\ Https.ok statusCode = true)
    /\ (forall request statusCode chunks,
          log' = log ++ [request] ->
          net log request = Https.Response statusCode chunks ->
          let responseData := Https.responseData chunks in
          (parses = true ->
           forall e, JSON_parse responseData = inr e ->
                     outcome = Rejected (parse_failure e))
          /\ (Https.ok statusCode = false ->
              (exists message, outcome = Rejected message)
              /\ forall detail,
                   (if parses
                    then exists parsed,
                           JSON_parse responseData = inl parsed
                           /\ error_detail parsed responseData = inl detail
                    else detail = responseData) ->
                   outcome
                   = Rejected (failure +:+ Https.status_text statusCode
                               +:+ " - " +:+ detail)
                   /\ includes (Https.status_text statusCode)
                        (failure +:+ Https.status_text statusCode
                         +:+ " - " +:+ detail) = true)).

End Responses.

(** ** Vocabulary for uploads *)

Module Uploads.

(** A computation that leaves its state alone. *)
Definition pure {W A : Type} (m : Async W A) : Prop :=
  forall w, snd (m w) = w.

(** The item-creation request for one upload token and a description:
    the only request [uploadFile] sends to [mediaItems:batchCreate]. *)
Definition registration `{Platform} (accessToken uploadToken : string)
    (descr : option string) : Https.Request :=
  let jsonData :=
    JSON_stringify
      (JS.Obj
         [ ("newMediaItems",
            JS.Arr
              [ JS.Obj
                  [ ("description",
                     JS.Str (Uploader.description_or_empty descr));
                    ("simpleMediaItem",
                     JS.Obj [ ("fileName", JS.Str "the cat to be uploaded");
                              ("uploadToken", JS.Str uploadToken) ]) ] ]) ])
  in
  {| Https.method := "POST";
     Https.hostname := Viewer.host;
     Https.pathname := "/v1/mediaItems:batchCreate";
     Https.search := [];
     Https.headers :=
       [ ("Authorization", "Bearer " +:+ accessToken);
         ("Content-Type", "application/json");
         ("Content-Length", pretty (Z.of_nat (String.length jsonData))) ];
     Https.body := Some jsonData |}.

End Uploads.

(** ** Vocabulary for the task display *)

Module TaskDisplay.

Import Tasks.

(** The results of the fan-out, read off the service: the result for a
    list is what the service answers to that list's own call, which is
    made after the calls for the lists before it. *)
Fixpoint results (service : Service) (made : list Call)
    (taskLists : list TaskList) : list (list Task) :=
  match taskLists with
  | [] => []
  | taskList :: rest =>
      items_or_empty (tasks_list service made (id taskList))
      :: results service (made ++ [ListTasks (id taskList)]) rest
  end.

(** The world after more calls and more lines, with the counter at
    [counted]. *)
Definition after (w : World) (made : list Call) (lines : list string)
    (counted : nat) : World :=
  {| calls := calls w ++ made; stdout := stdout w ++ lines;
     totalTasks := counted |}.

Section WithPlatform.

Context `{Platform}.

(** The lines printed for one task: its own line, then its links. *)
Definition task_lines (task : Task) (taskIndex : nat) : list string :=
  task_line task taskIndex
  :: match links task with
     | Some ls => " 🔗 Links:" :: map link_line ls
     | None => []
     end.

Fixpoint tasks_lines (taskIndex : nat) (tasks : list Task) : list string :=
  match tasks with
  | [] => []
  | task :: rest =>
      task_lines task taskIndex ++ tasks_lines (S taskIndex) rest
  end.

(** The block printed for a task list with the given tasks; nothing
    for a list without tasks. *)
Definition block (taskList : TaskList) (tasks : list Task) : list string :=
  match tasks with
  | [] => []
  | _ =>
      ("📋 " +:+ text (title taskList) +:+ " ("
       +:+ pretty (Z.of_nat (length tasks)) +:+ " tasks)")
      :: repeat_string "─" 40
      :: tasks_lines O tasks ++ [""]
  end.

(** The blocks of the task lists, each with the tasks at its own
    position. *)
Fixpoint blocks (taskLists : list TaskList) (allTasks : list (list Task))
    : list string :=
  match taskLists, allTasks with
  | taskList :: rest, tasks :: more =>
      block taskList tasks ++ blocks rest more
  | _, _ => []
  end.

Definition total (allTasks : list (list Task)) : nat :=
  length (concat allTasks).

(** What [main] prints before the blocks when it found [n] task
    lists. *)
Definition opening (n : nat) : list string :=
  [ "🔄 Fetching your Google Tasks..." +:+ newline;
    "✅ Authorization successful!";
    "📚 Found " +:+ pretty (Z.of_nat n) +:+ " task list(s)";
    newline +:+ "=== YOUR CURRENT TASKS ===" +:+ newline ].

Definition summary (n : nat) : string :=
  match n with
  | O => "🎉 No pending tasks found! You're all caught up!"
  | _ => "📊 Total pending tasks: " +:+ pretty (Z.of_nat n)
  end.

End WithPlatform.

End TaskDisplay.

(** ** Concrete runs on the reference platform *)

Module Scenario.

Import Viewer.

Definition tokens : OAuthTokens :=
  {| access_token := Has "ya29.a0-access";
     refresh_token := Has "1//0g-refresh";
     scope := Has "https://www.googleapis.com/auth/tasks.readonly";
     token_type := Has "Bearer";
     expiry_date := Has 1767225600000;
     id_token := Missing |}.

Definition client : OAuthClient :=
  setCredentials (new_OAuth2 "client-id" "client-secret" Auth.REDIRECT_URI)
    tokens.

Definition photo (name : string) : JS.value :=
  JS.Obj [("id", JS.Str name); ("filename", JS.Str (name +:+ ".jpg"))].

(** A library of three pages; the second has no items field. *)
Definition album (i : nat) : Page :=
  match i with
  | O => {| mediaItems := Some [photo "a"; photo "b"];
            nextPageToken := Some "page-2" |}
  | S O => {| mediaItems := None; nextPageToken := Some "page-3" |}
  | _ => {| mediaItems := Some [photo "c"]; nextPageToken := None |}
  end.

(** A server that answers the [n]-th request with page [n]. *)
Definition serving (pages : nat -> Page) : Https.Network :=
  fun log _ =>
    Https.Response (Some 200)
      [Reference.stringify (page_value (pages (length log)))].

Fixpoint parameter (name : string) (search : list (string * string))
    : option string :=
  match search with
  | [] => None
  | (k, v) :: rest => if String.eqb k name then Some v else parameter name rest
  end.

(** A server that finds the page by the token of the request. *)
Definition album_server : Https.Network :=
  fun _ request =>
    match parameter "pageToken" (Https.search request) with
    | None =>
        Https.Response (Some 200) [Reference.stringify (page_value (album 0))]
    | Some "page-2" =>
        Https.Response (Some 200) [Reference.stringify (page_value (album 1))]
    | Some "page-3" =>
        Https.Response (Some 200) [Reference.stringify (page_value (album 2))]
    | Some _ =>
        Https.Response (Some 400)
          [Reference.stringify
             (JS.Obj [("error",
                       JS.Obj [("message", JS.Str "Invalid page token")])])]
    end.

(** A page that carries a token, the empty string. *)
Definition empty_token_page : Page :=
  {| mediaItems := Some [photo "a"]; nextPageToken := Some "" |}.

(** The files on disk: one picture. *)
Definition pictures (path : string) : string + string :=
  if String.eqb path "assets/cat.jpg" then inl "JFIF-bytes-of-a-cat"
  else inr ("ENOENT: no such file or directory, open '" +:+ path +:+ "'").

(** The media library: an upload is answered with an upload token, the
    item creation with the created item. *)
Definition library : Https.Network :=
  fun _ request =>
    if String.eqb (Https.pathname request) "/v1/uploads"
    then Https.Response (Some 200) ["CAIS"; "-upload-token"]
    else Https.Response (Some 200)
           [Reference.stringify
              (JS.Obj
                 [("newMediaItemResults",
                   JS.Arr
                     [JS.Obj
                        [("uploadToken", JS.Str "CAIS-upload-token");
                         ("status", JS.Obj [("message", JS.Str "Success")]);
                         ("mediaItem",
                          JS.Obj [("id", JS.Str "item-1");
                                  ("productUrl",
                                   JS.Str "https://photos.google.com/lr/photo/item-1");
                                  ("filename",
                                   JS.Str "the cat to be uploaded")])]])])].

Definition data_dir : string := "/home/user/.local/share/google-tasks-cli".

(** A disk on which an earlier authorization left a token file with a
    refresh token. *)
Definition disk_with_old_token : Fs.FS :=
  {| Fs.dirs := {[data_dir]};
     Fs.files :=
       {[ "/home/user/.local/share/google-tasks-cli/token.json"
          := Reference.stringify
               (JS.Obj [("access_token", JS.Str "ya29.old");
                        ("refresh_token", JS.Str "1//old-refresh");
                        ("legacy", JS.Bool true)]) ]} |}.

(** Tokens as a re-authorization returns them: no refresh token. *)
Definition fresh_tokens : OAuthTokens :=
  {| access_token := Has "ya29.fresh";
     refresh_token := Missing;
     scope := Has "https://www.googleapis.com/auth/tasks.readonly";
     token_type := Has "Bearer";
     expiry_date := Has 1767229200000;
     id_token := IsNull |}.

(** A disk on which a regular file sits where the data directory should
    be. *)
Definition blocked_disk : Fs.FS :=
  {| Fs.dirs := ∅; Fs.files := {[ data_dir := "not a directory" ]} |}.

(** A shell in which [op --version] fails although the items can be
    read. *)
Definition shell_without_version : OnePassword.Shell :=
  fun command =>
    if String.eqb command "op --version"
    then inr "Command failed: op --version"
    else inl ("  secret-for " +:+ command +:+ Tasks.newline).

(** A shell without the [op] command. *)
Definition shell_without_op : OnePassword.Shell :=
  fun command => inr ("Command failed: " +:+ command).

Definition task (name : string) : Tasks.Task :=
  {| Tasks.task_status := Has "needsAction"; Tasks.task_title := Has name;
     Tasks.due := Missing; Tasks.notes := Missing; Tasks.links := None |}.

(** Two task lists; the service answers by the list asked for, whatever
    was asked before. *)
Definition task_service : Tasks.Service :=
  {| Tasks.tasklists_list :=
       Tasks.Data (Some [ {| Tasks.id := Has "L1"; Tasks.title := Has "Home" |};
                          {| Tasks.id := Has "L2"; Tasks.title := Has "Work" |} ]);
     Tasks.tasks_list :=
       fun _ tasklist =>
         match tasklist with
         | Has "L1" => Tasks.Data (Some [task "Water the plants"])
         | Has "L2" => Tasks.Data (Some [task "File the report";
                                         task "Book the room"])
         | _ => Tasks.Threw "Task list not found"
         end |}.

Definition quiet : Tasks.World :=
  {| Tasks.calls := []; Tasks.stdout := []; Tasks.totalTasks := O |}.

(** The browser comes back with a code. *)
Definition approval : Auth.Event :=
  Auth.Callback (Auth.QString "4/0Ab-code") Auth.QAbsent.

(** The provider accepts the code. *)
Definition granted : Auth.Event := Auth.Exchanged (inl fresh_tokens).

(** The browser comes back with the provider's refusal. *)
Definition refusal : Auth.Event :=
  Auth.Callback Auth.QAbsent (Auth.QString "access_denied").

(** A gateway that answers every request with an HTML error page. *)
Definition bad_gateway : Https.Network :=
  fun _ _ => Https.Response (Some 502) ["<html><body>"; "502 Bad Gateway";
                                        "</body></html>"].

(** A server that refuses every request with a JSON error. *)
Definition forbidden : Https.Network :=
  fun _ _ =>
    Https.Response (Some 403)
      [Reference.stringify
         (JS.Obj [("error", JS.Obj [("code", JS.Num 403);
                                    ("message", JS.Str "Forbidden")])])].

End Scenario.


(** ** [server.ts]: the earlier [authorize], which reuses a stored token

    The three 1Password functions and the redirect listener of [server.ts]
    are those of the later modules, with the redirect URI taken from the
    constant; [authorize] differs: it makes no directory, and before it
    starts the authorization flow it tries the token file. *)

Module Server.

(** The client object as this file fills it: [setCredentials] is handed
    whatever [JSON.parse] made of the token file. *)
Record Client := {
  clientId : string;
  clientSecret : string;
  redirectUri : string;
  stored : JS.value
}.

(** The client object after the authorization flow has set its
    credentials. *)
Definition flowed (c : OAuthClient) : Client :=
  {| clientId := client_id c; clientSecret := client_secret c;
     redirectUri := redirect_uri c;
     stored := tokens_value (credentials c) |}.

Section WithPlatform.

Context `{Platform}.

(** [getCredentialsFrom1Password()] *)
Definition getCredentialsFrom1Password (execSync : OnePassword.Shell)
    : option OnePassword.Credentials :=
  OnePassword.getCredentialsFrom1Password execSync Auth.REDIRECT_URI.

(** The [try] of [authorize]: the token file is read and parsed. *)
Definition stored_token : Async Fs.FS JS.value :=
  token <- Fs.readFile TOKEN_PATH ;;
  lift (JSON_parse token).

(** [authorize]; [None] is the [null] it returns. *)
Definition authorize (execSync : OnePassword.Shell)
    (events : list Auth.Event) : Async Fs.FS (option Client) :=
  if negb (OnePassword.check1PasswordCLI execSync) then ret None
  else
    match getCredentialsFrom1Password execSync with
    | None => ret None
    | Some credentials =>
        let oAuth2Client :=
          new_OAuth2 (OnePassword.cred_client_id credentials)
                     (OnePassword.cred_client_secret credentials)
                     (hd "" (OnePassword.redirect_uris credentials)) in
        fun fs =>
          match stored_token fs with
          | (Resolved parsed, fs') =>
              (Resolved
                 (Some {| clientId := client_id oAuth2Client;
                          clientSecret := client_secret oAuth2Client;
                          redirectUri := redirect_uri oAuth2Client;
                          stored := parsed |}), fs')
          | (Rejected _, fs') =>
              (granted <- Auth.getNewToken oAuth2Client events ;;
               ret (Some (flowed granted))) fs'
          | (Pending, fs') => (Pending, fs')
          end
    end.

End WithPlatform.

End Server.

(** ** Vocabulary for the authorization flow *)

Module Flow.

Import Auth.

(** The disk with the text [previous] in the token file. *)
Definition with_token_file `{Platform} (previous : string) (fs : Fs.FS)
    : Fs.FS :=
  {| Fs.dirs := Fs.dirs fs;
     Fs.files := <[TOKEN_PATH := previous]> (Fs.files fs) |}.




(** The state [st] of a listener on another disk. *)
Definition on_disk (fs : Fs.FS) (st : State) : State :=
  {| listening := listening st; connections := connections st;
     settles := settles st;
     exchanging := exchanging st; timers := timers st;
     client := client st; sent := sent st; disk := fs |}.


End Flow.

(** ** Vocabulary for the traffic of the Photos classes *)

Module Traffic.

(** The value of the header [name]. *)
Fixpoint header (name : string) (headers : list (string * string))
    : option string :=
  match headers with
  | [] => None
  | (k, v) :: rest => if String.eqb k name then Some v else header name rest
  end.

(** [request] goes to the Photos API with the access token of [auth]
    as its bearer token. *)
Definition authenticated (auth : option OAuthClient)
    (request : Https.Request) : Prop :=
  exists accessToken,
    Pagination.signed_in auth accessToken
    /\ Https.hostname request = "photoslibrary.googleapis.com"
    /\ header "Authorization" (Https.headers request)
       = Some ("Bearer " +:+ accessToken).

(** There is no client, or the client has no access token, or an empty
    one. *)
Definition signed_out (auth : option OAuthClient) : Prop :=
  forall accessToken, ~ Pagination.signed_in auth accessToken.

(** Whatever [op] sends is authenticated. *)
Definition sends {A : Type} (auth : option OAuthClient) (op : M A) : Prop :=
  forall log,
  exists sent,
    snd (op log) = log ++ sent /\ Forall (authenticated auth) sent.

(** Without an access token [op] rejects and sends nothing. *)
Definition refuses {A : Type} (auth : option OAuthClient) (op : M A)
    : Prop :=
  signed_out auth -> forall log, exists e, op log = (Rejected e, log).

Definition guarded {A : Type} (auth : option OAuthClient) (op : M A)
    : Prop :=
  sends auth op /\ refuses auth op.

End Traffic.

(** ** More concrete runs *)

Module Runs.


(** A shell in which [op] is installed and signed in and prints each
    field with a new line after it. *)
Definition shell : OnePassword.Shell :=
  fun command =>
    if String.eqb command
         (OnePassword.client_id_command (H := Reference.platform))
    then inl ("1234-abc.apps.googleusercontent.com" +:+ Tasks.newline)
    else if String.eqb command
              (OnePassword.client_secret_command (H := Reference.platform))
    then inl ("GOCSPX-secret" +:+ Tasks.newline)
    else inl "".

(** A disk with the data directory and nothing in it. *)
Definition fresh_disk : Fs.FS :=
  {| Fs.dirs := {[Scenario.data_dir]}; Fs.files := ∅ |}.


(** The browser connects and comes back with a code, the provider
    accepts it, and the timer of the handler fires. *)
Definition approved : list Auth.Event :=
  [Auth.Connected; Scenario.approval; Scenario.granted; Auth.TimerFired].

(** The client that [authorize] makes from what [shell] prints, with
    the tokens of [Scenario.granted]. *)
Definition authorized_client : OAuthClient :=
  setCredentials
    (new_OAuth2 "1234-abc.apps.googleusercontent.com" "GOCSPX-secret"
       "http://localhost:3000")
    Scenario.fresh_tokens.

(** A media library that serves the first page of the album and fails
    after that. *)
Definition flaky : Https.Network :=
  fun _ request =>
    match Scenario.parameter "pageToken" (Https.search request) with
    | None =>
        Https.Response (Some 200)
          [Reference.stringify (Viewer.page_value (Scenario.album 0))]
    | Some _ =>
        Https.Response (Some 500)
          [Reference.stringify
             (JS.Obj [("error",
                       JS.Obj [("message", JS.Str "Backend Error")])])]
    end.

(** A client without tokens, as [new google.auth.OAuth2] makes it. *)
Definition bare_client : OAuthClient :=
  new_OAuth2 "client-id" "client-secret" Auth.REDIRECT_URI.

End Runs.
(** * Properties *)

(** ** File name extensions *)

Module PathFacts.

Import NodePath.

Lemma list_ascii_app (a b : string) :
  list_ascii_of_string (a +:+ b)
  = list_ascii_of_string a ++ list_ascii_of_string b.
Proof. induction a as [|c a IH]; simpl; [reflexivity | f_equal; exact IH]. Qed.

Lemma list_ascii_length (a : string) :
  length (list_ascii_of_string a) = String.length a.
Proof. induction a as [|c a IH]; simpl; [reflexivity | f_equal; exact IH]. Qed.

Lemma substring_all (b : string) :
  String.substring 0 (String.length b) b = b.
Proof. induction b as [|d b IH]; simpl; [reflexivity | f_equal; exact IH]. Qed.

Lemma substring_skip (a b : string) :
  String.substring (String.length a) (String.length b) (a +:+ b) = b.
Proof.
  induction a as [|c a IH]; simpl; [apply substring_all | exact IH].
Qed.

Lemma string_length_app (a b : string) :
  String.length (a +:+ b) = (String.length a + String.length b)%nat.
Proof. induction a as [|c a IH]; simpl; [reflexivity | f_equal; exact IH]. Qed.

Lemma string_app_assoc (a b c : string) :
  (a +:+ b) +:+ c = a +:+ (b +:+ c).
Proof.
  induction a as [|x a IH]; [reflexivity|].
  change (String x ((a +:+ b) +:+ c) = String x (a +:+ (b +:+ c))).
  rewrite IH. reflexivity.
Qed.

Lemma backwards_app (a b : string) :
  backwards (a +:+ b)
  = rev (imap (fun i c => (Z.of_nat (String.length a + i), c))
           (list_ascii_of_string b))
    ++ backwards a.
Proof.
  unfold backwards. rewrite list_ascii_app, imap_app, rev_app_distr.
  rewrite list_ascii_length. reflexivity.
Qed.

(** Characters that are neither separators nor dots change nothing
    once the end of the name is marked and no dot was seen. *)
Lemma ext_plain_run (l : list (Z * ascii)) : forall st,
  Forall (fun ic => snd ic <> slash /\ snd ic <> dot) l ->
  ext_break st = false -> ext_end st <> -1 -> startDot st = -1 ->
  fold_left ext_step l st = st.
Proof.
  induction l as [|[i c] l IH]; intros st Hall Hb He Hd; [reflexivity|].
  inversion Hall as [|? ? [Hs Hdot] Hrest]; subst. cbn [fold_left].
  cbn [snd] in Hs, Hdot.
  assert (Hstep : ext_step st (i, c) = st).
  { unfold ext_step. rewrite Hb.
    rewrite (proj2 (Ascii.eqb_neq _ _) Hs), (proj2 (Ascii.eqb_neq _ _) Hdot).
    rewrite (proj2 (Z.eqb_neq _ _) He), Hd. reflexivity. }
  rewrite Hstep. apply IH; assumption.
Qed.

(** Once a dot and the end of the name are marked and something came
    before the dot, the marks stay. *)
Lemma ext_marks_stay (l : list (Z * ascii)) (d e : Z) : forall st,
  d <> -1 -> e <> -1 ->
  startDot st = d -> ext_end st = e -> preDotState st <> 0 ->
  let st' := fold_left ext_step l st in
  startDot st' = d /\ ext_end st' = e /\ preDotState st' <> 0.
Proof.
  induction l as [|[i c] l IH]; intros st Hd He Hsd Hse Hp; cbn zeta;
    [auto|].
  cbn [fold_left]. apply IH; try assumption; unfold ext_step;
    rewrite Hse, (proj2 (Z.eqb_neq _ _) He), Hsd,
      (proj2 (Z.eqb_neq _ _) Hd);
    repeat case_match; cbn; auto; lia.
Qed.

(** The extension of a name that ends in a dot followed by plain
    characters, when the dot does not open the last portion of the
    path: the dot and what follows it. *)
Lemma extname_suffix (body : string) (c : ascii) (rest : string) :
  c <> slash ->
  rest <> "" ->
  Forall (fun x => x <> slash /\ x <> dot) (list_ascii_of_string rest) ->
  extname (body +:+ String c (String dot rest)) = String dot rest.
Proof.
  intros Hc Hrest Hplain. unfold extname.
  set (path := body +:+ String c (String dot rest)).
  set (n := Z.of_nat (String.length body)).
  assert (Hback :
    backwards path
    = rev (imap (fun i x => (n + 2 + Z.of_nat i, x))
             (list_ascii_of_string rest))
      ++ [(n + 1, dot); (n, c)] ++ backwards body).
  { unfold path. rewrite backwards_app.
    cbn [list_ascii_of_string imap rev]. rewrite <- !app_assoc. cbn [app].
    unfold n, compose. f_equal.
    - f_equal. apply imap_ext. intros i x _. f_equal. lia.
    - f_equal; [f_equal; lia|]. f_equal. f_equal. lia. }
  rewrite Hback, !fold_left_app.
  (* the characters after the dot *)
  set (m := Z.of_nat (String.length rest)).
  assert (Hm : 0 < m).
  { unfold m. destruct rest; [contradiction|]. cbn. lia. }
  assert (Hfirst :
    fold_left ext_step
      (rev (imap (fun i x => (n + 2 + Z.of_nat i, x))
              (list_ascii_of_string rest))) ext_init
    = {| startDot := -1; startPart := 0; ext_end := n + 2 + m;
         ext_matchedSlash := false; preDotState := 0;
         ext_break := false |}).
  { destruct (list_ascii_of_string rest) as [|x xs] eqn:Hxs using rev_ind.
    - destruct rest; [contradiction|discriminate].
    - clear IHxs. apply Forall_app in Hplain as [Hxs' Hx].
      inversion Hx as [|? ? [Hxs1 Hxd] _]; subst.
      rewrite imap_app, rev_app_distr. cbn [imap rev app fold_left].
      assert (Hlen : Z.of_nat (length xs) + 1 = m).
      { unfold m. rewrite <- list_ascii_length, Hxs, length_app. cbn. lia. }
      replace (ext_step ext_init (n + 2 + Z.of_nat (length xs + 0), x))
        with {| startDot := -1; startPart := 0; ext_end := n + 2 + m;
                ext_matchedSlash := false; preDotState := 0;
                ext_break := false |}.
      2:{ unfold ext_step, ext_init. cbn.
          rewrite (proj2 (Ascii.eqb_neq _ _) Hxs1),
            (proj2 (Ascii.eqb_neq _ _) Hxd).
          cbn. f_equal. lia. }
      apply ext_plain_run; cbn; try reflexivity; try lia.
      apply Forall_rev. clear -Hxs'.
      apply Forall_forall. intros [i y] Hin.
      apply elem_of_lookup_imap in Hin as (j & z & Heq & Hz).
      injection Heq as -> ->. cbn [snd].
      eapply Forall_forall in Hxs'; [exact Hxs'|].
      eapply list_elem_of_lookup_2. exact Hz. }
  rewrite Hfirst. cbn [fold_left app].
  (* the dot, and the character before it *)
  assert (Hn : 0 <= n) by (unfold n; lia).
  assert (Hq1 : (n + 2 + m =? -1) = false) by (apply Z.eqb_neq; lia).
  assert (Hq2 : (n + 1 =? -1) = false) by (apply Z.eqb_neq; lia).
  assert (Hdot :
    ext_step {| startDot := -1; startPart := 0; ext_end := n + 2 + m;
                ext_matchedSlash := false; preDotState := 0;
                ext_break := false |} (n + 1, dot)
    = {| startDot := n + 1; startPart := 0; ext_end := n + 2 + m;
         ext_matchedSlash := false; preDotState := 0;
         ext_break := false |}).
  { unfold ext_step.
    cbn [startDot startPart ext_end ext_matchedSlash preDotState ext_break].
    rewrite Hq1. reflexivity. }
  rewrite Hdot.
  set (st2 := ext_step _ (n, c)).
  assert (Hst2 : startDot st2 = n + 1 /\ ext_end st2 = n + 2 + m
                 /\ preDotState st2 <> 0).
  { unfold st2, ext_step.
    cbn [startDot startPart ext_end ext_matchedSlash preDotState ext_break].
    rewrite (proj2 (Ascii.eqb_neq _ _) Hc), Hq1. cbv beta iota zeta.
    cbn [startDot startPart ext_end ext_matchedSlash preDotState ext_break].
    rewrite Hq2.
    destruct (Ascii.eqb c dot); cbn; repeat split; lia. }
  destruct Hst2 as (Hd2 & He2 & Hp2).
  destruct (ext_marks_stay (backwards body) (n + 1) (n + 2 + m) st2)
    as (Hd & He & Hp); try assumption; try lia.
  rewrite Hd, He.
  replace (n + 1 =? -1) with false by (symmetry; apply Z.eqb_neq; lia).
  replace (n + 2 + m =? -1) with false by (symmetry; apply Z.eqb_neq; lia).
  rewrite (proj2 (Z.eqb_neq _ _) Hp).
  replace (n + 1 =? n + 2 + m - 1) with false
    by (symmetry; apply Z.eqb_neq; lia).
  rewrite andb_false_r. cbn [orb andb].
  unfold slice.
  replace (n + 2 + m <=? n + 1) with false by (symmetry; apply Z.leb_gt; lia).
  replace (Z.to_nat (n + 1)) with (String.length (body +:+ String c ""))
    by (rewrite string_length_app; cbn; unfold n; lia).
  replace (Z.to_nat (n + 2 + m - (n + 1)))
    with (String.length (String dot rest)) by (cbn; unfold m; lia).
  unfold path.
  replace (body +:+ String c (String dot rest))
    with ((body +:+ String c "") +:+ String dot rest)
    by (rewrite string_app_assoc; reflexivity).
  apply substring_skip.
Qed.

End PathFacts.

(** ** The content type of a file *)

Module MimeFacts.

Import Uploader.

Lemma mimeTypes_agree (ext : string) :
  match mimeTypes !! ext with
  | Some mime => mime
  | None => Claimed.default_type
  end = Claimed.content_type ext.
Proof.
  unfold mimeTypes, Claimed.content_type, Claimed.content_types.
  cbn [list_to_map foldr uncurry Datatypes.uncurry fst snd Claimed.lookup].
  repeat (rewrite lookup_insert; case_decide as Hk;
          [ subst ext; reflexivity
          | rewrite (proj2 (String.eqb_neq _ _) Hk); clear Hk ]).
  rewrite lookup_empty. reflexivity.
Qed.

Lemma mimeTypes_nonempty (ext mime : string) :
  mimeTypes !! ext = Some mime -> nonempty mime = true.
Proof.
  unfold mimeTypes.
  cbn [list_to_map foldr uncurry Datatypes.uncurry fst snd].
  repeat (rewrite lookup_insert; case_decide as Hk;
          [ intros [= <-]; reflexivity | clear Hk ]).
  rewrite lookup_empty. discriminate.
Qed.

(** The reference platform lower-cases ASCII text as the language
    does. *)
Lemma reference_lowers_ascii : lowers_ascii (H := Reference.platform).
Proof.
  intros s. cbn [toLowerCase Reference.platform].
  induction s as [|a r IH]; intros Hs; [reflexivity|].
  cbn [ascii_only] in Hs. apply andb_prop in Hs as [Ha Hr].
  cbn [Reference.lower lower_ascii_text].
  assert (Hnot : (N_of_ascii a =? 226)%N = false).
  { apply N.eqb_neq. apply N.ltb_lt in Ha. lia. }
  rewrite Hnot. cbn [andb].
  destruct r as [|b [|c r']]; rewrite (IH Hr); reflexivity.
Qed.

Lemma getMimeType_by_key `{Platform} (fileName : string) :
  getMimeType fileName
  = Claimed.content_type (toLowerCase (NodePath.extname fileName)).
Proof.
  rewrite <- mimeTypes_agree. unfold getMimeType.
  destruct (mimeTypes !! toLowerCase (NodePath.extname fileName))
    as [mime|] eqn:Hm; [|reflexivity].
  rewrite (mimeTypes_nonempty _ _ Hm). reflexivity.
Qed.

(** C5, as the code has it: the content type of a file is the one the
    specification lists for its extension once [toLowerCase] has been
    applied to the extension, and the default when the lower-cased
    extension is not listed.  For an extension that is all ASCII that
    is the extension with its letters A to Z in lower case. *)
Theorem getMimeType_lower_cased_extension `{Platform} (fileName : string) :
  getMimeType fileName
  = Claimed.content_type (toLowerCase (NodePath.extname fileName))
  /\ (lowers_ascii ->
      ascii_only (NodePath.extname fileName) = true ->
      getMimeType fileName
      = Claimed.content_type
          (lower_ascii_text (NodePath.extname fileName))).
Proof.
  split; [apply getMimeType_by_key|].
  intros Hlaw Hascii. rewrite getMimeType_by_key, (Hlaw _ Hascii).
  reflexivity.
Qed.

(** A run of C5: an extension in capitals is looked up in lower case. *)
Lemma getMimeType_lower_cased_extension_witness :
  getMimeType (H := Reference.platform) "IMG_0001.JPG"
  = Claimed.content_type ".jpg".
Proof.
  exact (proj2 (getMimeType_lower_cased_extension
                  (H := Reference.platform) "IMG_0001.JPG")
           reference_lowers_ascii eq_refl).
Defined.

(** For a file whose name ends in a dot and plain ASCII characters
    after at least one other character of the name, the content type is
    the one listed for those characters in lower case. *)
Lemma getMimeType_named `{Platform} (body : string) (c : ascii)
    (rest : string) :
  lowers_ascii ->
  c <> NodePath.slash ->
  rest <> "" ->
  Forall (fun x => x <> NodePath.slash /\ x <> NodePath.dot)
    (list_ascii_of_string rest) ->
  ascii_only rest = true ->
  getMimeType (body +:+ String c (String NodePath.dot rest))
  = Claimed.content_type (lower_ascii_text (String NodePath.dot rest)).
Proof.
  intros Hlaw Hc Hrest Hplain Hascii. rewrite getMimeType_by_key.
  rewrite (PathFacts.extname_suffix body c rest Hc Hrest Hplain).
  rewrite Hlaw; [reflexivity|]. cbn [ascii_only]. rewrite Hascii.
  reflexivity.
Qed.

Lemma getMimeType_jpg_any_directory `{Platform} (directory : string) :
  lowers_ascii ->
  getMimeType (directory +:+ "/IMG_0001.jpg") = "image/jpeg"
  /\ getMimeType (directory +:+ "/IMG_0001.JPG") = "image/jpeg"
  /\ getMimeType (directory +:+ "/IMG_0001.raw") = "application/octet-stream".
Proof.
  intros Hlaw.
  pose proof (PathFacts.string_app_assoc directory "/IMG_000" ) as Ha.
  assert (Hplain : forall rest,
             Forall (fun x => x <> NodePath.slash /\ x <> NodePath.dot)
               (list_ascii_of_string rest) ->
             rest <> "" ->
             ascii_only rest = true ->
             getMimeType (directory +:+ "/IMG_0001" +:+ String NodePath.dot rest)
             = Claimed.content_type
                 (lower_ascii_text (String NodePath.dot rest))).
  { intros rest Hp Hr Hascii.
    replace (directory +:+ "/IMG_0001" +:+ String NodePath.dot rest)
      with ((directory +:+ "/IMG_000")
            +:+ String "1"%char (String NodePath.dot rest))
      by (rewrite Ha; reflexivity).
    apply getMimeType_named; [assumption | discriminate | assumption
                             | assumption | assumption]. }
  split; [|split].
  - apply (Hplain "jpg"); [|discriminate|reflexivity].
    repeat constructor; discriminate.
  - apply (Hplain "JPG"); [|discriminate|reflexivity].
    repeat constructor; discriminate.
  - apply (Hplain "raw"); [|discriminate|reflexivity].
    repeat constructor; discriminate.
Qed.

(** Outside ASCII the lower case is the platform's: on the reference
    platform the extension [.M K V] written with the Kelvin sign for
    its [K] is looked up as [.mkv]. *)
Lemma getMimeType_kelvin_sign :
  getMimeType (H := Reference.platform)
    ("clip.M" +:+ String (ascii_of_N 226)
                    (String (ascii_of_N 132) (String (ascii_of_N 170) "V")))
  = "video/x-matroska".
Proof. vm_compute. reflexivity. Qed.

(** C5 as stated fails on an upper-case extension: [.JPG] is not among
    the listed extensions, so the claim gives [photo.JPG] the default
    type, and the code gives it [image/jpeg]. *)
Lemma getMimeType_not_by_exact_extension :
  ~ (getMimeType (H := Reference.platform) "photo.JPG"
     = Claimed.content_type (NodePath.extname "photo.JPG")).
Proof. vm_compute. discriminate. Qed.

End MimeFacts.

(** ** The pagination loop *)

Module PaginationFacts.

Import Viewer Pagination.

Lemma first_pages_S pages n :
  first_pages pages (S n)
  = pages O :: first_pages (fun i => pages (S i)) n.
Proof.
  unfold first_pages. cbn [seq map]. f_equal.
  rewrite <- seq_shift, map_map. reflexivity.
Qed.

Lemma token_of_shape p :
  token_of p = JS.Undefined \/ exists t, token_of p = JS.Str t.
Proof. unfold token_of. destruct (nextPageToken p); eauto. Qed.

Lemma truthy_token_of p : JS.truthy (token_of p) = continues p.
Proof. unfold token_of, continues. destruct (nextPageToken p); reflexivity. Qed.

Section WithClient.

Context `{Platform}.
Context (net : Https.Network) (auth : option OAuthClient).

(** After the first request the server serves the remaining pages. *)
Lemma serves_next accessToken size log0 start pages bound :
  serves net accessToken size log0 start pages (S bound) ->
  serves net accessToken size (log0 ++ [request_for accessToken size start])
    (token_of (pages O)) (fun i => pages (S i)) bound.
Proof.
  intros Hs n Hn. specialize (Hs (S n) ltac:(lia)).
  rewrite first_pages_S in Hs. cbn [requests_from] in Hs.
  rewrite <- app_assoc. cbn [app].
  replace (token_at (token_of (pages O)) (fun i => pages (S i)) n)
    with (token_at start pages (S n)) by (destruct n; reflexivity).
  exact Hs.
Qed.

Lemma list_request_token accessToken size token log :
  signed_in auth accessToken ->
  (token = JS.Undefined \/ exists t, token = JS.Str t) ->
  list_request auth {| pageSize := Some size; pageToken := token |} log
  = (Resolved (request_for accessToken size token), log).
Proof.
  intros (client & -> & Htok & Hne) Htoken.
  unfold list_request, rethrow, bind, getAccessToken. rewrite Htok, Hne.
  destruct Htoken as [-> | [t ->]].
  - reflexivity.
  - unfold request_for, nonempty. cbn.
    destruct (String.eqb t ""); reflexivity.
Qed.

Lemma list_on_end_page statusCode responseData p :
  Https.ok statusCode = true ->
  JSON_parse responseData = inl (page_value p) ->
  list_on_end statusCode responseData = Resolved (page_value p).
Proof.
  intros Hok Hparse. unfold list_on_end. rewrite Hparse, Hok.
  destruct p as [[items|] [t|]]; cbn; try reflexivity;
    unfold JS.or_else; cbn;
    destruct (Z.of_nat (length items) =? 0); reflexivity.
Qed.

(** One call of [listMediaItems] against a serving network. *)
Lemma listMediaItems_page accessToken size token log0 pages bound :
  signed_in auth accessToken ->
  serves net accessToken size log0 token pages (S bound) ->
  (token = JS.Undefined \/ exists t, token = JS.Str t) ->
  listMediaItems net auth {| pageSize := Some size; pageToken := token |}
    log0
  = (Resolved (page_value (pages O)),
     log0 ++ [request_for accessToken size token]).
Proof.
  intros Hin Hs Htoken.
  pose proof (list_request_token _ size token log0 Hin Htoken) as Hreq.
  destruct Hin as (client & Hauth & _).
  unfold listMediaItems. rewrite Hauth in *.
  unfold bind, send, settle, list_settle. rewrite Hreq.
  destruct (Hs O ltac:(lia)) as (statusCode & chunks & Hnet & Hok & Hparse).
  cbn [first_pages seq map requests_from token_at] in Hnet.
  rewrite app_nil_r in Hnet. rewrite Hnet.
  rewrite (list_on_end_page _ _ _ Hok Hparse). reflexivity.
Qed.

(** One turn of the loop on a page. *)
Lemma loop_turn accessToken fuel size acc token log0 pages bound :
  signed_in auth accessToken ->
  serves net accessToken size log0 token pages (S bound) ->
  (token = JS.Undefined \/ exists t, token = JS.Str t) ->
  listAll_loop net auth (S fuel) size acc token log0
  = if continues (pages O)
    then listAll_loop net auth fuel size (acc ++ items_of (pages O))
           (token_of (pages O))
           (log0 ++ [request_for accessToken size token])
    else (Resolved (acc ++ items_of (pages O)),
          log0 ++ [request_for accessToken size token]).
Proof.
  intros Hin Hs Htoken. cbn [listAll_loop]. unfold bind at 1.
  rewrite (listMediaItems_page _ _ _ _ _ _ Hin Hs Htoken).
  rewrite <- truthy_token_of. unfold token_of, items_of.
  destruct (pages O) as [[items|] [t|]]; cbn;
    rewrite ?app_nil_r; try reflexivity;
    destruct (String.eqb t ""); reflexivity.
Qed.

(** While every page carries a non-empty token the loop keeps asking:
    after [n] turns it has sent [n] requests and is not done. *)
Lemma loop_continues accessToken size n :
  signed_in auth accessToken ->
  forall acc token log0 pages,
  serves net accessToken size log0 token pages n ->
  (token = JS.Undefined \/ exists t, token = JS.Str t) ->
  (forall i, (i < n)%nat -> continues (pages i) = true) ->
  listAll_loop net auth n size acc token log0
  = (Pending,
     log0 ++ requests_from accessToken size token (first_pages pages n)).
Proof.
  intros Hin. induction n as [|n IH]; intros acc token log0 pages Hs Htoken Hall.
  - cbn. rewrite app_nil_r. reflexivity.
  - rewrite (loop_turn accessToken _ _ _ _ _ pages n) by assumption.
    rewrite (Hall O) by lia.
    rewrite (IH _ _ _ (fun i => pages (S i))).
    + rewrite first_pages_S. cbn [requests_from].
      rewrite <- app_assoc. reflexivity.
    + apply serves_next, Hs.
    + apply token_of_shape.
    + intros i Hi. apply Hall. lia.
Qed.

(** When page [k] is the first without a non-empty token, the loop
    returns after [k + 1] requests with the items of those pages. *)
Lemma loop_stops accessToken size k :
  signed_in auth accessToken ->
  forall fuel acc token log0 pages,
  serves net accessToken size log0 token pages (S k) ->
  (token = JS.Undefined \/ exists t, token = JS.Str t) ->
  (forall i, (i < k)%nat -> continues (pages i) = true) ->
  continues (pages k) = false ->
  (k < fuel)%nat ->
  listAll_loop net auth fuel size acc token log0
  = (Resolved (acc ++ concat (map items_of (first_pages pages (S k)))),
     log0 ++ requests_from accessToken size token
               (first_pages pages (S k))).
Proof.
  intros Hin. induction k as [|k IH];
    intros fuel acc token log0 pages Hs Htoken Hall Hstop Hfuel;
    destruct fuel as [|fuel]; try lia.
  - rewrite (loop_turn accessToken _ _ _ _ _ pages O) by assumption.
    rewrite Hstop. cbn. rewrite !app_nil_r. reflexivity.
  - rewrite (loop_turn accessToken _ _ _ _ _ pages (S k)) by assumption.
    rewrite (Hall O) by lia.
    rewrite (IH _ _ _ _ (fun i => pages (S i))).
    + rewrite (first_pages_S pages (S k)). cbn [requests_from map concat].
      rewrite <- !app_assoc. reflexivity.
    + apply serves_next, Hs.
    + apply token_of_shape.
    + intros i Hi. apply Hall. lia.
    + exact Hstop.
    + lia.
Qed.

End WithClient.

End PaginationFacts.

Module PaginationTheorems.

Import Viewer Pagination PaginationFacts.

Lemma requests_from_length accessToken size token pages :
  length (requests_from accessToken size token pages) = length pages.
Proof.
  revert token. induction pages as [|p rest IH]; intros token; cbn;
    [reflexivity | f_equal; apply IH].
Qed.

Lemma first_pages_length pages n : length (first_pages pages n) = n.
Proof. unfold first_pages. rewrite length_map. apply length_seq. Qed.

(** C1, as the code has it: the loop asks for the next page as long as
    the page it got carries a non-empty [nextPageToken], and stops at
    the first page whose token is absent or empty.  If the server
    answers the loop's requests with pages of which page [k] is the
    first without a non-empty token, the promise resolves after
    exactly [k + 1] requests (the first without a page token, each
    later one with the token of the page before); and if it answers
    [n] requests with pages that all carry a non-empty token, the loop
    is still pending after those [n] requests. *)
Theorem listAllMediaItems_stops_at_first_falsy_token
    `{Platform} (net : Https.Network) (auth : option OAuthClient)
    (accessToken : string) (size : option Z)
    (log0 : list Https.Request) (pages : nat -> Page) :
  signed_in auth accessToken ->
  (forall k fuel,
      serves net accessToken (default 25 size) log0 JS.Undefined pages (S k) ->
      (forall i, (i < k)%nat -> continues (pages i) = true) ->
      continues (pages k) = false ->
      (k < fuel)%nat ->
      exists items sent,
        listAllMediaItems net auth fuel size log0
        = (Resolved items, log0 ++ sent)
        /\ sent = requests_from accessToken (default 25 size) JS.Undefined
                    (first_pages pages (S k))
        /\ length sent = S k)
  /\ (forall n,
         serves net accessToken (default 25 size) log0 JS.Undefined pages n ->
         (forall i, (i < n)%nat -> continues (pages i) = true) ->
         exists sent,
           listAllMediaItems net auth n size log0 = (Pending, log0 ++ sent)
           /\ length sent = n).
Proof.
  intros Hin. split.
  - intros k fuel Hs Hall Hstop Hfuel.
    eexists _, _. split; [|split; [reflexivity|]].
    + unfold listAllMediaItems.
      apply (loop_stops net auth accessToken _ k Hin); eauto.
    + rewrite requests_from_length. apply first_pages_length.
  - intros n Hs Hall. eexists. split.
    + unfold listAllMediaItems.
      apply (loop_continues net auth accessToken _ n Hin); eauto.
    + rewrite requests_from_length. apply first_pages_length.
Qed.

(** C2: when the server answers the loop's requests with pages of
    which page [k] is the first without a non-empty token, the loop
    returns the items of pages [0] to [k] concatenated in that order,
    a page without an items field contributing nothing. *)
Theorem listAllMediaItems_concatenates_pages
    `{Platform} (net : Https.Network) (auth : option OAuthClient)
    (accessToken : string) (size : option Z)
    (log0 : list Https.Request) (pages : nat -> Page)
    (k fuel : nat) :
  signed_in auth accessToken ->
  serves net accessToken (default 25 size) log0 JS.Undefined pages (S k) ->
  (forall i, (i < k)%nat -> continues (pages i) = true) ->
  continues (pages k) = false ->
  (k < fuel)%nat ->
  fst (listAllMediaItems net auth fuel size log0)
  = Resolved (concat (map items_of (first_pages pages (S k)))).
Proof.
  intros Hin Hs Hall Hstop Hfuel. unfold listAllMediaItems.
  rewrite (loop_stops net auth accessToken _ k Hin _ _ _ _ pages); auto.
Qed.

Lemma scenario_signed_in :
  signed_in (Some Scenario.client) "ya29.a0-access".
Proof. exists Scenario.client. repeat split. Qed.

(** The album server answers the three requests of the loop with the
    three pages of the album. *)
Lemma serving_album :
  serves (H := Reference.platform) Scenario.album_server "ya29.a0-access" 25
    [] JS.Undefined Scenario.album 3.
Proof.
  intros n Hn. exists (Some 200). eexists.
  destruct n as [|[|[|n]]]; [| | |lia];
    (split; [reflexivity|]); split; vm_compute; reflexivity.
Qed.

(** A run of C1: the album has three pages, so three requests go out. *)
Lemma listAllMediaItems_stops_at_first_falsy_token_witness :
  exists items sent,
    listAllMediaItems (H := Reference.platform)
      Scenario.album_server (Some Scenario.client) 10 None []
    = (Resolved items, [] ++ sent)
    /\ sent = requests_from "ya29.a0-access" 25 JS.Undefined
                (first_pages Scenario.album 3)
    /\ length sent = 3%nat.
Proof.
  refine (proj1 (listAllMediaItems_stops_at_first_falsy_token
                   (H := Reference.platform)
                   Scenario.album_server (Some Scenario.client)
                   "ya29.a0-access" None [] Scenario.album
                   scenario_signed_in) 2%nat 10%nat serving_album _ _ _).
  - intros [|[|i]] Hi; [reflexivity | reflexivity | lia].
  - reflexivity.
  - lia.
Defined.

(** A run of C2 on the same album. *)
Lemma listAllMediaItems_concatenates_pages_witness :
  fst (listAllMediaItems (H := Reference.platform)
         Scenario.album_server (Some Scenario.client) 10 None [])
  = Resolved [Scenario.photo "a"; Scenario.photo "b"; Scenario.photo "c"].
Proof.
  refine (listAllMediaItems_concatenates_pages (H := Reference.platform)
            Scenario.album_server (Some Scenario.client)
            "ya29.a0-access" None [] Scenario.album 2 10
            scenario_signed_in serving_album _ _ _).
  - intros [|[|i]] Hi; [reflexivity | reflexivity | lia].
  - reflexivity.
  - lia.
Defined.

(** C1 as stated fails on an empty token: every response of this server
    carries a [nextPageToken], the empty string, and the loop stops
    after the first one instead of asking on. *)
Lemma listAllMediaItems_stops_on_present_empty_token :
  (forall log request,
      Scenario.serving (fun _ => Scenario.empty_token_page) log request
      = Https.Response (Some 200)
          [Reference.stringify (page_value Scenario.empty_token_page)])
  /\ Reference.parse
       (Reference.stringify (page_value Scenario.empty_token_page))
     = inl (page_value Scenario.empty_token_page)
  /\ nextPageToken Scenario.empty_token_page <> None
  /\ listAllMediaItems (H := Reference.platform)
       (Scenario.serving (fun _ => Scenario.empty_token_page))
       (Some Scenario.client) 10 None []
     = (Resolved [Scenario.photo "a"],
        [request_for "ya29.a0-access" 25 JS.Undefined]).
Proof.
  split; [reflexivity|]. split; [vm_compute; reflexivity|].
  split; [discriminate|]. vm_compute. reflexivity.
Qed.

End PaginationTheorems.

(** ** Responses: status, parsing, no retry *)

Module ResponseFacts.

Import Responses.

Lemma prefix_app (s rest : string) : String.prefix s (s +:+ rest) = true.
Proof.
  induction s as [|c s IH]; simpl.
  - destruct rest; reflexivity.
  - destruct (Ascii.ascii_dec c c) as [_|Hc]; [exact IH | contradiction].
Qed.

Lemma includes_prefix (s t : string) :
  String.prefix s t = true -> includes s t = true.
Proof. intros Hp. destruct t; cbn [includes]; rewrite Hp; reflexivity. Qed.

Lemma includes_app (before s after : string) :
  includes s (before +:+ s +:+ after) = true.
Proof.
  induction before as [|c before IH].
  - change (includes s (s +:+ after) = true).
    apply includes_prefix. apply prefix_app.
  - change (includes s (String c (before +:+ s +:+ after)) = true).
    cbn [includes]. rewrite IH. apply orb_true_r.
Qed.

Lemma app_inv_one {A : Type} (log : list A) (a b : A) :
  log ++ [a] = log ++ [b] -> a = b.
Proof. intros Heq. apply app_inv_head in Heq. congruence. Qed.

Lemma app_self_one {A : Type} (log : list A) (a : A) : log ++ [a] <> log.
Proof.
  intros Heq. apply (f_equal (@length A)) in Heq.
  rewrite length_app in Heq. cbn in Heq. lia.
Qed.

Section WithNetwork.

Context `{Platform} (net : Https.Network).

(** The contract of a settle function, from which [handles] follows
    for an operation that builds one request and settles on the
    reply. *)
Lemma handles_by_shape {A : Type} (op : M A) (build : M Https.Request)
    (settle_on : Https.Reply -> Outcome A) (failure : string)
    (parses : bool) :
  (forall log, exists o, build log = (o, log) /\ o <> Pending) ->
  (forall log,
      op log = match build log with
               | (Resolved request, _) =>
                   (settle_on (net log request), log ++ [request])
               | (Rejected e, _) => (Rejected e, log)
               | (Pending, _) => (Pending, log)
               end
      \/ exists e, op log = (Rejected e, log)) ->
  (forall message a, settle_on (Https.Failed message) <> Resolved a) ->
  (forall statusCode chunks a,
      settle_on (Https.Response statusCode chunks) = Resolved a ->
      Https.ok statusCode = true) ->
  (forall statusCode chunks e,
      parses = true ->
      JSON_parse (Https.responseData chunks) = inr e ->
      settle_on (Https.Response statusCode chunks)
      = Rejected (parse_failure e)) ->
  (forall statusCode chunks,
      Https.ok statusCode = false ->
      exists message,
        settle_on (Https.Response statusCode chunks) = Rejected message) ->
  (forall statusCode chunks detail,
      Https.ok statusCode = false ->
      (if parses
       then exists parsed,
              JSON_parse (Https.responseData chunks) = inl parsed
              /\ error_detail parsed (Https.responseData chunks)
                 = inl detail
       else detail = Https.responseData chunks) ->
      settle_on (Https.Response statusCode chunks)
      = Rejected (failure +:+ Https.status_text statusCode
                  +:+ " - " +:+ detail)) ->
  handles net op failure parses.
Proof.
  intros Hbuild Hshape Hfailed Hok Hparse Hreject Hdetail log. cbn zeta.
  destruct (Hshape log) as [Hop | [e Hop]]; rewrite Hop; clear Hop.
  2:{ cbn. split; [left; reflexivity|]. split; [discriminate|].
      intros request ? ? Habs. symmetry in Habs.
      destruct (app_self_one _ _ Habs). }
  destruct (Hbuild log) as (o & -> & Hnp).
  destruct o as [request|e|]; [| |contradiction]; cbn.
  - split; [right; eauto|]. split.
    + intros a Ha.
      destruct (net log request) as [m|statusCode chunks] eqn:Hnet.
      * destruct (Hfailed _ _ Ha).
      * exists request, statusCode, chunks. eauto.
    + intros request' statusCode chunks Heq Hnet.
      apply app_inv_one in Heq. subst request'. rewrite Hnet.
      split; [intros Hp e He; apply Hparse; assumption|].
      intros Hbad. split; [apply Hreject; assumption|].
      intros detail Hd. split; [apply Hdetail; assumption|].
      apply includes_app.
  - split; [left; reflexivity|]. split; [discriminate|].
    intros request ? ? Habs. symmetry in Habs.
    destruct (app_self_one _ _ Habs).
Qed.

(** The request builders leave the log alone and always finish. *)
Lemma getAccessToken_pure auth (log : list Https.Request) :
  exists o, getAccessToken auth log = (o, log) /\ o <> Pending.
Proof.
  unfold getAccessToken.
  destruct auth as [client|]; [|eexists; split; [reflexivity|discriminate]].
  destruct (access_token (credentials client)) as [| |token];
    try (eexists; split; [reflexivity|discriminate]).
  destruct (nonempty token); eexists; split;
    try reflexivity; discriminate.
Qed.

Lemma list_request_pure auth options log :
  exists o, Viewer.list_request auth options log = (o, log) /\ o <> Pending.
Proof.
  unfold Viewer.list_request, rethrow, bind.
  destruct (getAccessToken_pure auth log) as (o & -> & Ho).
  destruct o as [token|e|]; [| |contradiction];
    [|eexists; split; [reflexivity|discriminate]].
  destruct (JS.truthy (Viewer.pageToken options));
    [|eexists; split; [reflexivity|discriminate]].
  destruct (stringify (Viewer.pageToken options)); cbn;
    eexists; split; try reflexivity; discriminate.
Qed.

Lemma get_request_pure URL_pathname auth mediaItemId log :
  exists o, Viewer.get_request URL_pathname auth mediaItemId log = (o, log)
            /\ o <> Pending.
Proof.
  unfold Viewer.get_request, rethrow, bind.
  destruct (getAccessToken_pure auth log) as (o & -> & Ho).
  destruct o as [token|e|]; [| |contradiction];
    eexists; split; try reflexivity; discriminate.
Qed.

Lemma upload_request_pure readFile auth filePath log :
  exists o, Uploader.upload_request readFile auth filePath log = (o, log)
            /\ o <> Pending.
Proof.
  unfold Uploader.upload_request, rethrow, bind.
  destruct (readFile filePath) as [fileBuffer|e]; cbn;
    [|eexists; split; [reflexivity|discriminate]].
  destruct (getAccessToken_pure auth log) as (o & -> & Ho).
  destruct o as [token|e|]; [| |contradiction];
    eexists; split; try reflexivity; discriminate.
Qed.

Lemma create_request_pure auth uploadTokens log :
  exists o, Uploader.create_request auth uploadTokens log = (o, log)
            /\ o <> Pending.
Proof.
  unfold Uploader.create_request, rethrow, bind.
  destruct (getAccessToken_pure auth log) as (o & -> & Ho).
  destruct o as [token|e|]; [| |contradiction];
    eexists; split; try reflexivity; discriminate.
Qed.

Ltac settle_cases :=
  repeat match goal with
         | |- context [match ?x with _ => _ end] =>
             lazymatch x with
             | JSON_parse _ => destruct x eqn:?
             | Https.ok _ => destruct x eqn:?
             | error_detail _ _ => destruct x eqn:?
             | JS.get _ _ => destruct x eqn:?
             | stringify _ => destruct x eqn:?
             end
         | |- context [if ?x then _ else _] =>
             lazymatch x with
             | Https.ok _ => destruct x eqn:?
             end
         end.

Lemma list_handles auth options :
  handles net (Viewer.listMediaItems net auth options)
    "List request failed: " true.
Proof.
  apply (handles_by_shape _ (Viewer.list_request auth options)
           Viewer.list_settle).
  - apply list_request_pure.
  - intros log. unfold Viewer.listMediaItems.
    destruct auth as [client|]; [left|right; eexists; reflexivity].
    unfold bind at 1.
    destruct (list_request_pure (Some client) options log) as (o & -> & _).
    destruct o; reflexivity.
  - discriminate.
  - intros statusCode chunks a. unfold Viewer.list_settle, Viewer.list_on_end.
    settle_cases; congruence.
  - intros statusCode chunks e _ He.
    unfold Viewer.list_settle, Viewer.list_on_end. rewrite He. reflexivity.
  - intros statusCode chunks Hbad.
    unfold Viewer.list_settle, Viewer.list_on_end. rewrite Hbad.
    settle_cases; eauto.
  - intros statusCode chunks detail Hbad (parsed & Hp & Hd).
    unfold Viewer.list_settle, Viewer.list_on_end.
    rewrite Hp, Hbad, Hd. reflexivity.
Qed.

Lemma get_handles URL_pathname auth mediaItemId :
  handles net (Viewer.getMediaItem net URL_pathname auth mediaItemId)
    "Get media item failed: " true.
Proof.
  apply (handles_by_shape _ (Viewer.get_request URL_pathname auth mediaItemId)
           Viewer.get_settle).
  - apply get_request_pure.
  - intros log. unfold Viewer.getMediaItem.
    destruct auth as [client|]; [left|right; eexists; reflexivity].
    unfold bind at 1.
    destruct (get_request_pure URL_pathname (Some client) mediaItemId log)
      as (o & -> & _).
    destruct o; reflexivity.
  - discriminate.
  - intros statusCode chunks a. unfold Viewer.get_settle, Viewer.get_on_end.
    settle_cases; congruence.
  - intros statusCode chunks e _ He.
    unfold Viewer.get_settle, Viewer.get_on_end. rewrite He. reflexivity.
  - intros statusCode chunks Hbad.
    unfold Viewer.get_settle, Viewer.get_on_end. rewrite Hbad.
    settle_cases; eauto.
  - intros statusCode chunks detail Hbad (parsed & Hp & Hd).
    unfold Viewer.get_settle, Viewer.get_on_end.
    rewrite Hp, Hbad, Hd. reflexivity.
Qed.

Lemma upload_handles readFile auth filePath :
  handles net (Uploader.uploadBytes net readFile auth filePath)
    "Upload failed: " false.
Proof.
  apply (handles_by_shape _ (Uploader.upload_request readFile auth filePath)
           Uploader.upload_settle).
  - apply upload_request_pure.
  - intros log. unfold Uploader.uploadBytes.
    destruct auth as [client|]; [left|right; eexists; reflexivity].
    unfold bind at 1.
    destruct (upload_request_pure readFile (Some client) filePath log)
      as (o & -> & _).
    destruct o; reflexivity.
  - discriminate.
  - intros statusCode chunks a. unfold Uploader.upload_settle.
    settle_cases; congruence.
  - discriminate.
  - intros statusCode chunks Hbad.
    unfold Uploader.upload_settle. rewrite Hbad. eauto.
  - intros statusCode chunks detail Hbad ->.
    unfold Uploader.upload_settle. rewrite Hbad. reflexivity.
Qed.

Lemma create_handles auth uploadTokens :
  handles net (Uploader.batchCreateMediaItems net auth uploadTokens)
    "BatchCreate failed: " true.
Proof.
  apply (handles_by_shape _ (Uploader.create_request auth uploadTokens)
           Uploader.batch_settle).
  - apply create_request_pure.
  - intros log. unfold Uploader.batchCreateMediaItems.
    destruct auth as [client|]; [left|right; eexists; reflexivity].
    unfold bind at 1.
    destruct (create_request_pure (Some client) uploadTokens log)
      as (o & -> & _).
    destruct o; reflexivity.
  - discriminate.
  - intros statusCode chunks a.
    unfold Uploader.batch_settle, Uploader.batch_on_end.
    settle_cases; congruence.
  - intros statusCode chunks e _ He.
    unfold Uploader.batch_settle, Uploader.batch_on_end.
    rewrite He. reflexivity.
  - intros statusCode chunks Hbad.
    unfold Uploader.batch_settle, Uploader.batch_on_end. rewrite Hbad.
    settle_cases; eauto.
  - intros statusCode chunks detail Hbad (parsed & Hp & Hd).
    unfold Uploader.batch_settle, Uploader.batch_on_end.
    rewrite Hp, Hbad, Hd. reflexivity.
Qed.

End WithNetwork.

(** C6, as the code has it.  Each of [listMediaItems], [getMediaItem],
    [uploadBytes] and [batchCreateMediaItems] sends at most one request
    per call and none again; it resolves only on a 2xx response; the
    three that parse the body do so before they look at the status, so a
    body that is not JSON rejects with "Failed to parse response: ..."
    whatever the status code; and on a status code outside 200-299 the
    operation rejects, with the operation's failure text, the status
    code and the error detail as message whenever the body parses and
    the detail can be read from it ([uploadBytes], which does not parse:
    always). *)
Theorem responses_handled `{Platform} (net : Https.Network)
    (URL_pathname : string -> string) (readFile : string -> string + string)
    (auth : option OAuthClient) :
  (forall options,
      handles net (Viewer.listMediaItems net auth options)
        "List request failed: " true)
  /\ (forall mediaItemId,
         handles net (Viewer.getMediaItem net URL_pathname auth mediaItemId)
           "Get media item failed: " true)
  /\ (forall filePath,
         handles net (Uploader.uploadBytes net readFile auth filePath)
           "Upload failed: " false)
  /\ (forall uploadTokens,
         handles net (Uploader.batchCreateMediaItems net auth uploadTokens)
           "BatchCreate failed: " true).
Proof.
  split; [|split; [|split]]; intros.
  - apply list_handles.
  - apply get_handles.
  - apply upload_handles.
  - apply create_handles.
Qed.

(** A run of C6: a 403 with a JSON error body rejects with a message
    that names the status code. *)
Lemma responses_handled_witness :
  fst (Viewer.listMediaItems (H := Reference.platform) Scenario.forbidden
         (Some Scenario.client)
         {| Viewer.pageSize := None; Viewer.pageToken := JS.Undefined |} [])
  = Rejected "List request failed: 403 - Forbidden"
  /\ includes "403" "List request failed: 403 - Forbidden" = true.
Proof.
  pose proof (proj1 (responses_handled (H := Reference.platform)
                       Scenario.forbidden (fun s => s) (fun _ => inr "")
                       (Some Scenario.client))
                {| Viewer.pageSize := None; Viewer.pageToken := JS.Undefined |}
                []) as (_ & _ & Hresponse).
  destruct (Hresponse
              (Pagination.request_for "ya29.a0-access" 25 JS.Undefined)
              (Some 403) _ eq_refl eq_refl) as (_ & Hbad).
  destruct (Hbad eq_refl) as (_ & Hdetail).
  apply (Hdetail "Forbidden").
  eexists. split; vm_compute; reflexivity.
Defined.

(** C6 as stated fails when a response is both outside 2xx and not
    JSON: the gateway answers 502 with an HTML page, and the rejection
    is the parse failure, which does not name the status code. *)
Lemma unparsable_error_response_hides_status :
  fst (Viewer.listMediaItems (H := Reference.platform) Scenario.bad_gateway
         (Some Scenario.client)
         {| Viewer.pageSize := None; Viewer.pageToken := JS.Undefined |} [])
  = Rejected "Failed to parse response: Unexpected token in JSON"
  /\ includes "502" "Failed to parse response: Unexpected token in JSON"
     = false.
Proof. split; vm_compute; reflexivity. Qed.

End ResponseFacts.

(** ** Uploading a file *)

Module UploadFacts.

Import Uploads.

Lemma pure_ret {W A : Type} (a : A) : pure (ret (S := W) a).
Proof. intros w. reflexivity. Qed.

Lemma pure_throw {W A : Type} (e : string) : pure (throw (S := W) (A := A) e).
Proof. intros w. reflexivity. Qed.

Lemma pure_lift {W A : Type} (r : A + string) : pure (lift (S := W) r).
Proof. destruct r; intros w; reflexivity. Qed.

Lemma pure_bind {W A B : Type} (m : Async W A) (k : A -> Async W B) :
  pure m -> (forall a, pure (k a)) -> pure (bind m k).
Proof.
  intros Hm Hk w. unfold bind. specialize (Hm w).
  destruct (m w) as [[a|e|] w']; cbn in Hm; subst w'; try reflexivity.
  apply Hk.
Qed.

Lemma pure_if {W A : Type} (b : bool) (m1 m2 : Async W A) :
  pure m1 -> pure m2 -> pure (if b then m1 else m2).
Proof. destruct b; auto. Qed.

Lemma pick_result_pure (response : JS.value) :
  pure (W := list Https.Request) (Uploader.pick_result response).
Proof.
  unfold Uploader.pick_result.
  repeat first
    [ apply pure_ret | apply pure_throw | apply pure_lift
    | apply pure_if | apply pure_bind | intros ? ].
Qed.

Section WithClient.

Context `{Platform}.
Context (net : Https.Network) (readFile : string -> string + string)
        (auth : option OAuthClient).

(** [uploadBytes] sends nothing, or one request to the upload
    endpoint, and on success returns the body of the reply. *)
Lemma upload_request_path filePath log request log' :
  Uploader.upload_request readFile auth filePath log
  = (Resolved request, log') ->
  Https.pathname request = "/v1/uploads".
Proof.
  unfold Uploader.upload_request, rethrow, bind, lift, ret, throw,
    getAccessToken.
  repeat case_match; intros; simplify_eq; reflexivity.
Qed.

Lemma create_request_registration uploadToken descr log request log' :
  Uploader.create_request auth
    [ {| Uploader.token := uploadToken;
         Uploader.fileName := "the cat to be uploaded";
         Uploader.description := descr |} ] log
  = (Resolved request, log') ->
  exists accessToken,
    request = registration accessToken uploadToken descr.
Proof.
  unfold Uploader.create_request, rethrow, bind, lift, ret, throw,
    getAccessToken.
  repeat case_match; intros; simplify_eq; eexists; reflexivity.
Qed.

Lemma uploadBytes_shape filePath log :
  (exists e, Uploader.uploadBytes net readFile auth filePath log
             = (Rejected e, log))
  \/ exists upload,
       Https.pathname upload = "/v1/uploads"
       /\ Uploader.uploadBytes net readFile auth filePath log
          = (Uploader.upload_settle (net log upload), log ++ [upload]).
Proof.
  unfold Uploader.uploadBytes.
  destruct auth as [client|] eqn:Hauth; [|left; eexists; reflexivity].
  cbv beta iota. rewrite <- Hauth. unfold bind, send, settle.
  destruct (ResponseFacts.upload_request_pure readFile auth filePath log)
    as (o & Hreq & Ho).
  rewrite Hreq.
  destruct o as [upload|e|]; [| |contradiction];
    [|left; eexists; reflexivity].
  right. exists upload. split; [|reflexivity].
  eapply upload_request_path, Hreq.
Qed.

Lemma batchCreate_shape uploadToken descr log :
  (exists e,
      Uploader.batchCreateMediaItems net auth
        [ {| Uploader.token := uploadToken;
             Uploader.fileName := "the cat to be uploaded";
             Uploader.description := descr |} ] log
      = (Rejected e, log))
  \/ exists accessToken,
       Uploader.batchCreateMediaItems net auth
         [ {| Uploader.token := uploadToken;
              Uploader.fileName := "the cat to be uploaded";
              Uploader.description := descr |} ] log
       = (Uploader.batch_settle
            (net log (registration accessToken uploadToken descr)),
          log ++ [registration accessToken uploadToken descr]).
Proof.
  unfold Uploader.batchCreateMediaItems.
  destruct auth as [client|] eqn:Hauth; [|left; eexists; reflexivity].
  cbv beta iota. rewrite <- Hauth. unfold bind, send, settle.
  destruct (ResponseFacts.create_request_pure auth
              [ {| Uploader.token := uploadToken;
                   Uploader.fileName := "the cat to be uploaded";
                   Uploader.description := descr |} ] log)
    as (o & Hreq & Ho).
  rewrite Hreq.
  destruct o as [request|e|]; [| |contradiction];
    [|left; eexists; reflexivity].
  destruct (create_request_registration _ _ _ _ _ Hreq) as [accessToken ->].
  right. exists accessToken. reflexivity.
Qed.

End WithClient.

(** C9: whatever the file path and the description, [uploadFile] sends
    nothing, or only the upload of the bytes, or the upload followed by
    one item-creation request; that request carries the fixed file name
    "the cat to be uploaded" with the upload token the first reply
    returned, and nothing of the file path; and whenever [uploadFile]
    succeeds both requests were sent. *)
Theorem uploadFile_registers_fixed_name `{Platform} (net : Https.Network)
    (readFile : string -> string + string) (auth : option OAuthClient)
    (filePath : string) (descr : option string)
    (log : list Https.Request) :
  let outcome := fst (Uploader.uploadFile net readFile auth filePath descr log) in
  let log' := snd (Uploader.uploadFile net readFile auth filePath descr log) in
  let created upload accessToken uploadToken :=
    Https.pathname upload = "/v1/uploads"
    /\ Uploader.upload_settle (net log upload) = Resolved uploadToken
    /\ log' = log ++ [upload; registration accessToken uploadToken descr] in
  ((exists e, outcome = Rejected e /\ log' = log)
   \/ (exists e upload,
          outcome = Rejected e /\ Https.pathname upload = "/v1/uploads"
          /\ log' = log ++ [upload])
   \/ (exists upload accessToken uploadToken,
          created upload accessToken uploadToken))
  /\ (forall mediaItem,
         outcome = Resolved mediaItem ->
         exists upload accessToken uploadToken,
           created upload accessToken uploadToken).
Proof.
  cbn zeta. unfold Uploader.uploadFile, rethrow, bind.
  destruct (uploadBytes_shape net readFile auth filePath log)
    as [[e ->] | (upload & Hpath & ->)].
  { split; [left; eauto|]. cbn. discriminate. }
  destruct (Uploader.upload_settle (net log upload)) as [uploadToken|e|] eqn:Hup.
  2:{ split; [right; left; eauto|]. cbn. discriminate. }
  2:{ unfold Uploader.upload_settle in Hup.
      destruct (net log upload); [discriminate|].
      destruct (Https.ok statusCode); discriminate. }
  destruct (batchCreate_shape net auth uploadToken descr (log ++ [upload]))
    as [[e ->] | (accessToken & ->)].
  { split; [right; left; eauto|]. cbn. discriminate. }
  assert (Hlog : forall o : Outcome JS.value,
             (log ++ [upload]) ++ [registration accessToken uploadToken descr]
             = log ++ [upload; registration accessToken uploadToken descr]).
  { intros _. rewrite <- app_assoc. reflexivity. }
  destruct (Uploader.batch_settle _) as [response|e|] eqn:Hbatch.
  - pose proof (pick_result_pure response
                  ((log ++ [upload])
                   ++ [registration accessToken uploadToken descr])) as Hpure.
    destruct (Uploader.pick_result response _) as [o w] eqn:Hpick.
    cbn in Hpure. subst w. rewrite (Hlog o).
    assert (Hc : exists upload0 accessToken0 uploadToken0,
               Https.pathname upload0 = "/v1/uploads"
               /\ Uploader.upload_settle (net log upload0)
                  = Resolved uploadToken0
               /\ log ++ [upload; registration accessToken uploadToken descr]
                  = log ++ [upload0;
                            registration accessToken0 uploadToken0 descr])
      by (exists upload, accessToken, uploadToken; auto).
    destruct o; cbn; split; auto.
  - rewrite (Hlog (Rejected e)). cbn. split; [|discriminate].
    right; right. exists upload, accessToken, uploadToken. auto.
  - rewrite (Hlog Pending). cbn. split; [|discriminate].
    right; right. exists upload, accessToken, uploadToken. auto.
Qed.

(** A run of C9: the picture [assets/cat.jpg] is uploaded and then
    registered under the fixed name. *)
Lemma uploadFile_registers_fixed_name_witness :
  exists upload accessToken uploadToken,
    Https.pathname upload = "/v1/uploads"
    /\ Uploader.upload_settle (Scenario.library [] upload)
       = Resolved uploadToken
    /\ snd (Uploader.uploadFile (H := Reference.platform) Scenario.library
              Scenario.pictures (Some Scenario.client) "assets/cat.jpg"
              (Some "A cute cat photo") [])
       = [] ++ [upload;
                registration (H := Reference.platform) accessToken
                  uploadToken (Some "A cute cat photo")].
Proof.
  refine (proj2 (uploadFile_registers_fixed_name (H := Reference.platform)
                   Scenario.library Scenario.pictures (Some Scenario.client)
                   "assets/cat.jpg" (Some "A cute cat photo") [])
            (JS.Obj [("id", JS.Str "item-1");
                     ("productUrl",
                      JS.Str "https://photos.google.com/lr/photo/item-1");
                     ("filename", JS.Str "the cat to be uploaded")]) _).
  vm_compute. reflexivity.
Defined.

End UploadFacts.

(** ** The token file *)

Module TokenFacts.

Import OnePassword.

Section WithPlatform.

Context `{Platform}.

Lemma writeFile_resolved path data fs fs' :
  Fs.writeFile path data fs = (Resolved tt, fs') ->
  fs' = {| Fs.dirs := Fs.dirs fs;
           Fs.files := <[path := data]> (Fs.files fs) |}.
Proof.
  unfold Fs.writeFile. repeat case_decide; intros [= <-]; reflexivity.
Qed.

Lemma writeFile_completes path data fs :
  NodePath.dirname path ∈ Fs.dirs fs ->
  path ∉ Fs.dirs fs ->
  Fs.writeFile path data fs
  = (Resolved tt, {| Fs.dirs := Fs.dirs fs;
                     Fs.files := <[path := data]> (Fs.files fs) |}).
Proof.
  intros Hdir Hfile. unfold Fs.writeFile.
  repeat case_decide; try contradiction; reflexivity.
Qed.

Lemma writeFile_outcome_only_dirs path data fs1 fs2 :
  Fs.dirs fs1 = Fs.dirs fs2 ->
  fst (Fs.writeFile path data fs1) = fst (Fs.writeFile path data fs2).
Proof.
  intros Hd. unfold Fs.writeFile. rewrite Hd.
  repeat case_decide; reflexivity.
Qed.

Lemma loadToken_total fs :
  exists v, loadToken fs = (Resolved v, fs).
Proof.
  unfold loadToken, recover, bind, Fs.readFile.
  destruct (Fs.files fs !! TOKEN_PATH) as [text|].
  - destruct (JSON_parse text) as [v|e]; cbn; eauto.
  - case_decide; eauto.
Qed.

End WithPlatform.

(** C4: when [saveToken] completes, the token file holds the JSON text
    of the new tokens and nothing else, every other file and the
    directories are as before, and the text that was in the file before
    has no influence: two disks that differ only in the old content of
    the token file end up equal.  [saveToken] completes whenever the
    token directory exists and the token path is not a directory.  The
    listener's handler stores the tokens of a successful exchange the
    same way. *)
Theorem saveToken_replaces_file `{Platform} (tokens : OAuthTokens)
    (fs : Fs.FS) :
  (forall fs',
      saveToken tokens fs = (Resolved tt, fs') ->
      Fs.files fs' !! TOKEN_PATH
      = Some (JSON_stringify (tokens_value tokens))
      /\ (forall path, path <> TOKEN_PATH ->
                       Fs.files fs' !! path = Fs.files fs !! path)
      /\ Fs.dirs fs' = Fs.dirs fs)
  /\ (forall previous1 previous2,
         let before1 :=
           {| Fs.dirs := Fs.dirs fs;
              Fs.files := <[TOKEN_PATH := previous1]> (Fs.files fs) |} in
         let before2 :=
           {| Fs.dirs := Fs.dirs fs;
              Fs.files := <[TOKEN_PATH := previous2]> (Fs.files fs) |} in
         fst (saveToken tokens before1) = fst (saveToken tokens before2)
         /\ (fst (saveToken tokens before1) = Resolved tt ->
             snd (saveToken tokens before1) = snd (saveToken tokens before2)))
  /\ (NodePath.dirname TOKEN_PATH ∈ Fs.dirs fs ->
      TOKEN_PATH ∉ Fs.dirs fs ->
      exists fs', saveToken tokens fs = (Resolved tt, fs'))
  /\ (forall st fs',
         (0 < Auth.exchanging st)%nat ->
         Auth.disk st = fs ->
         saveToken tokens fs = (Resolved tt, fs') ->
         Auth.disk (Auth.step st (Auth.Exchanged (inl tokens))) = fs').
Proof.
  unfold saveToken. split; [|split; [|split]].
  - intros fs' Hsave. apply writeFile_resolved in Hsave. subst fs'.
    cbn [Fs.dirs Fs.files].
    split; [apply lookup_insert_eq|]. split; [|reflexivity].
    intros path Hne. apply lookup_insert_ne. congruence.
  - intros previous1 previous2. cbn zeta. unfold Fs.writeFile.
    cbn [Fs.dirs Fs.files].
    repeat case_decide; cbn [fst snd]; (split; [reflexivity|]);
      try discriminate.
    intros _. rewrite !insert_insert_eq. reflexivity.
  - intros Hdir Hfile. eexists. apply writeFile_completes; assumption.
  - intros st fs' Hx Hdisk Hsave. cbn [Auth.step].
    destruct (Auth.exchanging st) as [|n]; [lia|].
    unfold Auth.complete. cbn [Auth.disk]. unfold saveToken.
    rewrite Hdisk, Hsave. reflexivity.
Qed.

(** A run of C4: the old file held a refresh token and a stray field;
    after the new tokens are saved the file is their JSON text alone. *)
Lemma saveToken_replaces_file_witness :
  Fs.files (snd (saveToken (H := Reference.platform) Scenario.fresh_tokens
                   Scenario.disk_with_old_token))
  !! "/home/user/.local/share/google-tasks-cli/token.json"
  = Some (Reference.stringify (tokens_value Scenario.fresh_tokens)).
Proof.
  refine (proj1 (proj1 (saveToken_replaces_file (H := Reference.platform)
                          Scenario.fresh_tokens Scenario.disk_with_old_token)
                   _ _)).
  vm_compute. reflexivity.
Defined.

(** C10: once [saveToken] has completed, [loadToken] returns the saved
    tokens, provided they survive serialization, that is, provided
    parsing their JSON text gives them back; and [loadToken] never
    rejects: it resolves with [null] when the token file is missing and
    when its text does not parse. *)
Theorem loadToken_after_saveToken `{Platform} (tokens : OAuthTokens)
    (fs : Fs.FS) :
  (forall fs',
      saveToken tokens fs = (Resolved tt, fs') ->
      JSON_parse (JSON_stringify (tokens_value tokens))
      = inl (tokens_value tokens) ->
      loadToken fs' = (Resolved (tokens_value tokens), fs'))
  /\ (Fs.files fs !! TOKEN_PATH = None ->
      loadToken fs = (Resolved JS.Null, fs))
  /\ (forall text e,
         Fs.files fs !! TOKEN_PATH = Some text ->
         JSON_parse text = inr e ->
         loadToken fs = (Resolved JS.Null, fs))
  /\ (exists v, loadToken fs = (Resolved v, fs)).
Proof.
  split; [|split; [|split]].
  - intros fs' Hsave Hsurvives. unfold saveToken in Hsave.
    apply writeFile_resolved in Hsave. subst fs'.
    unfold loadToken, recover, bind, Fs.readFile. cbn [Fs.dirs Fs.files].
    rewrite lookup_insert_eq. cbn [lift]. rewrite Hsurvives. reflexivity.
  - intros Hnone. unfold loadToken, recover, bind, Fs.readFile.
    rewrite Hnone. case_decide; reflexivity.
  - intros text e Hsome Hbad. unfold loadToken, recover, bind, Fs.readFile.
    rewrite Hsome, Hbad. reflexivity.
  - apply loadToken_total.
Qed.

(** A run of C10 on the reference platform. *)
Lemma loadToken_after_saveToken_witness :
  loadToken (H := Reference.platform)
    (snd (saveToken (H := Reference.platform) Scenario.fresh_tokens
            Scenario.disk_with_old_token))
  = (Resolved (tokens_value Scenario.fresh_tokens),
     snd (saveToken (H := Reference.platform) Scenario.fresh_tokens
            Scenario.disk_with_old_token)).
Proof.
  refine (proj1 (loadToken_after_saveToken (H := Reference.platform)
                   Scenario.fresh_tokens Scenario.disk_with_old_token)
            _ _ _).
  - vm_compute. reflexivity.
  - vm_compute. reflexivity.
Defined.

End TokenFacts.

(** ** The credential loader *)

Module CredentialFacts.

Import OnePassword.

Section WithPlatform.

Context `{Platform}.

Lemma mkdir_cases dir fs :
  (exists e, Fs.mkdir dir fs = (Rejected e, fs))
  \/ exists fs', Fs.mkdir dir fs = (Resolved tt, fs').
Proof.
  unfold Fs.mkdir. destruct (Fs.files fs !! dir); eauto.
Qed.

(** Without credentials [authorize] gives no client: it rejects when
    the token directory cannot be made and returns [null] when it
    can. *)
Lemma authorize_without_credentials execSync events fs :
  check1PasswordCLI execSync = false
  \/ getCredentialsFrom1Password execSync Auth.REDIRECT_URI = None ->
  (forall client,
      fst (Auth.authorize execSync events fs) <> Resolved (Some client))
  /\ (forall fs',
         ensureTokenDirectory fs = (Resolved tt, fs') ->
         Auth.authorize execSync events fs = (Resolved None, fs'))
  /\ (forall e fs',
         ensureTokenDirectory fs = (Rejected e, fs') ->
         Auth.authorize execSync events fs = (Rejected e, fs')).
Proof.
  intros Hno. unfold Auth.authorize, bind, ensureTokenDirectory.
  destruct (mkdir_cases (NodePath.dirname TOKEN_PATH) fs)
    as [[e ->] | [fs1 ->]].
  - split; [discriminate|]. split; [discriminate|].
    intros e' fs' [= <- <-]. reflexivity.
  - assert (Hnull :
      (if negb (check1PasswordCLI execSync)
       then ret None
       else
         match getCredentialsFrom1Password execSync Auth.REDIRECT_URI with
         | Some credentials =>
             fun s =>
               match
                 Auth.getNewToken
                   (new_OAuth2 (cred_client_id credentials)
                      (cred_client_secret credentials)
                      (hd "" (redirect_uris credentials))) events s
               with
               | (Resolved a, s') => ret (Some a) s'
               | (Rejected e, s') => (Rejected e, s')
               | (Pending, s') => (Pending, s')
               end
         | None => ret None
         end) fs1 = (Resolved None, fs1)).
    { destruct Hno as [-> | Hcred]; [reflexivity|].
      destruct (negb (check1PasswordCLI execSync)); [reflexivity|].
      rewrite Hcred. reflexivity. }
    rewrite Hnull. split; [discriminate|]. split; [|discriminate].
    intros fs' [= <-]. reflexivity.
Qed.

End WithPlatform.

(** C3, as the code has it.  When [check1PasswordCLI] returns false, or
    when one of the two [op item get] invocations fails, [authorize]
    produces no client: it returns [null] once [ensureTokenDirectory]
    has completed, and rejects with its error when that fails.  When
    an [op item get] invocation fails [getCredentialsFrom1Password]
    returns [null]; [check1PasswordCLI] has no part in that function. *)
Theorem credential_loader_fails_closed `{Platform}
    (execSync : Shell) (events : list Auth.Event) (fs : Fs.FS) :
  let get_fails :=
    (exists e, execSync client_id_command = inr e)
    \/ (exists e, execSync client_secret_command = inr e) in
  (get_fails ->
   forall redirectUri,
     getCredentialsFrom1Password execSync redirectUri = None)
  /\ (check1PasswordCLI execSync = false \/ get_fails ->
      (forall client,
          fst (Auth.authorize execSync events fs) <> Resolved (Some client))
      /\ (forall fs',
             ensureTokenDirectory fs = (Resolved tt, fs') ->
             Auth.authorize execSync events fs = (Resolved None, fs'))
      /\ (forall e fs',
             ensureTokenDirectory fs = (Rejected e, fs') ->
             Auth.authorize execSync events fs = (Rejected e, fs'))).
Proof.
  cbn zeta.
  assert (Hget : (exists e, execSync client_id_command = inr e)
                 \/ (exists e, execSync client_secret_command = inr e) ->
                 forall redirectUri,
                   getCredentialsFrom1Password execSync redirectUri = None).
  { intros [[e He] | [e He]] redirectUri;
      unfold getCredentialsFrom1Password; rewrite He;
      [reflexivity | destruct (execSync client_id_command); reflexivity]. }
  split; [exact Hget|].
  intros [Hcheck | Hfail]; apply authorize_without_credentials; auto.
Qed.

(** A run of C3: without the [op] command nothing is produced. *)
Lemma credential_loader_fails_closed_witness :
  getCredentialsFrom1Password (H := Reference.platform)
    Scenario.shell_without_op Auth.REDIRECT_URI = None
  /\ Auth.authorize (H := Reference.platform) Scenario.shell_without_op []
       Scenario.disk_with_old_token
     = (Resolved None, Scenario.disk_with_old_token).
Proof.
  pose proof (credential_loader_fails_closed (H := Reference.platform)
                Scenario.shell_without_op [] Scenario.disk_with_old_token)
    as [Hget Hauth].
  split.
  - apply Hget. left. eexists. reflexivity.
  - refine (proj1 (proj2 (Hauth _)) _ _).
    + left. reflexivity.
    + vm_compute. f_equal.
Defined.

(** C3 as stated fails twice.  With [op --version] failing
    [check1PasswordCLI] returns false, yet
    [getCredentialsFrom1Password] reads the two fields and returns
    credentials; and on a disk where a file blocks the token directory
    [authorize] rejects with the error of [mkdir] where the claim has
    it return [null]. *)
Lemma check_false_does_not_null_the_loader :
  check1PasswordCLI Scenario.shell_without_version = false
  /\ getCredentialsFrom1Password (H := Reference.platform)
       Scenario.shell_without_version Auth.REDIRECT_URI <> None
  /\ fst (Auth.authorize (H := Reference.platform)
            Scenario.shell_without_version [] Scenario.blocked_disk)
     = Rejected "EEXIST: file already exists, mkdir '/home/user/.local/share/google-tasks-cli'".
Proof.
  split; [reflexivity|]. split; [vm_compute; discriminate|].
  vm_compute. reflexivity.
Qed.

End CredentialFacts.

(** ** The redirect listener *)

Module ListenerFacts.

Import Auth.

Section WithPlatform.

Context `{Platform}.

Lemma complete_grows answer st :
  exists more, settles (complete answer st) = settles st ++ more.
Proof.
  unfold complete. destruct answer as [tokens|message].
  - destruct (OnePassword.saveToken tokens (disk st)) as [[[]|e|] fs'];
      cbn; eauto; exists nil; rewrite app_nil_r; reflexivity.
  - cbn. eauto.
Qed.

(** The calls that settle are only ever added to. *)
Lemma step_grows st ev :
  exists more, settles (step st ev) = settles st ++ more.
Proof.
  assert (Hnil : exists more, settles st = settles st ++ more)
    by (exists nil; rewrite app_nil_r; reflexivity).
  destruct ev as [|code error| |answer| |message]; cbn [step].
  - destruct (listening st); exact Hnil.
  - destruct (connections st); [exact Hnil|]. unfold handle.
    destruct (q_truthy error); [cbn; eauto|].
    destruct (negb (usable_code code)); [cbn; eauto|exact Hnil].
  - exact Hnil.
  - destruct (exchanging st); [exact Hnil|].
    apply (complete_grows answer
             {| listening := listening st;
                connections := connections st; settles := settles st;
                exchanging := n; timers := timers st; client := client st;
                sent := sent st; disk := disk st |}).
  - destruct (timers st); [exact Hnil|]. cbn. eauto.
  - cbn. eauto.
Qed.

Lemma run_grows events : forall st,
  exists more, settles (run st events) = settles st ++ more.
Proof.
  induction events as [|ev events IH]; intros st; cbn [run fold_left].
  - exists nil. rewrite app_nil_r. reflexivity.
  - destruct (step_grows st ev) as [more Hm].
    destruct (IH (step st ev)) as [more' Hm'].
    exists (more ++ more'). unfold run in Hm'.
    rewrite Hm', Hm, app_assoc. reflexivity.
Qed.

(** A server that is closed, with no connection open and no handler
    waiting, does nothing any more, except for the timers that are
    still to fire. *)
Lemma idle_step st ev :
  listening st = false -> connections st = O -> exchanging st = O ->
  listening (step st ev) = false
  /\ connections (step st ev) = O
  /\ exchanging (step st ev) = O
  /\ sent (step st ev) = sent st
  /\ client (step st ev) = client st
  /\ disk (step st ev) = disk st.
Proof.
  intros Hl Hc Hx.
  destruct ev as [|code error| |answer| |message]; cbn [step].
  - rewrite Hl. auto 10.
  - rewrite Hc. auto 10.
  - rewrite Hc. cbn. auto 10.
  - rewrite Hx. auto 10.
  - destruct (timers st); cbn; auto 10.
  - cbn. auto 10.
Qed.

Lemma idle_run events : forall st,
  listening st = false -> connections st = O -> exchanging st = O ->
  sent (run st events) = sent st
  /\ client (run st events) = client st
  /\ disk (run st events) = disk st.
Proof.
  induction events as [|ev events IH]; intros st Hl Hc Hx;
    cbn [run fold_left]; [auto|].
  destruct (idle_step st ev Hl Hc Hx) as (Hl' & Hc' & Hx' & Hs & Hcl & Hd).
  destruct (IH _ Hl' Hc' Hx') as (Hs' & Hcl' & Hd'). unfold run in *.
  split_and!; congruence.
Qed.

End WithPlatform.

(** C7, as the code has it.  A request that arrives on an open
    connection reaches the handler, whether or not the server still
    accepts new connections.  It is rejected at once, the server
    closed and [reject] called once, when it carries a provider error
    or no usable code; with a usable code the handler waits for the
    provider and settles nothing.  When the provider's answer comes,
    an error (or a failure to write the tokens) closes the server and
    calls [reject] once; a success settles nothing and closes nothing:
    it sets a timer, and only when that timer fires is the server
    closed and [resolve] called.  The promise is settled by the first
    of these calls and keeps that outcome.  Closing stops new
    connections only: a closed server takes no new connection, and
    once no connection is open and no handler is waiting it sends
    nothing more. *)
Theorem listener_settles_once `{Platform} (st : State) :
  ((0 < connections st)%nat ->
   forall code error,
     let st' := step st (Callback code error) in
     (q_truthy error = true ->
      rejects_and_closes st st' ("OAuth error: " +:+ q_text error))
     /\ (q_truthy error = false -> usable_code code = false ->
         rejects_and_closes st st' "No authorization code received")
     /\ (q_truthy error = false -> usable_code code = true ->
         settles st' = settles st /\ listening st' = listening st
         /\ exchanging st' = S (exchanging st)
         /\ timers st' = timers st))
  /\ ((0 < exchanging st)%nat ->
      forall answer,
        let st' := step st (Exchanged answer) in
        (forall message,
            answer = inr message -> rejects_and_closes st st' message)
        /\ (forall tokens message fs',
               answer = inl tokens ->
               OnePassword.saveToken tokens (disk st)
               = (Rejected message, fs') ->
               rejects_and_closes st st' message)
        /\ (forall tokens fs',
               answer = inl tokens ->
               OnePassword.saveToken tokens (disk st) = (Resolved tt, fs') ->
               settles st' = settles st
               /\ listening st' = listening st
               /\ timers st' = S (timers st)
               /\ client st' = setCredentials (client st) tokens
               /\ settles (step st' TimerFired) = settles st ++ [Resolve]
               /\ listening (step st' TimerFired) = false
               /\ timers (step st' TimerFired) = timers st))
  /\ (forall events,
         (settles st <> [] ->
          settled_by (run st events) = settled_by st)
         /\ (listening st = false -> connections st = O ->
             exchanging st = O ->
             sent (run st events) = sent st
             /\ client (run st events) = client st))
  /\ (listening st = false -> step st Connected = st).
Proof.
  unfold rejects_and_closes. split; [|split; [|split]].
  - intros Hc code error. cbn zeta. cbn [step].
    destruct (connections st) as [|n]; [lia|]. unfold handle.
    split; [|split].
    + intros ->. cbn. auto.
    + intros -> ->. cbn. auto.
    + intros -> ->. cbn. auto.
  - intros Hx answer. cbn zeta. cbn [step].
    destruct (exchanging st) as [|n]; [lia|]. unfold complete.
    cbn [disk client]. split; [|split].
    + intros message ->. cbn. auto.
    + intros tokens message fs' -> ->. cbn. auto.
    + intros tokens fs' -> ->. cbn. auto 10.
  - intros events. split.
    + intros Hne. destruct (run_grows events st) as [more Hm].
      unfold settled_by. rewrite Hm.
      destruct (settles st); [contradiction|reflexivity].
    + intros Hl Hc Hx.
      destruct (idle_run events st Hl Hc Hx) as (? & ? & ?). auto.
  - intros Hl. cbn [step]. rewrite Hl. reflexivity.
Qed.

(** A run of C7: the provider's refusal rejects and closes at once. *)
Lemma listener_settles_once_witness :
  rejects_and_closes
    (step (H := Reference.platform)
       (started Scenario.client Scenario.disk_with_old_token) Connected)
    (run (H := Reference.platform)
       (started Scenario.client Scenario.disk_with_old_token)
       [Connected; Scenario.refusal])
    "OAuth error: access_denied".
Proof.
  refine (proj1 (proj1 (listener_settles_once (H := Reference.platform)
                          (step (H := Reference.platform)
                             (started Scenario.client
                                Scenario.disk_with_old_token)
                             Connected))
                   _ Auth.QAbsent (Auth.QString "access_denied"))
            eq_refl).
  cbn. lia.
Defined.

(** C7 as stated fails on the successful exchange: after the handler has
    run to its end the server still listens and the promise is still
    pending; a second callback is then handled as well, and here it
    rejects the promise, so that the timer's [resolve] comes too late. *)
Lemma listener_stays_open_after_success :
  let after_success :=
    run (H := Reference.platform)
      (started Scenario.client Scenario.disk_with_old_token)
      [Connected; Scenario.approval; Scenario.granted] in
  sent after_success = [(200, AuthorizationSuccessful)]
  /\ listening after_success = true
  /\ promise after_success = Pending
  /\ length (sent (run (H := Reference.platform) after_success
                     [Connected; Scenario.refusal])) = 2%nat
  /\ promise (run (H := Reference.platform) after_success
                [Connected; Scenario.refusal; TimerFired])
     = Rejected "OAuth error: access_denied".
Proof. vm_compute. repeat split. Qed.

(** Nor is a closed server done with callbacks.  After a refusal has
    closed the server and rejected the promise, a request with a code
    on the connection that is still open is handled like the first:
    the code is exchanged, the token file is written anew and the
    success page is sent, while the promise stays rejected. *)
Lemma closed_listener_still_answers :
  let closed :=
    run (H := Reference.platform)
      (started Scenario.client Scenario.disk_with_old_token)
      [Connected; Scenario.refusal] in
  let later :=
    run (H := Reference.platform) closed
      [Scenario.approval; Scenario.granted; TimerFired] in
  listening closed = false
  /\ promise closed = Rejected "OAuth error: access_denied"
  /\ sent later = [(400, AuthorizationError "access_denied");
                   (200, AuthorizationSuccessful)]
  /\ Fs.files (disk later)
     !! "/home/user/.local/share/google-tasks-cli/token.json"
     = Some (Reference.stringify (tokens_value Scenario.fresh_tokens))
  /\ promise later = Rejected "OAuth error: access_denied".
Proof. vm_compute. repeat split. Qed.

End ListenerFacts.

(** ** The task display *)

Module TaskFacts.

Import Tasks TaskDisplay.

Lemma after_after w made1 lines1 n1 made2 lines2 n2 :
  after (after w made1 lines1 n1) made2 lines2 n2
  = after w (made1 ++ made2) (lines1 ++ lines2) n2.
Proof. unfold after. cbn. rewrite !app_assoc. reflexivity. Qed.

Lemma after_nothing w : after w [] [] (totalTasks w) = w.
Proof. destruct w. unfold after. cbn. rewrite !app_nil_r. reflexivity. Qed.

Lemma console_log_after line w :
  console_log line w = (Resolved tt, after w [] [line] (totalTasks w)).
Proof. unfold console_log, after. rewrite app_nil_r. reflexivity. Qed.

Section WithPlatform.

Context `{Platform}.

(** The fan-out makes one call per task list, in the order of the
    lists, and returns the results in that order. *)
Lemma all_getTasks service taskLists : forall w,
  all (map (fun taskList => getTasks service (id taskList)) taskLists) w
  = (Resolved (results service (calls w) taskLists),
     after w (map (fun taskList => ListTasks (id taskList)) taskLists) []
       (totalTasks w)).
Proof.
  induction taskLists as [|taskList rest IH]; intros w; cbn [map all results].
  - unfold ret. rewrite after_nothing. reflexivity.
  - unfold getTasks at 1. rewrite IH. cbn [called calls totalTasks].
    f_equal. unfold after, called. cbn.
    rewrite <- !app_assoc, !app_nil_r. reflexivity.
Qed.

Lemma forEach_links ls : forall i w,
  forEach (fun link (_ : nat) => console_log (link_line link)) i ls w
  = (Resolved tt, after w [] (map link_line ls) (totalTasks w)).
Proof.
  induction ls as [|link rest IH]; intros i w; cbn [forEach map].
  - unfold ret. rewrite after_nothing. reflexivity.
  - unfold bind. rewrite console_log_after, IH, after_after. reflexivity.
Qed.

Lemma show_task_after task taskIndex w :
  show_task task taskIndex w
  = (Resolved tt, after w [] (task_lines task taskIndex)
                    (S (totalTasks w))).
Proof.
  unfold show_task, task_lines, bind.
  rewrite console_log_after.
  destruct (links task) as [ls|].
  - rewrite console_log_after, forEach_links, !after_after. reflexivity.
  - reflexivity.
Qed.

Lemma forEach_show_task tasks : forall i w,
  forEach show_task i tasks w
  = (Resolved tt, after w [] (tasks_lines i tasks)
                    (totalTasks w + length tasks)).
Proof.
  induction tasks as [|task rest IH]; intros i w;
    cbn [forEach tasks_lines length].
  - unfold ret. rewrite Nat.add_0_r, after_nothing. reflexivity.
  - unfold bind. rewrite show_task_after, IH, after_after.
    cbn [after totalTasks]. f_equal. f_equal. lia.
Qed.

Lemma show_list_after allTasks taskList index tasks w :
  allTasks !! index = Some tasks ->
  show_list allTasks taskList index w
  = (Resolved tt, after w [] (block taskList tasks)
                    (totalTasks w + length tasks)).
Proof.
  intros Hlookup. unfold show_list. rewrite Hlookup.
  destruct tasks as [|task rest].
  - unfold ret. cbn. rewrite Nat.add_0_r, after_nothing. reflexivity.
  - unfold bind. rewrite !console_log_after, forEach_show_task.
    rewrite console_log_after, !after_after. reflexivity.
Qed.

Lemma forEach_show_list taskLists : forall front allTasks w,
  length allTasks = length taskLists ->
  forEach (show_list (front ++ allTasks)) (length front) taskLists w
  = (Resolved tt, after w [] (blocks taskLists allTasks)
                    (totalTasks w + total allTasks)).
Proof.
  induction taskLists as [|taskList rest IH];
    intros front allTasks w Hlen; destruct allTasks as [|tasks more];
    try discriminate; cbn [forEach blocks].
  - unfold ret, total. cbn. rewrite Nat.add_0_r, after_nothing. reflexivity.
  - unfold bind. rewrite (show_list_after _ _ _ tasks).
    2:{ rewrite lookup_app_r by lia. rewrite Nat.sub_diag. reflexivity. }
    replace (front ++ tasks :: more) with ((front ++ [tasks]) ++ more)
      by (rewrite <- app_assoc; reflexivity).
    replace (S (length front)) with (length (front ++ [tasks]))
      by (rewrite length_app; cbn; lia).
    rewrite IH by (cbn in Hlen; lia).
    rewrite after_after. unfold total. cbn [after totalTasks concat].
    rewrite length_app. f_equal. f_equal. lia.
Qed.

Lemma results_length service taskLists : forall made,
  length (results service made taskLists) = length taskLists.
Proof.
  induction taskLists as [|taskList rest IH]; intros made; cbn;
    [reflexivity | f_equal; apply IH].
Qed.

End WithPlatform.

Lemma totalTasks_after w made lines n : totalTasks (after w made lines n) = n.
Proof. reflexivity. Qed.

Lemma calls_after w made lines n :
  calls (after w made lines n) = calls w ++ made.
Proof. reflexivity. Qed.

Lemma bind_console_log {B : Type} line (k : unit -> Async World B) w :
  bind (console_log line) k w = k tt (after w [] [line] (totalTasks w)).
Proof. unfold bind. rewrite console_log_after. reflexivity. Qed.

Lemma bind_settle {A B : Type} (a : A) (k : A -> Async World B) w :
  bind (settle (Resolved a)) k w = k a w.
Proof. reflexivity. Qed.

Lemma bind_getTaskLists {B : Type} service
    (k : list TaskList -> Async World B) w :
  bind (getTaskLists service) k w
  = k (items_or_empty (tasklists_list service))
      (after w [ListTaskLists] [] (totalTasks w)).
Proof.
  unfold bind, getTaskLists, called, after. rewrite app_nil_r. reflexivity.
Qed.

Lemma bind_all_getTasks {B : Type} service taskLists
    (k : list (list Task) -> Async World B) w :
  bind (all (map (fun taskList => getTasks service (id taskList)) taskLists))
    k w
  = k (results service (calls w) taskLists)
      (after w (map (fun taskList => ListTasks (id taskList)) taskLists) []
         (totalTasks w)).
Proof. unfold bind. rewrite all_getTasks. reflexivity. Qed.

Lemma bind_set_totalTasks {B : Type} n (k : unit -> Async World B) w :
  bind (set_totalTasks n) k w = k tt (after w [] [] n).
Proof.
  unfold bind, set_totalTasks, after. rewrite !app_nil_r. reflexivity.
Qed.

Lemma bind_get_totalTasks {B : Type} (k : nat -> Async World B) w :
  bind get_totalTasks k w = k (totalTasks w) w.
Proof. reflexivity. Qed.

Lemma bind_forEach_show_list `{Platform} {B : Type} taskLists allTasks
    (k : unit -> Async World B) w :
  length allTasks = length taskLists ->
  bind (forEach (show_list allTasks) O taskLists) k w
  = k tt (after w [] (blocks taskLists allTasks)
            (totalTasks w + total allTasks)).
Proof.
  intros Hlen. unfold bind.
  rewrite (forEach_show_list taskLists [] allTasks w Hlen). reflexivity.
Qed.

Lemma results_lookup service taskLists : forall made i taskList,
  taskLists !! i = Some taskList ->
  results service made taskLists !! i
  = Some (items_or_empty
            (tasks_list service
               (made ++ map (fun t => ListTasks (id t)) (take i taskLists))
               (id taskList))).
Proof.
  induction taskLists as [|first rest IH]; intros made i taskList Hi;
    [discriminate|].
  destruct i as [|i]; cbn in Hi |- *.
  - injection Hi as ->. rewrite app_nil_r. reflexivity.
  - rewrite (IH _ _ _ Hi). rewrite <- app_assoc. reflexivity.
Qed.

Lemma main_nonempty `{Platform} (service : Service)
    (auth : OAuthClient) (w : World) (taskLists : list TaskList) :
  items_or_empty (tasklists_list service) = taskLists ->
  taskLists <> [] ->
  let allTasks := results service (calls w ++ [ListTaskLists]) taskLists in
  main (Resolved (Some auth)) service w
  = (Resolved tt,
     after w
       (ListTaskLists :: map (fun t => ListTasks (id t)) taskLists)
       (opening (length taskLists) ++ blocks taskLists allTasks
        ++ [summary (total allTasks)])
       (total allTasks)).
Proof.
  intros Hlists Hne. cbn zeta.
  unfold main.
  rewrite bind_console_log, bind_settle, bind_console_log, after_after.
  rewrite bind_getTaskLists, Hlists, after_after, totalTasks_after.
  destruct taskLists as [|first rest] eqn:Hshape; [contradiction|].
  rewrite <- Hshape in *. clear Hshape Hne.
  rewrite bind_console_log, after_after, totalTasks_after.
  rewrite bind_all_getTasks, after_after, totalTasks_after, calls_after.
  rewrite bind_console_log, after_after, totalTasks_after.
  rewrite bind_set_totalTasks, after_after.
  set (allTasks := results service _ taskLists).
  rewrite (bind_forEach_show_list taskLists allTasks)
    by apply results_length.
  rewrite after_after, totalTasks_after, bind_get_totalTasks.
  rewrite totalTasks_after. cbn [Nat.add].
  replace (match total allTasks with
           | O => console_log
                    "🎉 No pending tasks found! You're all caught up!"
           | S _ => console_log ("📊 Total pending tasks: "
                                 +:+ pretty (Z.of_nat (total allTasks)))
           end)
    with (console_log (summary (total allTasks)))
    by (unfold summary; destruct (total allTasks); reflexivity).
  rewrite console_log_after, after_after, totalTasks_after.
  unfold opening. cbn [app]. rewrite !app_nil_r. reflexivity.
Qed.

Lemma main_empty `{Platform} (service : Service) (auth : OAuthClient)
    (w : World) :
  items_or_empty (tasklists_list service) = [] ->
  calls (snd (main (Resolved (Some auth)) service w))
  = calls w ++ [ListTaskLists].
Proof.
  intros Hlists. unfold main.
  rewrite bind_console_log, bind_settle, bind_console_log, after_after.
  rewrite bind_getTaskLists, Hlists, after_after, totalTasks_after.
  rewrite console_log_after. cbn. rewrite !app_nil_r. reflexivity.
Qed.

(** C8: once authorized, [main] issues exactly one [getTasks] call per
    task list that [getTaskLists] returned, in the order of the lists,
    and no other; the jointly awaited results have the length of that
    array and the result at index [i] is the answer to the call made
    for [taskLists[i]]; and, when there is a task list at all, the
    display shows between the opening lines and the summary, for each
    task list in turn, the block built from that list and from the
    result at its own index.  The calls share nothing but the service
    they ask. *)
Theorem main_shows_each_list_its_own_tasks `{Platform} (service : Service)
    (auth : OAuthClient) (w : World) :
  let taskLists := items_or_empty (tasklists_list service) in
  let made := calls w ++ [ListTaskLists] in
  let allTasks := results service made taskLists in
  calls (snd (main (Resolved (Some auth)) service w))
  = made ++ map (fun t => ListTasks (id t)) taskLists
  /\ length allTasks = length taskLists
  /\ (forall i taskList,
         taskLists !! i = Some taskList ->
         allTasks !! i
         = Some (items_or_empty
                   (tasks_list service
                      (made ++ map (fun t => ListTasks (id t))
                                 (take i taskLists))
                      (id taskList))))
  /\ (taskLists <> [] ->
      main (Resolved (Some auth)) service w
      = (Resolved tt,
         after w
           (ListTaskLists :: map (fun t => ListTasks (id t)) taskLists)
           (opening (length taskLists) ++ blocks taskLists allTasks
            ++ [summary (total allTasks)])
           (total allTasks))).
Proof.
  cbn zeta.
  split; [|split; [apply results_length|split; [apply results_lookup|]]].
  - destruct (items_or_empty (tasklists_list service)) as [|first rest]
      eqn:Hlists.
    + rewrite (main_empty service auth w Hlists), app_nil_r. reflexivity.
    + rewrite (main_nonempty service auth w (first :: rest) Hlists)
        by discriminate.
      cbn [snd after calls]. rewrite <- app_assoc. reflexivity.
  - intros Hne. apply main_nonempty; [reflexivity | exact Hne].
Qed.

(** A run of C8: two task lists, two calls, each block with the tasks of
    its own list. *)
Lemma main_shows_each_list_its_own_tasks_witness :
  calls (snd (main (H := Reference.platform)
                (Resolved (Some Scenario.client)) Scenario.task_service
                Scenario.quiet))
  = [ListTaskLists; ListTasks (Has "L1"); ListTasks (Has "L2")]
  /\ stdout (snd (main (H := Reference.platform)
                    (Resolved (Some Scenario.client)) Scenario.task_service
                    Scenario.quiet))
     = opening 2
       ++ block (H := Reference.platform)
            {| id := Has "L1"; title := Has "Home" |}
            [Scenario.task "Water the plants"]
       ++ block (H := Reference.platform)
            {| id := Has "L2"; title := Has "Work" |}
            [Scenario.task "File the report"; Scenario.task "Book the room"]
       ++ [summary 3].
Proof.
  destruct (main_shows_each_list_its_own_tasks (H := Reference.platform)
              Scenario.task_service Scenario.client Scenario.quiet)
    as (_ & _ & _ & Hmain).
  rewrite Hmain by discriminate. split; vm_compute; reflexivity.
Defined.

End TaskFacts.

(** ** The task command: where it stops early *)

Module TaskEdgeFacts.

Import Tasks TaskDisplay TaskFacts.






End TaskEdgeFacts.

(** ** The authorization flow *)

Module FlowFacts.

Import Auth Flow.

Lemma promise_resolved st granted :
  promise st = Resolved granted ->
  granted = client st /\ In Resolve (settles st).
Proof.
  unfold promise. destruct (settles st) as [|[|message] rest];
    try discriminate.
  intros [= <-]. split; [reflexivity | left; reflexivity].
Qed.

Lemma setCredentials_again (c : OAuthClient) (t1 t2 : OAuthTokens) :
  setCredentials (setCredentials c t1) t2 = setCredentials c t2.
Proof. reflexivity. Qed.


Section WithPlatform.

Context `{Platform}.

(** [saveToken] either writes the file or leaves the disk as it is. *)
Lemma saveToken_cases tokens fs :
  (exists e,
      OnePassword.saveToken tokens fs = (Rejected e, fs)
      /\ ~ (NodePath.dirname TOKEN_PATH ∈ Fs.dirs fs
            /\ TOKEN_PATH ∉ Fs.dirs fs))
  \/ (OnePassword.saveToken tokens fs
      = (Resolved tt,
         {| Fs.dirs := Fs.dirs fs;
            Fs.files := <[TOKEN_PATH := JSON_stringify (tokens_value tokens)]>
                          (Fs.files fs) |})
      /\ NodePath.dirname TOKEN_PATH ∈ Fs.dirs fs
      /\ TOKEN_PATH ∉ Fs.dirs fs).
Proof.
  unfold OnePassword.saveToken, Fs.writeFile.
  repeat case_decide.
  - left. eexists. split; [reflexivity|]. tauto.
  - right. auto.
  - left. eexists. split; [reflexivity|]. tauto.
Qed.







End WithPlatform.





Section StoredToken.

Context `{Platform}.

Lemma with_token_file_written previous data fs :
  {| Fs.dirs := Fs.dirs (with_token_file previous fs);
     Fs.files := <[TOKEN_PATH := data]>
                   (Fs.files (with_token_file previous fs)) |}
  = {| Fs.dirs := Fs.dirs fs;
       Fs.files := <[TOKEN_PATH := data]> (Fs.files fs) |}.
Proof.
  unfold with_token_file. cbn [Fs.dirs Fs.files].
  rewrite insert_insert_eq. reflexivity.
Qed.

Lemma on_disk_same st : on_disk (disk st) st = st.
Proof. destruct st. reflexivity. Qed.

(** One event on a listener whose disk has another text in the
    token file: until an exchange goes through the two listeners
    differ in that text only, and from then on in nothing. *)
Lemma step_on_disk previous st ev :
  timers st = O -> ~ In Resolve (settles st) ->
  step (on_disk (with_token_file previous (disk st)) st) ev = step st ev
  \/ (step (on_disk (with_token_file previous (disk st)) st) ev
      = on_disk (with_token_file previous (disk (step st ev))) (step st ev)
      /\ timers (step st ev) = O
      /\ ~ In Resolve (settles (step st ev))).
Proof.
  intros Ht Hs.
  assert (Hrej : forall message,
             ~ In Resolve (settles st ++ [Reject message])).
  { intros message Hin. apply in_app_or in Hin as [Hin | [Habs|[]]];
      [contradiction | discriminate]. }
  destruct ev as [|code error| |answer| |message];
    cbn [step on_disk listening connections exchanging timers].
  - right. destruct (listening st); cbn; auto.
  - right. destruct (connections st); [auto|]. unfold handle.
    destruct (q_truthy error); [cbn; auto|].
    destruct (negb (usable_code code)); cbn; auto.
  - right. cbn. auto.
  - destruct (exchanging st) as [|n]; [right; auto|].
    destruct answer as [tokens|message]; [|right; cbn; auto].
    unfold complete. cbn [on_disk disk client settles timers listening
                          sent exchanging connections].
    destruct (saveToken_cases tokens (disk st))
      as [(e & Hsave & Hno) | (Hsave & Hdir & Hfile)];
      destruct (saveToken_cases tokens
                  (with_token_file previous (disk st)))
      as [(e' & Hsave' & Hno') | (Hsave' & Hdir' & Hfile')];
      rewrite Hsave, Hsave'.
    + assert (He : Rejected (A := unit) e' = Rejected e).
      { change (fst (Rejected (A := unit) e',
                     with_token_file previous (disk st))
                = fst (Rejected (A := unit) e, disk st)).
        rewrite <- Hsave, <- Hsave'.
        apply TokenFacts.writeFile_outcome_only_dirs. reflexivity. }
      injection He as ->. right. cbn. auto.
    + exfalso. apply Hno. auto.
    + exfalso. apply Hno'. auto.
    + left. rewrite with_token_file_written. reflexivity.
  - rewrite Ht. right. auto.
  - right. cbn. auto.
Qed.

Lemma run_on_disk previous events : forall st,
  timers st = O -> ~ In Resolve (settles st) ->
  run (on_disk (with_token_file previous (disk st)) st) events
  = run st events
  \/ (run (on_disk (with_token_file previous (disk st)) st) events
      = on_disk (with_token_file previous (disk (run st events)))
          (run st events)
      /\ ~ In Resolve (settles (run st events))).
Proof.
  induction events as [|ev events IH]; intros st Ht Hs;
    cbn [run fold_left]; [right; auto|].
  destruct (step_on_disk previous st ev Ht Hs) as [-> | (-> & Ht' & Hs')];
    [left; reflexivity|].
  apply (IH (step st ev) Ht' Hs').
Qed.

(** The flow on a disk with another text in the token file. *)
Lemma getNewToken_on_disk previous oAuth2Client events fs :
  fst (getNewToken oAuth2Client events (with_token_file previous fs))
  = fst (getNewToken oAuth2Client events fs)
  /\ (forall granted,
         fst (getNewToken oAuth2Client events fs) = Resolved granted ->
         snd (getNewToken oAuth2Client events (with_token_file previous fs))
         = snd (getNewToken oAuth2Client events fs)).
Proof.
  unfold getNewToken, startOAuthServer. cbn [fst snd].
  destruct (run_on_disk previous events (started oAuth2Client fs))
    as [Heq | (Heq & Hs)]; try (cbn; auto; intros []).
  - change (started oAuth2Client (with_token_file previous fs))
      with (on_disk (with_token_file previous
                       (disk (started oAuth2Client fs)))
              (started oAuth2Client fs)).
    rewrite Heq. auto.
  - change (started oAuth2Client (with_token_file previous fs))
      with (on_disk (with_token_file previous
                       (disk (started oAuth2Client fs)))
              (started oAuth2Client fs)).
    rewrite Heq. split; [reflexivity|].
    intros granted Hp. apply promise_resolved in Hp as [_ Hin].
    contradiction.
Qed.

End StoredToken.

(** X5.  [authorize] never reads the token file: it always goes
    through the authorization flow.  Whether there is a token file and
    what it holds changes nothing of how [authorize] settles; and when
    it resolves with a client, the disk it leaves is the same as
    well, the old text having been overwritten. *)
Theorem authorize_ignores_stored_token `{Platform}
    (execSync : OnePassword.Shell) (events : list Event) (fs : Fs.FS)
    (previous : string) :
  NodePath.dirname TOKEN_PATH <> TOKEN_PATH ->
  fst (authorize execSync events (with_token_file previous fs))
  = fst (authorize execSync events fs)
  /\ (forall granted,
         fst (authorize execSync events fs) = Resolved (Some granted) ->
         snd (authorize execSync events (with_token_file previous fs))
         = snd (authorize execSync events fs)).
Proof.
  intros Hpath.
  unfold authorize, bind, OnePassword.ensureTokenDirectory, Fs.mkdir.
  cbn [Fs.files Fs.dirs with_token_file].
  rewrite lookup_insert_ne by congruence.
  destruct (Fs.files fs !! NodePath.dirname TOKEN_PATH) as [blocking|].
  { cbn. split; [reflexivity | discriminate]. }
  destruct (negb (OnePassword.check1PasswordCLI execSync)).
  { cbn. split; [reflexivity | discriminate]. }
  destruct (OnePassword.getCredentialsFrom1Password execSync REDIRECT_URI)
    as [credentials|].
  2:{ cbn. split; [reflexivity | discriminate]. }
  set (oAuth2Client := new_OAuth2 _ _ _).
  set (fs1 := {| Fs.dirs := {[NodePath.dirname TOKEN_PATH]} ∪ Fs.dirs fs;
                 Fs.files := Fs.files fs |}).
  change {| Fs.dirs := {[NodePath.dirname TOKEN_PATH]} ∪ Fs.dirs fs;
            Fs.files := <[TOKEN_PATH := previous]> (Fs.files fs) |}
    with (with_token_file previous fs1).
  destruct (getNewToken_on_disk previous oAuth2Client events fs1)
    as [Hfst Hsnd].
  destruct (getNewToken oAuth2Client events (with_token_file previous fs1))
    as [o2 d2].
  destruct (getNewToken oAuth2Client events fs1) as [o1 d1].
  cbn [fst snd] in Hfst, Hsnd. subst o2.
  destruct o1 as [granted1|e|]; cbn; split; try reflexivity;
    try discriminate.
  intros granted _. apply (Hsnd granted1). reflexivity.
Qed.

(** A run of X5: the same flow on a disk with an old token file and on
    the disk without it. *)
Lemma authorize_ignores_stored_token_witness :
  fst (authorize (H := Reference.platform) Runs.shell Runs.approved
         (with_token_file (H := Reference.platform) "{}" Runs.fresh_disk))
  = fst (authorize (H := Reference.platform) Runs.shell Runs.approved
           Runs.fresh_disk)
  /\ snd (authorize (H := Reference.platform) Runs.shell Runs.approved
            (with_token_file (H := Reference.platform) "{}" Runs.fresh_disk))
     = snd (authorize (H := Reference.platform) Runs.shell Runs.approved
              Runs.fresh_disk).
Proof.
  pose proof (authorize_ignores_stored_token (H := Reference.platform)
                Runs.shell Runs.approved Runs.fresh_disk "{}")
    as Hrun.
  destruct Hrun as [Hfst Hsnd]; [vm_compute; discriminate|].
  split; [exact Hfst|].
  apply (Hsnd Runs.authorized_client). vm_compute. reflexivity.
Defined.

End FlowFacts.

(** ** [server.ts]: the stored token *)

Module ServerFacts.

Import Flow.

Section WithPlatform.

Context `{Platform}.

Lemma stored_token_cases fs :
  (exists text parsed,
      Fs.files fs !! TOKEN_PATH = Some text
      /\ JSON_parse text = inl parsed
      /\ Server.stored_token fs = (Resolved parsed, fs))
  \/ ((Fs.files fs !! TOKEN_PATH = None
       \/ exists text e, Fs.files fs !! TOKEN_PATH = Some text
                         /\ JSON_parse text = inr e)
      /\ exists e, Server.stored_token fs = (Rejected e, fs)).
Proof.
  unfold Server.stored_token, bind, Fs.readFile.
  destruct (Fs.files fs !! TOKEN_PATH) as [text|].
  - destruct (JSON_parse text) as [parsed|e] eqn:Hp; cbn.
    + left. exists text, parsed. auto.
    + right. split; [right|]; eauto.
  - right. split; [left; reflexivity|]. case_decide; eauto.
Qed.

Lemma credentials_shape execSync credentials :
  Server.getCredentialsFrom1Password execSync = Some credentials ->
  OnePassword.redirect_uris credentials = [Auth.REDIRECT_URI].
Proof.
  unfold Server.getCredentialsFrom1Password,
    OnePassword.getCredentialsFrom1Password.
  repeat case_match; intros [= <-]; reflexivity.
Qed.

End WithPlatform.

(** X6.  The [authorize] of [server.ts] goes to the token file only
    once it has the client credentials, and starts the authorization
    flow only when that file is of no use.  Without the 1Password CLI
    it returns [null], token file or not.  With the credentials and a
    token file that parses it returns at once a client made from the
    credentials, with whatever the file parsed to as its credentials,
    leaves the disk alone and takes no notice of what reaches the
    redirect listener.  With a token file that is missing or does not
    parse it does what [getNewToken] does. *)
Theorem authorize_tries_stored_token `{Platform}
    (execSync : OnePassword.Shell) (events : list Auth.Event) (fs : Fs.FS) :
  (OnePassword.check1PasswordCLI execSync = false ->
   Server.authorize execSync events fs = (Resolved None, fs))
  /\ (forall credentials,
         OnePassword.check1PasswordCLI execSync = true ->
         Server.getCredentialsFrom1Password execSync = Some credentials ->
         let oAuth2Client :=
           new_OAuth2 (OnePassword.cred_client_id credentials)
             (OnePassword.cred_client_secret credentials)
             "http://localhost:3000" in
         (forall text parsed,
             Fs.files fs !! TOKEN_PATH = Some text ->
             JSON_parse text = inl parsed ->
             Server.authorize execSync events fs
             = (Resolved
                  (Some {| Server.clientId :=
                             OnePassword.cred_client_id credentials;
                           Server.clientSecret :=
                             OnePassword.cred_client_secret credentials;
                           Server.redirectUri := "http://localhost:3000";
                           Server.stored := parsed |}), fs))
         /\ (Fs.files fs !! TOKEN_PATH = None
             \/ (exists text e, Fs.files fs !! TOKEN_PATH = Some text
                                /\ JSON_parse text = inr e) ->
             Server.authorize execSync events fs
             = match Auth.getNewToken oAuth2Client events fs with
               | (Resolved granted, fs') =>
                   (Resolved (Some (Server.flowed granted)), fs')
               | (Rejected e, fs') => (Rejected e, fs')
               | (Pending, fs') => (Pending, fs')
               end)).
Proof.
  split.
  - intros Hcheck. unfold Server.authorize. rewrite Hcheck. reflexivity.
  - intros credentials Hcheck Hcred. cbn zeta.
    unfold Server.authorize. rewrite Hcheck, Hcred. cbn [negb].
    rewrite (credentials_shape _ _ Hcred). cbn [hd].
    change Auth.REDIRECT_URI with "http://localhost:3000".
    destruct (stored_token_cases fs)
      as [(text & parsed & Hfile & Hparse & ->)
         | (Hbad & e & ->)].
    + split.
      * intros text' parsed' Hfile' Hparse'.
        rewrite Hfile in Hfile'. injection Hfile' as <-.
        rewrite Hparse in Hparse'. injection Hparse' as <-. reflexivity.
      * intros [Hnone | (text' & e & Hfile' & Hparse')].
        -- rewrite Hfile in Hnone. discriminate.
        -- rewrite Hfile in Hfile'. injection Hfile' as <-.
           rewrite Hparse in Hparse'. discriminate.
    + split.
      * intros text parsed Hfile Hparse.
        destruct Hbad as [Hnone | (text' & e' & Hfile' & Hparse')].
        -- rewrite Hfile in Hnone. discriminate.
        -- rewrite Hfile in Hfile'. injection Hfile' as <-.
           rewrite Hparse in Hparse'. discriminate.
      * intros _. unfold bind.
        destruct (Auth.getNewToken _ events fs) as [[granted|e'|] fs'];
          reflexivity.
Qed.

(** A run of X6: the token file of an earlier run is taken as it is,
    stray field and all. *)
Lemma authorize_tries_stored_token_witness :
  Server.authorize (H := Reference.platform) Runs.shell Runs.approved
    Scenario.disk_with_old_token
  = (Resolved
       (Some {| Server.clientId := "1234-abc.apps.googleusercontent.com";
                Server.clientSecret := "GOCSPX-secret";
                Server.redirectUri := "http://localhost:3000";
                Server.stored :=
                  JS.Obj [("access_token", JS.Str "ya29.old");
                          ("refresh_token", JS.Str "1//old-refresh");
                          ("legacy", JS.Bool true)] |}),
     Scenario.disk_with_old_token).
Proof.
  refine (proj1 (proj2 (authorize_tries_stored_token
                          (H := Reference.platform) Runs.shell
                          Runs.approved Scenario.disk_with_old_token)
                   {| OnePassword.cred_client_id :=
                        "1234-abc.apps.googleusercontent.com";
                      OnePassword.cred_client_secret := "GOCSPX-secret";
                      OnePassword.redirect_uris :=
                        ["http://localhost:3000"] |} _ _)
            (Reference.stringify
               (JS.Obj [("access_token", JS.Str "ya29.old");
                        ("refresh_token", JS.Str "1//old-refresh");
                        ("legacy", JS.Bool true)])) _ _ _);
    vm_compute; reflexivity.
Defined.



End ServerFacts.

(** ** The traffic of the Photos classes *)

Module TrafficFacts.

Import Traffic.

Lemma signed_out_none : signed_out None.
Proof. intros accessToken (client & Habs & _). discriminate. Qed.

Lemma sends_nothing {A : Type} auth (op : M A) :
  Uploads.pure op -> sends auth op.
Proof.
  intros Hpure log. exists nil. rewrite app_nil_r, Hpure. auto.
Qed.

Lemma sends_ret {A : Type} auth (a : A) : sends auth (ret a).
Proof. apply sends_nothing, UploadFacts.pure_ret. Qed.

Lemma sends_throw {A : Type} auth (e : string) :
  sends (A := A) auth (throw e).
Proof. apply sends_nothing, UploadFacts.pure_throw. Qed.

Lemma sends_lift {A : Type} auth (r : A + string) : sends auth (lift r).
Proof. apply sends_nothing, UploadFacts.pure_lift. Qed.

Lemma sends_settle {A : Type} auth (o : Outcome A) : sends auth (settle o).
Proof. apply sends_nothing. intros log. reflexivity. Qed.

Lemma sends_bind {A B : Type} auth (m : M A) (k : A -> M B) :
  sends auth m -> (forall a, sends auth (k a)) -> sends auth (bind m k).
Proof.
  intros Hm Hk log. unfold bind.
  destruct (Hm log) as (sent1 & Hsnd & Hall).
  destruct (m log) as [[a|e|] log1]; cbn [snd] in Hsnd; subst log1;
    [|exists sent1; auto|exists sent1; auto].
  destruct (Hk a (log ++ sent1)) as (sent2 & -> & Hall2).
  exists (sent1 ++ sent2). rewrite app_assoc. split; [reflexivity|].
  apply Forall_app; auto.
Qed.

Lemma sends_if {A : Type} auth (b : bool) (m1 m2 : M A) :
  sends auth m1 -> sends auth m2 -> sends auth (if b then m1 else m2).
Proof. destruct b; auto. Qed.

Lemma sends_rethrow {A : Type} auth wrap (m : M A) :
  sends auth m -> sends auth (rethrow wrap m).
Proof.
  intros Hm log. unfold rethrow. destruct (Hm log) as (sent & Hsnd & Hall).
  exists sent. destruct (m log) as [[a|e|] log1]; auto.
Qed.

Lemma refuses_throw {A : Type} auth (e : string) :
  refuses (A := A) auth (throw e).
Proof. intros _ log. exists e. reflexivity. Qed.

Lemma refuses_bind {A B : Type} auth (m : M A) (k : A -> M B) :
  refuses auth m -> refuses auth (bind m k).
Proof.
  intros Hm Hso log. destruct (Hm Hso log) as [e He].
  exists e. unfold bind. rewrite He. reflexivity.
Qed.

Lemma refuses_rethrow {A : Type} auth wrap (m : M A) :
  refuses auth m -> refuses auth (rethrow wrap m).
Proof.
  intros Hm Hso log. destruct (Hm Hso log) as [e He].
  exists (wrap e). unfold rethrow. rewrite He. reflexivity.
Qed.

Section WithNetwork.

Context `{Platform} (net : Https.Network).

(** An operation that builds one request and settles on the reply is
    guarded when the request it builds is authenticated. *)
Lemma guarded_by_shape {A : Type} auth (build : M Https.Request)
    (settle_on : Https.Reply -> Outcome A) :
  (forall log, exists o, build log = (o, log) /\ o <> Pending) ->
  (forall log request,
      build log = (Resolved request, log) -> authenticated auth request) ->
  guarded auth (request <- build ;;
                reply <- send net request ;;
                settle (settle_on reply)).
Proof.
  intros Hpure Hauth. split; intros log; [|intros Hlog; revert log Hlog].
  - unfold bind, send, settle.
    destruct (Hpure log) as (o & Hbuild & Hnp). rewrite Hbuild.
    destruct o as [request|e|]; [| |contradiction]; cbn.
    + exists [request]. split; [reflexivity|].
      constructor; [|constructor]. apply (Hauth log), Hbuild.
    + exists nil. rewrite app_nil_r. auto.
  - intros Hso log. unfold bind, send, settle.
    destruct (Hpure log) as (o & Hbuild & Hnp). rewrite Hbuild.
    destruct o as [request|e|]; [| |contradiction]; [|eauto].
    destruct (Hauth log request Hbuild) as (accessToken & Hin & _).
    destruct (Hso accessToken Hin).
Qed.

(** The access token that [getAccessToken] returns is the one the
    client is signed in with. *)
Lemma getAccessToken_signed_in auth log accessToken log' :
  getAccessToken auth log = (Resolved accessToken, log') ->
  Pagination.signed_in auth accessToken.
Proof.
  unfold getAccessToken, Pagination.signed_in.
  destruct auth as [client|]; [|discriminate].
  destruct (access_token (credentials client)) as [| |token] eqn:Htoken;
    try discriminate.
  destruct (nonempty token) eqn:Hne; [|discriminate].
  intros [= <- <-]. exists client. auto.
Qed.

Ltac authenticated_by Hget :=
  eexists; split;
  [ eapply getAccessToken_signed_in; exact Hget
  | split; reflexivity ].

Lemma list_request_authenticated auth options log request :
  Viewer.list_request auth options log = (Resolved request, log) ->
  authenticated auth request.
Proof.
  unfold Viewer.list_request, rethrow, bind.
  destruct (getAccessToken auth log) as [[accessToken|e|] log1] eqn:Hget;
    try discriminate.
  destruct (JS.truthy (Viewer.pageToken options)).
  - destruct (stringify (Viewer.pageToken options)) as [t|e]; cbn;
      [|discriminate].
    intros [= <- <-]. authenticated_by Hget.
  - cbn. intros [= <- <-]. authenticated_by Hget.
Qed.

Lemma get_request_authenticated URL_pathname auth mediaItemId log request :
  Viewer.get_request URL_pathname auth mediaItemId log
  = (Resolved request, log) ->
  authenticated auth request.
Proof.
  unfold Viewer.get_request, rethrow, bind.
  destruct (getAccessToken auth log) as [[accessToken|e|] log1] eqn:Hget;
    try discriminate.
  cbn. intros [= <- <-]. authenticated_by Hget.
Qed.

Lemma upload_request_authenticated readFile auth filePath log request :
  Uploader.upload_request readFile auth filePath log
  = (Resolved request, log) ->
  authenticated auth request.
Proof.
  unfold Uploader.upload_request, rethrow, bind.
  destruct (readFile filePath) as [fileBuffer|e]; cbn; [|discriminate].
  destruct (getAccessToken auth log) as [[accessToken|e|] log1] eqn:Hget;
    try discriminate.
  cbn. intros [= <- <-]. authenticated_by Hget.
Qed.

Lemma create_request_authenticated auth uploadTokens log request :
  Uploader.create_request auth uploadTokens log = (Resolved request, log) ->
  authenticated auth request.
Proof.
  unfold Uploader.create_request, rethrow, bind.
  destruct (getAccessToken auth log) as [[accessToken|e|] log1] eqn:Hget;
    try discriminate.
  cbn. intros [= <- <-]. authenticated_by Hget.
Qed.

Lemma guarded_unless_null {A : Type} (auth : option OAuthClient)
    (e : string) (op : M A) :
  guarded auth op ->
  guarded auth (match auth with
                | None => throw e
                | Some _ => op
                end).
Proof.
  destruct auth; [auto|]. intros _.
  split; [apply sends_throw | apply refuses_throw].
Qed.

Lemma listMediaItems_guarded auth options :
  guarded auth (Viewer.listMediaItems net auth options).
Proof.
  apply guarded_unless_null, guarded_by_shape.
  - apply ResponseFacts.list_request_pure.
  - apply list_request_authenticated.
Qed.

Lemma getMediaItem_guarded URL_pathname auth mediaItemId :
  guarded auth (Viewer.getMediaItem net URL_pathname auth mediaItemId).
Proof.
  apply guarded_unless_null, guarded_by_shape.
  - apply ResponseFacts.get_request_pure.
  - apply get_request_authenticated.
Qed.

Lemma uploadBytes_guarded readFile auth filePath :
  guarded auth (Uploader.uploadBytes net readFile auth filePath).
Proof.
  apply guarded_unless_null, guarded_by_shape.
  - apply ResponseFacts.upload_request_pure.
  - apply upload_request_authenticated.
Qed.

Lemma batchCreateMediaItems_guarded auth uploadTokens :
  guarded auth (Uploader.batchCreateMediaItems net auth uploadTokens).
Proof.
  apply guarded_unless_null, guarded_by_shape.
  - apply ResponseFacts.create_request_pure.
  - apply create_request_authenticated.
Qed.

Lemma listAll_loop_sends auth fuel : forall size allItems nextPageToken,
  sends auth (Viewer.listAll_loop net auth fuel size allItems
                nextPageToken).
Proof.
  induction fuel as [|fuel IH]; intros size allItems nextPageToken;
    cbn [Viewer.listAll_loop]; [apply sends_settle|].
  apply sends_bind; [apply listMediaItems_guarded|]. intros response.
  apply sends_bind; [apply sends_lift|]. intros mediaItems.
  apply sends_bind.
  { apply sends_if; [|apply sends_ret].
    apply sends_bind; [apply sends_lift|]. intros items. apply sends_ret. }
  intros allItems'.
  apply sends_bind; [apply sends_lift|]. intros nextPageToken'.
  apply sends_if; [apply IH | apply sends_ret].
Qed.

Lemma listAllMediaItems_guarded auth fuel size :
  guarded auth (Viewer.listAllMediaItems net auth (S fuel) size).
Proof.
  split; [apply listAll_loop_sends|].
  unfold Viewer.listAllMediaItems. cbn [Viewer.listAll_loop].
  apply refuses_bind, listMediaItems_guarded.
Qed.

Lemma uploadFile_guarded readFile auth filePath descr :
  guarded auth (Uploader.uploadFile net readFile auth filePath descr).
Proof.
  unfold Uploader.uploadFile. split.
  - apply sends_rethrow, sends_bind; [apply uploadBytes_guarded|].
    intros uploadToken.
    apply sends_bind; [apply batchCreateMediaItems_guarded|].
    intros response.
    apply sends_nothing, UploadFacts.pick_result_pure.
  - apply refuses_rethrow, refuses_bind, uploadBytes_guarded.
Qed.

End WithNetwork.

(** X8.  The viewer talks to the Photos API only as the signed-in
    client.  Every request that [listMediaItems], [getMediaItem] and
    [listAllMediaItems] send goes to [photoslibrary.googleapis.com]
    and carries, as its bearer token, the access token of the client
    the viewer holds; and when there is no client, or the client has
    no access token or an empty one, each of them rejects without
    sending anything. *)
Theorem viewer_sends_as_the_client `{Platform} (net : Https.Network)
    (URL_pathname : string -> string) (auth : option OAuthClient) :
  (forall options, guarded auth (Viewer.listMediaItems net auth options))
  /\ (forall mediaItemId,
         guarded auth
           (Viewer.getMediaItem net URL_pathname auth mediaItemId))
  /\ (forall fuel size,
         guarded auth (Viewer.listAllMediaItems net auth (S fuel) size)).
Proof.
  split; [|split]; intros.
  - apply listMediaItems_guarded.
  - apply getMediaItem_guarded.
  - apply listAllMediaItems_guarded.
Qed.

Lemma bare_client_signed_out : signed_out (Some Runs.bare_client).
Proof. intros accessToken (client & [= <-] & Habs & _). discriminate. Qed.

(** A run of X8: a client that never went through the authorization
    flow has no access token, and nothing is sent. *)
Lemma viewer_sends_as_the_client_witness :
  exists e,
    Viewer.listAllMediaItems (H := Reference.platform) Scenario.album_server
      (Some Runs.bare_client) 3 None []
    = (Rejected e, []).
Proof.
  exact (proj2 (proj2 (proj2 (viewer_sends_as_the_client
                                (H := Reference.platform)
                                Scenario.album_server (fun s => s)
                                (Some Runs.bare_client)))
                  2%nat None)
           bare_client_signed_out []).
Defined.

(** X9.  The uploader talks to the Photos API only as the signed-in
    client.  Every request that [uploadBytes], [batchCreateMediaItems]
    and [uploadFile] send goes to [photoslibrary.googleapis.com] and
    carries, as its bearer token, the access token of the client the
    uploader holds; and when there is no client, or the client has no
    access token or an empty one, each of them rejects without sending
    anything. *)
Theorem uploader_sends_as_the_client `{Platform} (net : Https.Network)
    (readFile : string -> string + string) (auth : option OAuthClient) :
  (forall filePath,
      guarded auth (Uploader.uploadBytes net readFile auth filePath))
  /\ (forall uploadTokens,
         guarded auth (Uploader.batchCreateMediaItems net auth uploadTokens))
  /\ (forall filePath descr,
         guarded auth (Uploader.uploadFile net readFile auth filePath descr)).
Proof.
  split; [|split]; intros.
  - apply uploadBytes_guarded.
  - apply batchCreateMediaItems_guarded.
  - apply uploadFile_guarded.
Qed.

(** A run of X9: without an access token the picture is read but
    not sent. *)
Lemma uploader_sends_as_the_client_witness :
  exists e,
    Uploader.uploadFile (H := Reference.platform) Scenario.library
      Scenario.pictures (Some Runs.bare_client) "assets/cat.jpg" None []
    = (Rejected e, []).
Proof.
  exact (proj2 (proj2 (proj2 (uploader_sends_as_the_client
                                (H := Reference.platform)
                                Scenario.library Scenario.pictures
                                (Some Runs.bare_client)))
                  "assets/cat.jpg" None)
           bare_client_signed_out []).
Defined.

End TrafficFacts.

(** ** The pagination loop: a page that fails *)

Module PaginationFailure.

Import Viewer Pagination PaginationFacts.

Section WithClient.

Context `{Platform}.
Context (net : Https.Network) (auth : option OAuthClient).

(** A turn of the loop whose request fails. *)
Lemma loop_turn_fails accessToken fuel size acc token log0 e :
  signed_in auth accessToken ->
  (token = JS.Undefined \/ exists t, token = JS.Str t) ->
  list_settle (net log0 (request_for accessToken size token))
  = Rejected e ->
  listAll_loop net auth (S fuel) size acc token log0
  = (Rejected e, log0 ++ [request_for accessToken size token]).
Proof.
  intros Hin Htoken Hfail. cbn [listAll_loop]. unfold bind at 1.
  pose proof (list_request_token auth _ size token log0 Hin Htoken)
    as Hreq.
  destruct Hin as (client & Hauth & _).
  unfold listMediaItems. rewrite Hauth in *.
  unfold bind, send, settle. rewrite Hreq, Hfail. reflexivity.
Qed.

Lemma loop_fails accessToken size e k :
  signed_in auth accessToken ->
  forall fuel acc token log0 pages,
  serves net accessToken size log0 token pages k ->
  (token = JS.Undefined \/ exists t, token = JS.Str t) ->
  (forall i, (i < k)%nat -> continues (pages i) = true) ->
  list_settle
    (net (log0 ++ requests_from accessToken size token
                    (first_pages pages k))
       (request_for accessToken size (token_at token pages k)))
  = Rejected e ->
  (k < fuel)%nat ->
  listAll_loop net auth fuel size acc token log0
  = (Rejected e,
     log0 ++ requests_from accessToken size token (first_pages pages k)
     ++ [request_for accessToken size (token_at token pages k)]).
Proof.
  intros Hin. induction k as [|k IH];
    intros fuel acc token log0 pages Hs Htoken Hall Hfail Hfuel;
    destruct fuel as [|fuel]; try lia.
  - cbn [first_pages seq map requests_from token_at app] in *.
    rewrite app_nil_r in Hfail.
    apply loop_turn_fails; assumption.
  - rewrite (loop_turn net auth accessToken _ _ _ _ _ pages k)
      by assumption.
    rewrite (Hall O) by lia.
    rewrite (IH _ _ _ _ (fun i => pages (S i))).
    + rewrite (first_pages_S pages k). cbn [requests_from].
      replace (token_at (token_of (pages O)) (fun i => pages (S i)) k)
        with (token_at token pages (S k)) by (destruct k; reflexivity).
      rewrite <- !app_assoc. reflexivity.
    + apply serves_next, Hs.
    + apply token_of_shape.
    + intros i Hi. apply Hall. lia.
    + replace (token_at (token_of (pages O)) (fun i => pages (S i)) k)
        with (token_at token pages (S k)) by (destruct k; reflexivity).
      rewrite (first_pages_S pages k) in Hfail. cbn [requests_from] in Hfail.
      rewrite <- app_assoc. exact Hfail.
    + lia.
Qed.

End WithClient.

(** X10.  [listAllMediaItems] gives up at the first page that fails.
    If the server answers the first [k] requests of the loop with
    pages that all carry a non-empty token and the request after them
    fails, in whatever way [listMediaItems] can fail on a reply, then
    [listAllMediaItems] rejects with exactly the error of that call,
    after [k + 1] requests and without another: the items of the pages
    it had collected are not returned. *)
Theorem listAllMediaItems_fails_with_the_page `{Platform}
    (net : Https.Network) (auth : option OAuthClient)
    (accessToken : string) (size : option Z) (log0 : list Https.Request)
    (pages : nat -> Page) (k fuel : nat) (e : string) :
  signed_in auth accessToken ->
  serves net accessToken (default 25 size) log0 JS.Undefined pages k ->
  (forall i, (i < k)%nat -> continues (pages i) = true) ->
  list_settle
    (net (log0 ++ requests_from accessToken (default 25 size) JS.Undefined
                    (first_pages pages k))
       (request_for accessToken (default 25 size)
          (token_at JS.Undefined pages k)))
  = Rejected e ->
  (k < fuel)%nat ->
  listAllMediaItems net auth fuel size log0
  = (Rejected e,
     log0 ++ requests_from accessToken (default 25 size) JS.Undefined
               (first_pages pages k)
     ++ [request_for accessToken (default 25 size)
           (token_at JS.Undefined pages k)]).
Proof.
  intros Hin Hs Hall Hfail Hfuel. unfold listAllMediaItems.
  apply (loop_fails net auth accessToken _ e k Hin); auto.
Qed.

(** A run of X10: the first page comes with two items and a token, the
    request for the second page is answered with a 500. *)
Lemma listAllMediaItems_fails_with_the_page_witness :
  listAllMediaItems (H := Reference.platform) Runs.flaky
    (Some Scenario.client) 10 None []
  = (Rejected "List request failed: 500 - Backend Error",
     [request_for "ya29.a0-access" 25 JS.Undefined;
      request_for "ya29.a0-access" 25 (JS.Str "page-2")]).
Proof.
  refine (listAllMediaItems_fails_with_the_page (H := Reference.platform)
            Runs.flaky (Some Scenario.client) "ya29.a0-access" None []
            Scenario.album 1 10 "List request failed: 500 - Backend Error"
            PaginationTheorems.scenario_signed_in _ _ _ _).
  - intros n Hn. exists (Some 200). eexists.
    destruct n as [|n]; [|lia].
    split; [reflexivity|]. split; vm_compute; reflexivity.
  - intros [|i] Hi; [reflexivity | lia].
  - vm_compute. reflexivity.
  - lia.
Defined.

End PaginationFailure.

(** ** Uploading a file: what comes back *)

Module UploadResultFacts.

Import Uploader.

(** X11.  [uploadFile] returns the media item of the first result and
    looks at no other.  Once the bytes are uploaded and the item
    creation has been answered, the outcome is read off the response:
    without a [newMediaItemResults] array, or with an empty one,
    [uploadFile] rejects with "No results returned from batchCreate";
    when the first result carries a media item, that item is returned,
    whatever results follow it; and when the first result carries
    none, [uploadFile] rejects with the message of that result's
    status, or with "Unknown error" when the status has no message.
    Every one of these rejections is prefixed with "Failed to upload
    file: ", and nothing more is sent. *)
Theorem uploadFile_returns_first_result `{Platform} (net : Https.Network)
    (readFile : string -> string + string) (auth : option OAuthClient)
    (filePath : string) (descr : option string)
    (log log1 log2 : list Https.Request) (uploadToken : string)
    (response : JS.value) :
  uploadBytes net readFile auth filePath log = (Resolved uploadToken, log1) ->
  batchCreateMediaItems net auth
    [ {| token := uploadToken; fileName := "the cat to be uploaded";
         description := descr |} ] log1
  = (Resolved response, log2) ->
  (forall results,
      JS.get response "newMediaItemResults" = inl results ->
      JS.truthy results = false \/ results = JS.Arr [] ->
      uploadFile net readFile auth filePath descr log
      = (Rejected
           "Failed to upload file: No results returned from batchCreate",
         log2))
  /\ (forall fields rest,
         JS.get response "newMediaItemResults"
         = inl (JS.Arr (JS.Obj fields :: rest)) ->
         (forall item,
             JS.assoc "mediaItem" fields = JS.Obj item ->
             JS.to_string (JS.assoc "id" item) <> None ->
             JS.to_string (JS.assoc "productUrl" item) <> None ->
             uploadFile net readFile auth filePath descr log
             = (Resolved (JS.Obj item), log2))
         /\ (forall status message,
                JS.truthy (JS.assoc "mediaItem" fields) = false ->
                JS.assoc "status" fields = JS.Obj status ->
                stringify (JS.or_else (JS.assoc "message" status)
                                      (JS.Str "Unknown error"))
                = inl message ->
                uploadFile net readFile auth filePath descr log
                = (Rejected
                     ("Failed to upload file: Failed to create media item: "
                      +:+ message),
                   log2))).
Proof.
  intros Hupload Hcreate.
  unfold uploadFile, rethrow, bind. rewrite Hupload, Hcreate.
  unfold pick_result, bind. split.
  - intros results Hresults Hempty. rewrite Hresults. cbn [lift].
    destruct Hempty as [Hfalsy | ->].
    + unfold ret at 1. rewrite Hfalsy. reflexivity.
    + reflexivity.
  - intros fields rest Hresults. rewrite Hresults. cbn [lift].
    unfold ret at 1. cbn [JS.truthy JS.get String.eqb Ascii.eqb Bool.eqb].
    cbn [lift ret length Z.of_nat JS.first hd negb JS.get].
    split.
    + intros item Hitem Hid Hurl. rewrite Hitem.
      cbn [lift ret JS.truthy JS.get]. unfold stringify.
      destruct (JS.to_string (JS.assoc "id" item)); [|contradiction].
      destruct (JS.to_string (JS.assoc "productUrl" item));
        [|contradiction].
      reflexivity.
    + intros status message Hnone Hstatus Hmessage.
      unfold ret at 1. rewrite Hnone, Hstatus.
      cbn [lift ret JS.get]. rewrite Hmessage. reflexivity.
Qed.

(** A run of X11: the library answers with one result that carries the
    created item. *)
Lemma uploadFile_returns_first_result_witness :
  uploadFile (H := Reference.platform) Scenario.library Scenario.pictures
    (Some Scenario.client) "assets/cat.jpg" None []
  = (Resolved
       (JS.Obj [("id", JS.Str "item-1");
                ("productUrl",
                 JS.Str "https://photos.google.com/lr/photo/item-1");
                ("filename", JS.Str "the cat to be uploaded")]),
     snd (uploadFile (H := Reference.platform) Scenario.library
            Scenario.pictures (Some Scenario.client) "assets/cat.jpg"
            None [])).
Proof.
  pose proof (uploadFile_returns_first_result (H := Reference.platform)
                Scenario.library Scenario.pictures (Some Scenario.client)
                "assets/cat.jpg" None []
                (snd (uploadBytes (H := Reference.platform) Scenario.library
                        Scenario.pictures (Some Scenario.client)
                        "assets/cat.jpg" []))
                (snd (uploadFile (H := Reference.platform) Scenario.library
                        Scenario.pictures (Some Scenario.client)
                        "assets/cat.jpg" None []))
                "CAIS-upload-token"
                (JS.Obj
                   [("newMediaItemResults",
                     JS.Arr
                       [JS.Obj
                          [("uploadToken", JS.Str "CAIS-upload-token");
                           ("status", JS.Obj [("message", JS.Str "Success")]);
                           ("mediaItem",
                            JS.Obj [("id", JS.Str "item-1");
                                    ("productUrl",
                                     JS.Str "https://photos.google.com/lr/photo/item-1");
                                    ("filename",
                                     JS.Str "the cat to be uploaded")])]])]))
    as Hrun.
  destruct Hrun as [_ Hfirst];
    [apply injective_projections; [vm_compute; reflexivity | reflexivity]
    |apply injective_projections; vm_compute; reflexivity|].
  refine (proj1 (Hfirst _ _ eq_refl) _ eq_refl _ _); discriminate.
Defined.

End UploadResultFacts.

(** ** File names: the last portion of a path and names without an
    extension *)

Module NameFacts.

Import NodePath PathFacts.

(** The characters of [a +:+ b], last one first: those of [b],
    numbered from the length of [a], then those of [a]. *)
Lemma backwards_from (a b : string) :
  backwards (a +:+ b)
  = rev (imap (fun i x => (Z.of_nat (String.length a) + Z.of_nat i, x))
           (list_ascii_of_string b))
    ++ backwards a.
Proof.
  rewrite backwards_app. f_equal. f_equal. apply imap_ext.
  intros i x _. f_equal. lia.
Qed.

Lemma indexed_snd {A : Type} (P : A -> Prop) (n : Z) (l : list A) :
  Forall P l ->
  Forall (fun ic => P (snd ic))
    (imap (fun i x => (n + Z.of_nat i, x)) l).
Proof.
  intros Hall. apply Forall_forall. intros [i y] Hin.
  apply elem_of_lookup_imap in Hin as (j & z & Heq & Hz).
  injection Heq as -> ->. cbn [snd].
  eapply Forall_forall in Hall; [exact Hall|].
  eapply list_elem_of_lookup_2. exact Hz.
Qed.

(** *** [basename] *)

Lemma base_run (l : list (Z * ascii)) : forall st,
  Forall (fun ic => snd ic <> slash) l ->
  base_break st = false -> base_end st <> -1 ->
  fold_left base_step l st = st.
Proof.
  induction l as [|[i c] l IH]; intros st Hall Hb He; [reflexivity|].
  inversion Hall as [|? ? Hs Hrest]; subst. cbn [fold_left snd] in *.
  assert (Hstep : base_step st (i, c) = st).
  { unfold base_step. rewrite Hb, (proj2 (Ascii.eqb_neq _ _) Hs),
      (proj2 (Z.eqb_neq _ _) He). reflexivity. }
  rewrite Hstep. apply IH; assumption.
Qed.

Lemma base_broken (l : list (Z * ascii)) : forall st,
  base_break st = true -> fold_left base_step l st = st.
Proof.
  induction l as [|[i c] l IH]; intros st Hb; [reflexivity|].
  cbn [fold_left]. unfold base_step at 2. rewrite Hb. apply IH, Hb.
Qed.

(** The state of the loop of [basename] after the characters of a
    name without separators that starts at [n]. *)
Lemma base_name (name : string) (n : Z) :
  0 <= n ->
  name <> "" ->
  Forall (fun x => x <> slash) (list_ascii_of_string name) ->
  fold_left base_step
    (rev (imap (fun i x => (n + Z.of_nat i, x)) (list_ascii_of_string name)))
    {| base_start := 0; base_end := -1; base_matchedSlash := true;
       base_break := false |}
  = {| base_start := 0; base_end := n + Z.of_nat (String.length name);
       base_matchedSlash := false; base_break := false |}.
Proof.
  intros Hn Hname Hplain.
  assert (Hlen := list_ascii_length name).
  destruct (list_ascii_of_string name) as [|x xs] eqn:Hxs using rev_ind.
  - destruct name; [contradiction|discriminate].
  - clear IHxs. apply Forall_app in Hplain as [Hxs' Hx].
    inversion Hx as [|? ? Hx1 _]; subst.
    rewrite imap_app, rev_app_distr. cbn [imap rev app fold_left].
    rewrite length_app in Hlen. cbn [length] in Hlen.
    replace (base_step _ (n + Z.of_nat (length xs + 0), x))
      with {| base_start := 0;
              base_end := n + Z.of_nat (String.length name);
              base_matchedSlash := false; base_break := false |}.
    2:{ unfold base_step. cbn.
        rewrite (proj2 (Ascii.eqb_neq _ _) Hx1). cbn. f_equal. lia. }
    apply base_run; cbn; try reflexivity; try lia.
    apply Forall_rev. apply (indexed_snd (fun x => x <> slash)), Hxs'.
Qed.

Lemma slice_skip (a b : string) (from to : Z) :
  from = Z.of_nat (String.length a) ->
  to = Z.of_nat (String.length a) + Z.of_nat (String.length b) ->
  b <> "" ->
  slice (a +:+ b) from to = b.
Proof.
  intros -> -> Hb. unfold slice.
  assert (Hpos : (0 < String.length b)%nat)
    by (destruct b; [contradiction | cbn; lia]).
  rewrite (proj2 (Z.leb_gt _ _)) by lia.
  replace (Z.to_nat (Z.of_nat (String.length a)))
    with (String.length a) by lia.
  replace (Z.to_nat (Z.of_nat (String.length a)
                     + Z.of_nat (String.length b)
                     - Z.of_nat (String.length a)))
    with (String.length b) by lia.
  apply substring_skip.
Qed.

(** The last portion of a path that ends in a name. *)
Lemma basename_of_name (directory name : string) :
  name <> "" ->
  Forall (fun x => x <> slash) (list_ascii_of_string name) ->
  basename (directory +:+ String slash name) = name
  /\ basename name = name.
Proof.
  intros Hname Hplain. unfold basename.
  assert (Hpos : (0 < String.length name)%nat)
    by (destruct name; [contradiction | cbn; lia]).
  split.
  - replace (directory +:+ String slash name)
      with ((directory +:+ String slash "") +:+ name)
      by (rewrite string_app_assoc; reflexivity).
    rewrite backwards_from. rewrite (backwards_from directory).
    cbn [list_ascii_of_string imap rev app].
    rewrite !fold_left_app. rewrite base_name by (try assumption; lia).
    cbn [fold_left].
    assert (Hlen : String.length (directory +:+ String slash "")
                   = S (String.length directory)).
    { rewrite string_length_app. cbn. lia. }
    set (e := Z.of_nat (String.length (directory +:+ String slash ""))
              + Z.of_nat (String.length name)).
    set (i := Z.of_nat (String.length directory) + Z.of_nat 0).
    replace (base_step {| base_start := 0; base_end := e;
                          base_matchedSlash := false;
                          base_break := false |} (i, slash))
      with {| base_start := i + 1; base_end := e;
              base_matchedSlash := false; base_break := true |}
      by reflexivity.
    rewrite base_broken by reflexivity.
    cbn [base_break base_matchedSlash base_end base_start].
    rewrite (proj2 (Z.eqb_neq e (-1))) by (unfold e; lia).
    apply slice_skip; [unfold i; lia | reflexivity | assumption].
  - change (backwards name)
      with (rev (imap (fun i x => (0 + Z.of_nat i, x))
                   (list_ascii_of_string name))).
    rewrite base_name by (try assumption; lia).
    cbn [base_break base_matchedSlash base_end base_start].
    rewrite (proj2 (Z.eqb_neq _ (-1))) by lia.
    apply (slice_skip "" name); [reflexivity | reflexivity | assumption].
Qed.

(** *** [extname] *)

Lemma ext_no_dot (l : list (Z * ascii)) : forall st,
  Forall (fun ic => snd ic <> dot) l ->
  startDot st = -1 ->
  startDot (fold_left ext_step l st) = -1.
Proof.
  induction l as [|[i c] l IH]; intros st Hall Hd; [exact Hd|].
  inversion Hall as [|? ? Hc Hrest]; subst. cbn [fold_left snd] in *.
  apply IH; [assumption|]. unfold ext_step.
  rewrite (proj2 (Ascii.eqb_neq _ _) Hc).
  repeat case_match; cbn; assumption.
Qed.

Lemma ext_broken (l : list (Z * ascii)) : forall st,
  ext_break st = true -> fold_left ext_step l st = st.
Proof.
  induction l as [|[i c] l IH]; intros st Hb; [reflexivity|].
  cbn [fold_left]. unfold ext_step at 2. rewrite Hb. apply IH, Hb.
Qed.

(** Plain characters before any dot leave the loop of [extname]
    without a dot, and with the end of the name marked. *)
Lemma ext_plain_keeps (l : list (Z * ascii)) : forall st,
  Forall (fun ic => snd ic <> slash /\ snd ic <> dot) l ->
  startDot st = -1 -> preDotState st = 0 -> ext_break st = false ->
  (ext_end st <> -1 -> ext_matchedSlash st = false) ->
  let st' := fold_left ext_step l st in
  startDot st' = -1 /\ preDotState st' = 0 /\ ext_break st' = false
  /\ (ext_end st' <> -1 -> ext_matchedSlash st' = false).
Proof.
  induction l as [|[i c] l IH]; intros st Hall Hd Hp Hb Hm; cbn zeta;
    [auto|].
  inversion Hall as [|? ? [Hs Hdot] Hrest]; subst. cbn [fold_left snd] in *.
  apply IH; try assumption; unfold ext_step;
    rewrite Hb, (proj2 (Ascii.eqb_neq _ _) Hs),
      (proj2 (Ascii.eqb_neq _ _) Hdot);
    repeat case_match; cbn; auto; try congruence;
    match goal with
    | Hn : negb (_ =? -1) = true |- _ =>
        cbn in Hn; rewrite Hd in Hn; discriminate
    end.
Qed.

(** A name that is a dot followed by plain characters, at the start
    of the path or right after a separator, has no extension. *)
Lemma extname_hidden (rest : string) :
  Forall (fun x => x <> slash /\ x <> dot) (list_ascii_of_string rest) ->
  (forall directory,
      extname (directory +:+ String slash (String dot rest)) = "")
  /\ extname (String dot rest) = "".
Proof.
  intros Hplain.
  assert (Hrun : forall n, 0 <= n ->
    let st := fold_left ext_step
                (rev (imap (fun i x => (n + Z.of_nat i, x))
                        (list_ascii_of_string (String dot rest))))
                ext_init in
    startDot st <> -1 /\ preDotState st = 0 /\ ext_break st = false
    /\ ext_matchedSlash st = false /\ ext_end st <> -1).
  { intros n Hn. cbn zeta. cbn [list_ascii_of_string imap].
    change (rev ((n + Z.of_nat 0, dot)
                 :: imap ((fun i x => (n + Z.of_nat i, x)) ∘ S)
                      (list_ascii_of_string rest)))
      with (rev (imap ((fun i x => (n + Z.of_nat i, x)) ∘ S)
                   (list_ascii_of_string rest))
            ++ [(n + Z.of_nat 0, dot)]).
    rewrite fold_left_app. cbn [fold_left].
    destruct (ext_plain_keeps
                (rev (imap ((fun i x => (n + Z.of_nat i, x)) ∘ S)
                        (list_ascii_of_string rest))) ext_init)
      as (Hd & Hp & Hb & Hm); try reflexivity.
    { apply Forall_rev.
      rewrite (imap_ext _ (fun i x => (n + 1 + Z.of_nat i, x)))
        by (intros; unfold compose; f_equal; lia).
      apply (indexed_snd (fun x => x <> slash /\ x <> dot)), Hplain. }
    { intros Habs. contradiction. }
    set (st1 := fold_left ext_step _ ext_init) in *.
    unfold ext_step. rewrite Hb.
    replace (Ascii.eqb dot slash) with false by reflexivity.
    rewrite Ascii.eqb_refl.
    destruct (ext_end st1 =? -1) eqn:He;
      cbn [startDot startPart ext_end ext_matchedSlash preDotState
           ext_break];
      rewrite Hd; change (-1 =? -1) with true; cbv iota;
      cbn [startDot startPart ext_end ext_matchedSlash preDotState
           ext_break].
    - split_and!; auto; lia.
    - apply Z.eqb_neq in He. split_and!; auto; lia. }
  split.
  - intros directory. unfold extname.
    replace (directory +:+ String slash (String dot rest))
      with ((directory +:+ String slash "") +:+ String dot rest)
      by (rewrite string_app_assoc; reflexivity).
    rewrite backwards_from, (backwards_from directory).
    rewrite !fold_left_app.
    destruct (Hrun (Z.of_nat (String.length (directory +:+ String slash ""))))
      as (Hd & Hp & Hb & Hm & He); [lia|].
    set (st := fold_left ext_step _ ext_init) in *.
    cbn [list_ascii_of_string imap rev app fold_left].
    match goal with
    | |- context [ext_step st (?i, slash)] =>
        replace (ext_step st (i, slash))
          with {| startDot := startDot st; startPart := i + 1;
                  ext_end := ext_end st;
                  ext_matchedSlash := ext_matchedSlash st;
                  preDotState := preDotState st; ext_break := true |}
          by (unfold ext_step; rewrite Hb, Hm; reflexivity)
    end.
    rewrite ext_broken by reflexivity.
    cbn [startDot startPart ext_end ext_matchedSlash preDotState ext_break].
    rewrite Hp. change (0 =? 0) with true. rewrite !orb_true_r. reflexivity.
  - unfold extname.
    destruct (Hrun 0) as (Hd & Hp & Hb & Hm & He); [lia|].
    change (backwards (String dot rest))
      with (rev (imap (fun i x => (0 + Z.of_nat i, x))
                   (list_ascii_of_string (String dot rest)))).
    rewrite Hp. change (0 =? 0) with true. rewrite !orb_true_r. reflexivity.
Qed.

Lemma extname_no_dot (path : string) :
  Forall (fun x => x <> dot) (list_ascii_of_string path) ->
  extname path = "".
Proof.
  intros Hplain. unfold extname.
  rewrite ext_no_dot; [reflexivity| |reflexivity].
  unfold backwards. apply Forall_rev.
  change (imap (fun i c => (Z.of_nat i, c)) (list_ascii_of_string path))
    with (imap (fun i c => (0 + Z.of_nat i, c)) (list_ascii_of_string path)).
  apply (indexed_snd (fun x => x <> dot)), Hplain.
Qed.

End NameFacts.

(** ** What an upload announces *)

Module UploadNameFacts.

Import Traffic.

(** X12.  What [uploadBytes] sends is the file, announced by its name
    alone.  For a path that ends in a separator and a name, the one
    request [uploadBytes] sends is a POST to [/v1/uploads] whose body
    is the content of the file as read, with the number of its bytes
    as [Content-Length], the raw protocol, and as content type the one
    [getMimeType] gives the name: the directory the file is in plays
    no part. *)
Theorem uploadBytes_announces_the_name `{Platform} (net : Https.Network)
    (readFile : string -> string + string) (auth : option OAuthClient)
    (directory name : string) (log : list Https.Request)
    (outcome : Outcome string) (request : Https.Request) :
  name <> "" ->
  Forall (fun x => x <> NodePath.slash) (list_ascii_of_string name) ->
  Uploader.uploadBytes net readFile auth
    (directory +:+ String NodePath.slash name) log
  = (outcome, log ++ [request]) ->
  exists fileBuffer,
    readFile (directory +:+ String NodePath.slash name) = inl fileBuffer
    /\ Https.method request = "POST"
    /\ Https.pathname request = "/v1/uploads"
    /\ Https.body request = Some fileBuffer
    /\ header "Content-Length" (Https.headers request)
       = Some (pretty (Z.of_nat (String.length fileBuffer)))
    /\ header "X-Goog-Upload-Protocol" (Https.headers request) = Some "raw"
    /\ header "X-Goog-Upload-Content-Type" (Https.headers request)
       = Some (Uploader.getMimeType name).
Proof.
  intros Hname Hplain. unfold Uploader.uploadBytes.
  destruct auth as [client|].
  2:{ intros [= _ Hlog]. symmetry in Hlog.
      destruct (ResponseFacts.app_self_one _ _ Hlog). }
  unfold bind, send, settle, Uploader.upload_request, rethrow, lift.
  destruct (readFile (directory +:+ String NodePath.slash name))
    as [fileBuffer|e]; cbn [bind ret throw].
  2:{ intros [= _ Hlog]. symmetry in Hlog.
      destruct (ResponseFacts.app_self_one _ _ Hlog). }
  unfold bind, ret.
  destruct (ResponseFacts.getAccessToken_pure (Some client) log)
    as (o & -> & Ho).
  destruct o as [accessToken|e|]; [| |contradiction].
  2:{ intros [= _ Hlog]. symmetry in Hlog.
      destruct (ResponseFacts.app_self_one _ _ Hlog). }
  intros [= _ Hlog]. apply ResponseFacts.app_inv_one in Hlog. subst request.
  exists fileBuffer.
  rewrite (proj1 (NameFacts.basename_of_name directory name Hname Hplain)).
  split_and!; reflexivity.
Qed.

(** A run of X12: the picture of the cat. *)
Lemma uploadBytes_announces_the_name_witness :
  exists request,
    snd (Uploader.uploadBytes (H := Reference.platform) Scenario.library
           Scenario.pictures (Some Scenario.client) "assets/cat.jpg" [])
    = [request]
    /\ Https.body request = Some "JFIF-bytes-of-a-cat"
    /\ header "Content-Length" (Https.headers request) = Some "19"
    /\ header "X-Goog-Upload-Content-Type" (Https.headers request)
       = Some "image/jpeg".
Proof.
  eexists. split; [vm_compute; reflexivity|].
  destruct (uploadBytes_announces_the_name (H := Reference.platform)
              Scenario.library Scenario.pictures (Some Scenario.client)
              "assets" "cat.jpg" [] (Resolved "CAIS-upload-token")
              {| Https.method := "POST";
                 Https.hostname := "photoslibrary.googleapis.com";
                 Https.pathname := "/v1/uploads";
                 Https.search := [];
                 Https.headers :=
                   [ ("Authorization", "Bearer ya29.a0-access");
                     ("Content-Type", "application/octet-stream");
                     ("X-Goog-Upload-Content-Type", "image/jpeg");
                     ("X-Goog-Upload-Protocol", "raw");
                     ("Content-Length", "19") ];
                 Https.body := Some "JFIF-bytes-of-a-cat" |})
    as (fileBuffer & Hread & _ & _ & Hbody & Hlength & _ & Htype).
  - discriminate.
  - repeat constructor; discriminate.
  - vm_compute. reflexivity.
  - injection Hread as <-. split; [exact Hbody|]. split; [exact Hlength|].
    rewrite Htype. vm_compute. reflexivity.
Defined.

(** X13.  A name without an extension gets the default content type.
    On a platform that lower-cases ASCII text as the language says,
    [getMimeType] answers [application/octet-stream] for every path
    without a dot, and for every name that is a dot followed by
    characters other than dots and separators, alone or at the end of
    a path: the name [.jpg] is a hidden file without an extension, not
    a picture. *)
Theorem getMimeType_without_extension `{Platform} :
  lowers_ascii ->
  (forall fileName,
      Forall (fun x => x <> NodePath.dot) (list_ascii_of_string fileName) ->
      Uploader.getMimeType fileName = "application/octet-stream")
  /\ (forall rest,
         Forall (fun x => x <> NodePath.slash /\ x <> NodePath.dot)
           (list_ascii_of_string rest) ->
         Uploader.getMimeType (String NodePath.dot rest)
         = "application/octet-stream"
         /\ forall directory,
              Uploader.getMimeType
                (directory +:+ String NodePath.slash
                                 (String NodePath.dot rest))
              = "application/octet-stream").
Proof.
  intros Hlaw.
  assert (Hnone : forall fileName,
             NodePath.extname fileName = "" ->
             Uploader.getMimeType fileName = "application/octet-stream").
  { intros fileName Hext. rewrite MimeFacts.getMimeType_by_key, Hext.
    rewrite (Hlaw "" eq_refl). reflexivity. }
  split.
  - intros fileName Hplain. apply Hnone, NameFacts.extname_no_dot, Hplain.
  - intros rest Hplain.
    destruct (NameFacts.extname_hidden rest Hplain) as [Hdir Hbare].
    split; [apply Hnone, Hbare|].
    intros directory. apply Hnone, Hdir.
Qed.

(** A run of X13 on the reference platform. *)
Lemma getMimeType_without_extension_witness :
  Uploader.getMimeType (H := Reference.platform) "assets/README"
  = "application/octet-stream"
  /\ Uploader.getMimeType (H := Reference.platform) "assets/.jpg"
     = "application/octet-stream".
Proof.
  destruct (getMimeType_without_extension (H := Reference.platform)
              MimeFacts.reference_lowers_ascii) as [Hplain Hhidden].
  split.
  - apply Hplain. repeat constructor; discriminate.
  - apply (proj2 (Hhidden "jpg" ltac:(repeat constructor; discriminate))
             "assets").
Defined.

End UploadNameFacts.
